(** * The streaming response transformer of [HeliconeLanguageModel.doStream]

    A shallow embedding of the body of [doStream]
    (src/helicone-language-model.ts, lines 330-545): the loop that reads the
    chunks of a server-sent-event response, decodes each [data: ] line and
    enqueues the normalized stream parts.

    Conventions of the embedding.
    - A JavaScript string is a [string]; its characters stand for the code
      units of the JavaScript string (code units above 255 are not modelled).
    - [JSON.parse] is a built-in of the platform and [mapHeliconeFinishReason]
      lives in a module that is not part of the sources at hand: both are
      fields of the class [Collaborators].  The decoder returns a frame of
      the wire shape [{ choices: [{ delta, finish_reason }], usage }]; an
      absent, [null] or [undefined] field is [None].  Payloads that parse to
      JSON of another shape are not modelled.
    - A chunk is the text [textDecoder.decode(value)] returns for one
      [reader.read()].  The [try] of line 409 encloses the whole processing
      of a frame; on frames of the wire shape only [JSON.parse] can throw
      in it.
    - The mutable objects of the closure ([usage], [actualFinishReason],
      [toolCalls], [indexToId], [textStarted], [textEnded]) are the fields of
      a [Session] that is passed from step to step; [controller.enqueue] is
      the list of stream parts every step returns.

    A second part embeds what surrounds that loop in the class: the getters
    [baseURL] and [headers], [buildRequestBody] with the part of
    [normalizeToolParameters] that does not depend on the schema library,
    and the reading of the response in [doGenerate]. *)

From stdpp Require Import gmap strings list.
From Stdlib Require Import ZArith Ascii String.
From Stdlib Require QArith_base.

Local Open Scope string_scope.
Local Open Scope Z_scope.
Local Open Scope list_scope.

(** ** JavaScript string primitives used by the frame reader *)

Module JS.

(** The line feed, U+000A. *)
Definition LF : ascii := "010"%char.

(** White space and line terminators removed by [String.prototype.trim],
    among the code units below 256: TAB, LF, VT, FF, CR, SP and NBSP. *)
Definition isWhiteSpace (c : ascii) : bool :=
  match nat_of_ascii c with
  | 9%nat | 10%nat | 11%nat | 12%nat | 13%nat | 32%nat | 160%nat => true
  | _ => false
  end.

(** [s.split('\n')]: the pieces between line feeds; never empty. *)
Fixpoint split_lines (s : string) : list string :=
  match s with
  | EmptyString => [EmptyString]
  | String c rest =>
      if Ascii.eqb c LF then EmptyString :: split_lines rest
      else match split_lines rest with
           | line :: lines => String c line :: lines
           | [] => [String c EmptyString]
           end
  end.

Fixpoint trimStart (s : string) : string :=
  match s with
  | String c rest => if isWhiteSpace c then trimStart rest else s
  | EmptyString => EmptyString
  end.

Fixpoint trimEnd (s : string) : string :=
  match s with
  | String c rest =>
      match trimEnd rest with
      | EmptyString => if isWhiteSpace c then EmptyString else String c EmptyString
      | rest' => String c rest'
      end
  | EmptyString => EmptyString
  end.

(** [s.trim()] *)
Definition trim (s : string) : string := trimEnd (trimStart s).

(** [s.startsWith(p)] *)
Definition startsWith (p s : string) : bool := String.prefix p s.

(** [s.slice(n)] for [0 <= n]. *)
Fixpoint slice (n : nat) (s : string) : string :=
  match n, s with
  | S n', String _ rest => slice n' rest
  | _, _ => s
  end.

(** Truthiness of a possibly absent string: absent, [null] and the empty
    string are falsy. *)
Definition truthy (o : option string) : option string :=
  match o with
  | Some (String c rest) => Some (String c rest)
  | _ => None
  end.

(** [x || 0] on a possibly absent number. *)
Definition orZero (o : option Z) : Z := default 0 o.

(** [Set.prototype.has] and [Set.prototype.add] on a set kept in insertion
    order. *)
Definition has (x : string) (l : list string) : bool := bool_decide (x ∈ l).
Definition add (x : string) (l : list string) : list string :=
  if has x l then l else l ++ [x].

End JS.

(** ** The wire format: one decoded frame *)

(** [{ name?, arguments? }] *)
Record FunctionDelta := {
  fn_name : option string;
  fn_arguments : option string;
}.

(** One element of [delta.tool_calls]: [{ index, id?, function? }]. *)
Record ToolCallDelta := {
  tcd_index : option Z;
  tcd_id : option string;
  tcd_function : option FunctionDelta;
}.

(** [choice.delta]: [{ content?, tool_calls? }]. *)
Record Delta := {
  d_content : option string;
  d_tool_calls : option (list ToolCallDelta);
}.

(** One element of [parsed.choices]. *)
Record Choice := {
  c_delta : option Delta;
  c_finish_reason : option string;
}.

(** [parsed.usage] *)
Record UsageData := {
  prompt_tokens : option Z;
  completion_tokens : option Z;
  total_tokens : option Z;
}.

(** The value returned by [JSON.parse(data)]. *)
Record Frame := {
  f_usage : option UsageData;
  f_choices : option (list Choice);
}.

(** ** The normalized events *)

(** [LanguageModelV2FinishReason] *)
Inductive FinishReason :=
| stop | length_ | content_filter | tool_calls | error_ | other | unknown.

(** [LanguageModelV2Usage], the three fields the transformer fills. *)
Record Usage := {
  inputTokens : Z;
  outputTokens : Z;
  totalTokens : Z;
}.

(** The stream parts [doStream] enqueues. *)
Inductive StreamPart :=
| text_start (id : string)
| text_delta (id delta : string)
| text_end (id : string)
| tool_input_start (id toolName : string)
| tool_input_delta (id delta : string)
| tool_input_end (id : string)
| tool_call (toolCallId toolName input : string)
| finish (usage : Usage) (finishReason : FinishReason).

(** How the output stream ends: [controller.close()] or
    [controller.error(error)]. *)
Inductive StreamEnd := closed | errored.

(** How the response body ends: [reader.read()] reports [done], or rejects. *)
Inductive SourceEnd := source_done | source_failed.

(** ** The state of one call of [doStream] *)

(** A value of the [toolCalls] map. *)
Record TrackedCall := {
  tc_id : string;
  tc_name : string;
  tc_arguments : string;
  tc_completed : bool;
}.

Record Session := {
  usage : Usage;
  actualFinishReason : FinishReason;
  (** [Map<string, ...>], in insertion order *)
  toolCalls : list (string * TrackedCall);
  (** [Map<number, string>] *)
  indexToId : gmap Z string;
  (** [Set<string>], in insertion order *)
  textStarted : list string;
  textEnded : list string;
}.

Definition initialSession : Session := {|
  usage := {| inputTokens := 0; outputTokens := 0; totalTokens := 0 |};
  actualFinishReason := stop;
  toolCalls := [];
  indexToId := ∅;
  textStarted := [];
  textEnded := [];
|}.

Definition set_usage (u : Usage) (s : Session) : Session :=
  {| usage := u; actualFinishReason := actualFinishReason s;
     toolCalls := toolCalls s; indexToId := indexToId s;
     textStarted := textStarted s; textEnded := textEnded s |}.

Definition set_finishReason (r : FinishReason) (s : Session) : Session :=
  {| usage := usage s; actualFinishReason := r;
     toolCalls := toolCalls s; indexToId := indexToId s;
     textStarted := textStarted s; textEnded := textEnded s |}.

Definition set_toolCalls (calls : list (string * TrackedCall)) (s : Session) : Session :=
  {| usage := usage s; actualFinishReason := actualFinishReason s;
     toolCalls := calls; indexToId := indexToId s;
     textStarted := textStarted s; textEnded := textEnded s |}.

Definition set_indexToId (m : gmap Z string) (s : Session) : Session :=
  {| usage := usage s; actualFinishReason := actualFinishReason s;
     toolCalls := toolCalls s; indexToId := m;
     textStarted := textStarted s; textEnded := textEnded s |}.

Definition set_textStarted (l : list string) (s : Session) : Session :=
  {| usage := usage s; actualFinishReason := actualFinishReason s;
     toolCalls := toolCalls s; indexToId := indexToId s;
     textStarted := l; textEnded := textEnded s |}.

Definition set_textEnded (l : list string) (s : Session) : Session :=
  {| usage := usage s; actualFinishReason := actualFinishReason s;
     toolCalls := toolCalls s; indexToId := indexToId s;
     textStarted := textStarted s; textEnded := l |}.

(** ** The [toolCalls] map *)

(** [toolCalls.get(toolId)] *)
Fixpoint getCall (toolId : string) (calls : list (string * TrackedCall)) : option TrackedCall :=
  match calls with
  | [] => None
  | (k, tc) :: rest => if decide (k = toolId) then Some tc else getCall toolId rest
  end.

(** Writing a field of the object stored under [toolId]: the entry keeps its
    place in the map. *)
Fixpoint putCall (toolId : string) (tc' : TrackedCall) (calls : list (string * TrackedCall))
  : list (string * TrackedCall) :=
  match calls with
  | [] => []
  | (k, tc) :: rest =>
      if decide (k = toolId) then (k, tc') :: rest else (k, tc) :: putCall toolId tc' rest
  end.

(** The object created at lines 499-504. *)
Definition newCall (toolId : string) : TrackedCall :=
  {| tc_id := toolId; tc_name := EmptyString; tc_arguments := "{}"; tc_completed := false |}.

Definition with_name (n : string) (tc : TrackedCall) : TrackedCall :=
  {| tc_id := tc_id tc; tc_name := n; tc_arguments := tc_arguments tc;
     tc_completed := tc_completed tc |}.

Definition with_arguments (a : string) (tc : TrackedCall) : TrackedCall :=
  {| tc_id := tc_id tc; tc_name := tc_name tc; tc_arguments := a;
     tc_completed := tc_completed tc |}.

Definition with_completed (tc : TrackedCall) : TrackedCall :=
  {| tc_id := tc_id tc; tc_name := tc_name tc; tc_arguments := tc_arguments tc;
     tc_completed := true |}.

(** ** Loops that enqueue

    A loop body takes the session and one element and returns the session
    after it with the parts it enqueued. *)

Section ForEach.

Context {A : Type} (body : Session -> A -> Session * list StreamPart).

Fixpoint forEach (s : Session) (l : list A) : Session * list StreamPart :=
  match l with
  | [] => (s, [])
  | x :: rest =>
      let '(s1, out1) := body s x in
      let '(s2, out2) := forEach s1 rest in
      (s2, out1 ++ out2)
  end.

End ForEach.

(** The [completed] flag of the call [c], when it is tracked. *)
Definition completedFlag (c : string) (s : Session) : option bool :=
  tc_completed <$> getCall c (toolCalls s).

(** ** The flush: lines 357-385 and, identically, 426-454 *)

(** What the loop over [toolCalls] enqueues for one entry. *)
Definition completionEvents (tc : TrackedCall) : list StreamPart :=
  if tc_completed tc then []
  else [tool_input_end (tc_id tc); tool_call (tc_id tc) (tc_name tc) (tc_arguments tc)].

(** [for (const [id, toolCall] of toolCalls) if (!toolCall.completed) ...];
    setting [completed] leaves a completed call as it is. *)
Fixpoint completeToolCalls (calls : list (string * TrackedCall))
  : list (string * TrackedCall) * list StreamPart :=
  match calls with
  | [] => ([], [])
  | (k, tc) :: rest =>
      let '(rest', out) := completeToolCalls rest in
      ((k, with_completed tc) :: rest', completionEvents tc ++ out)
  end.

(** [for (const id of textStarted) if (!textEnded.has(id)) ...] *)
Fixpoint completeText (started ended : list string) : list string * list StreamPart :=
  match started with
  | [] => (ended, [])
  | id :: rest =>
      if JS.has id ended then completeText rest ended
      else
        let '(ended', out) := completeText rest (JS.add id ended) in
        (ended', text_end id :: out)
  end.

Definition flush (s : Session) : Session * list StreamPart :=
  let '(calls, out1) := completeToolCalls (toolCalls s) in
  let '(ended, out2) := completeText (textStarted s) (textEnded s) in
  (set_textEnded ended (set_toolCalls calls s), out1 ++ out2).

(** ** Text content: lines 461-476 *)

Definition emitText (s : Session) (text : string) : Session * list StreamPart :=
  let id := "text-0" in
  if JS.has id (textStarted s)
  then (s, [text_delta id text])
  else (set_textStarted (JS.add id (textStarted s)) s,
        [text_start id; text_delta id text]).

Definition handleContent (s : Session) (d : Delta) : Session * list StreamPart :=
  match JS.truthy (d_content d) with
  | Some text => emitText s text
  | None => (s, [])
  end.

(** ** Tool-call fragments: lines 480-533 *)

(** Lines 481-494: the id a fragment is correlated with, and the index map
    after it; [None] is the [continue] of line 493. *)
Definition resolveToolId (m : gmap Z string) (toolCall : ToolCallDelta)
  : option (string * gmap Z string) :=
  match JS.truthy (tcd_id toolCall) with
  | Some toolId =>
      Some (toolId,
            match tcd_index toolCall with
            | Some i => <[i := toolId]> m
            | None => m
            end)
  | None =>
      match tcd_index toolCall with
      | Some i =>
          match m !! i with
          | Some toolId => Some (toolId, m)
          | None => None
          end
      | None => None
      end
  end.

(** Lines 497-506. *)
Definition getOrCreate (toolId : string) (calls : list (string * TrackedCall))
  : list (string * TrackedCall) * TrackedCall :=
  match getCall toolId calls with
  | Some tc => (calls, tc)
  | None => (calls ++ [(toolId, newCall toolId)], newCall toolId)
  end.

(** The object [getOrCreate] hands to lines 509-532. *)
Definition currentCall (toolId : string) (calls : list (string * TrackedCall)) : TrackedCall :=
  default (newCall toolId) (getCall toolId calls).

(** Lines 509-516. *)
Definition applyName (toolId : string) (fn : option FunctionDelta) (tc : TrackedCall)
  : TrackedCall * list StreamPart :=
  match JS.truthy (fn ≫= fn_name) with
  | Some n =>
      match tc_name tc with
      | EmptyString => (with_name n tc, [tool_input_start toolId n])
      | _ => (tc, [])
      end
  | None => (tc, [])
  end.

(** Lines 521-525: the write to [trackedCall.arguments]. *)
Definition accumulate (buffer fragment : string) : string :=
  if decide (buffer = "{}") then fragment else String.append buffer fragment.

(** Lines 519-532. *)
Definition applyArguments (toolId : string) (fn : option FunctionDelta) (tc : TrackedCall)
  : TrackedCall * list StreamPart :=
  match JS.truthy (fn ≫= fn_arguments) with
  | Some a => (with_arguments (accumulate (tc_arguments tc) a) tc, [tool_input_delta toolId a])
  | None => (tc, [])
  end.

(** Lines 509-532 on the tracked object. *)
Definition applyFragment (toolId : string) (fn : option FunctionDelta) (tc : TrackedCall)
  : TrackedCall * list StreamPart :=
  let '(tc1, out1) := applyName toolId fn tc in
  let '(tc2, out2) := applyArguments toolId fn tc1 in
  (tc2, out1 ++ out2).

(** Lines 497-532: the fragment, once correlated with [toolId]. *)
Definition trackFragment (toolId : string) (s : Session) (toolCall : ToolCallDelta)
  : Session * list StreamPart :=
  let '(calls, trackedCall) := getOrCreate toolId (toolCalls s) in
  let '(trackedCall', out) := applyFragment toolId (tcd_function toolCall) trackedCall in
  (set_toolCalls (putCall toolId trackedCall' calls) s, out).

(** The body of the loop over [delta.tool_calls]. *)
Definition handleToolCall (s : Session) (toolCall : ToolCallDelta) : Session * list StreamPart :=
  match resolveToolId (indexToId s) toolCall with
  | None => (s, [])
  | Some (toolId, m) => trackFragment toolId (set_indexToId m s) toolCall
  end.

Definition handleToolCalls : Session -> list ToolCallDelta -> Session * list StreamPart :=
  forEach handleToolCall.

(** Lines 413-417. *)
Definition readUsage (u : UsageData) : Usage :=
  {| inputTokens := JS.orZero (prompt_tokens u);
     outputTokens := JS.orZero (completion_tokens u);
     totalTokens := JS.orZero (total_tokens u) |}.

(** ** A frame in protocol order

    What one frame makes the loop body do, as a sequence of items in the
    order in which lines 413-534 look at them: the usage object, the finish
    signal of the first choice, its text content, its tool-call fragments. *)

Inductive Item :=
| usageItem (u : UsageData)
| finishItem (reason : string)
| contentItem (text : string)
| fragmentItem (toolCall : ToolCallDelta).

Definition deltaItems (d : Delta) : list Item :=
  match JS.truthy (d_content d) with
  | Some text => [contentItem text]
  | None => []
  end ++ (fragmentItem <$> default [] (d_tool_calls d)).

Definition choiceItems (c : Choice) : list Item :=
  match JS.truthy (c_finish_reason c) with
  | Some reason => [finishItem reason]
  | None => []
  end ++ from_option deltaItems [] (c_delta c).

Definition frameItems (f : Frame) : list Item :=
  match f_usage f with
  | Some u => [usageItem u]
  | None => []
  end ++ from_option choiceItems [] (head (default [] (f_choices f))).

(** ** The collaborators

    What [doStream] calls and these sources do not define. *)
Class Collaborators := {
  (** [JSON.parse] followed by the reading of the frame; [None] when it
      throws. *)
  JSON_parse : string -> option Frame;
  (** The finish-reason mapping of [./helicone-error]. *)
  mapHeliconeFinishReason : string -> FinishReason;
}.

Section Transformer.

Context {collaborators : Collaborators}.

(** Lines 410-534: one decoded frame. *)
Definition processFrame (s : Session) (parsed : Frame) : Session * list StreamPart :=
  let s1 :=
    match f_usage parsed with
    | Some u => set_usage (readUsage u) s
    | None => s
    end in
  match head (default [] (f_choices parsed)) with
  | None => (s1, [])
  | Some choice =>
      let '(s2, out2) :=
        match JS.truthy (c_finish_reason choice) with
        | Some reason => flush (set_finishReason (mapHeliconeFinishReason reason) s1)
        | None => (s1, [])
        end in
      match c_delta choice with
      | None => (s2, out2)
      | Some delta =>
          let '(s3, out3) := handleContent s2 delta in
          let '(s4, out4) :=
            match d_tool_calls delta with
            | Some l => handleToolCalls s3 l
            | None => (s3, [])
            end in
          (s4, out2 ++ out3 ++ out4)
      end
  end.

(** Lines 400-410: the frame a line carries, if any. *)
Definition decodeLine (line : string) : option Frame :=
  let trimmed := JS.trim line in
  if negb (JS.startsWith "data: " trimmed) then None
  else
    let data := JS.slice 6 trimmed in
    if decide (data = "[DONE]") then None
    else JSON_parse data.

(** Lines 400-538: one line of a chunk. *)
Definition processLine (s : Session) (line : string) : Session * list StreamPart :=
  match decodeLine line with
  | Some parsed => processFrame s parsed
  | None => (s, [])
  end.

(** Lines 396-539: one chunk returned by [reader.read()]. *)
Definition processChunk (s : Session) (chunk : string) : Session * list StreamPart :=
  forEach processLine s (JS.split_lines chunk).

Definition processChunks : Session -> list string -> Session * list StreamPart :=
  forEach processChunk.

(** Lines 356-394: [reader.read()] reported [done]. *)
Definition finalize (s : Session) : Session * list StreamPart :=
  let '(s1, out1) := flush s in
  (s1, out1 ++ [finish (usage s1) (actualFinishReason s1)]).

(** The stream [doStream] returns, read to its end: the parts enqueued, in
    order, and how the stream ended. *)
Definition doStream (chunks : list string) (ending : SourceEnd)
  : list StreamPart * StreamEnd :=
  let '(s1, out1) := processChunks initialSession chunks in
  match ending with
  | source_done => (out1 ++ snd (finalize s1), closed)
  | source_failed => (out1, errored)
  end.

(** *** The same loop, item by item *)

Definition step (s : Session) (it : Item) : Session * list StreamPart :=
  match it with
  | usageItem u => (set_usage (readUsage u) s, [])
  | finishItem reason => flush (set_finishReason (mapHeliconeFinishReason reason) s)
  | contentItem text => emitText s text
  | fragmentItem toolCall => handleToolCall s toolCall
  end.

Definition run : Session -> list Item -> Session * list StreamPart := forEach step.

(** The frames of a whole response body, in the order in which the loop
    decodes them, and their items. *)
Definition chunkFrames (chunk : string) : list Frame :=
  omap decodeLine (JS.split_lines chunk).

Definition streamFrames (chunks : list string) : list Frame :=
  List.concat (chunkFrames <$> chunks).

Definition streamItems (chunks : list string) : list Item :=
  List.concat (frameItems <$> streamFrames chunks).

(** A [data: ] line whose payload [JSON.parse] rejects. *)
Definition malformed (line : string) : Prop :=
  JS.startsWith "data: " (JS.trim line) = true /\
  JS.slice 6 (JS.trim line) <> "[DONE]" /\
  JSON_parse (JS.slice 6 (JS.trim line)) = None.

(** The finish reason after the items [items], when it was [r0] before. *)
Definition reasonAfter (r0 : FinishReason) (items : list Item) : FinishReason :=
  foldl (fun r it => match it with
                     | finishItem reason => mapHeliconeFinishReason reason
                     | _ => r
                     end) r0 items.

(** Everything enqueued from the session [s] on, when the items [items]
    are still to come and the body then ends normally. *)
Definition outputFrom (s : Session) (items : list Item) : list StreamPart :=
  let '(s1, out1) := run s items in
  out1 ++ snd (finalize s1).

(** The session when the stream is closed. *)
Definition finalSession (s : Session) (items : list Item) : Session :=
  fst (finalize (fst (run s items))).

(** Section 3 on [ToolCallState]: no fragment changes a completed call. *)
Definition frozenOnceCompleted (items : list Item) : Prop :=
  forall c h toolCall rest,
    items = h ++ fragmentItem toolCall :: rest ->
    completedFlag c (fst (run initialSession h)) = Some true ->
    getCall c (toolCalls (fst (handleToolCall (fst (run initialSession h)) toolCall)))
    = getCall c (toolCalls (fst (run initialSession h))).

(** The sessions the loop goes through from [s]: one after every item, and
    the one the final flush leaves. *)
Fixpoint sessions (s : Session) (items : list Item) : list Session :=
  match items with
  | [] => [s; fst (finalize s)]
  | it :: rest => s :: sessions (fst (step s it)) rest
  end.

End Transformer.

(** ** Vocabulary of the statements *)

Inductive Kind :=
| TextStart | TextDelta | TextEnd
| ToolInputStart | ToolInputDelta | ToolInputEnd | ToolCall
| Finish.

Definition kind (e : StreamPart) : Kind :=
  match e with
  | text_start _ => TextStart
  | text_delta _ _ => TextDelta
  | text_end _ => TextEnd
  | tool_input_start _ _ => ToolInputStart
  | tool_input_delta _ _ => ToolInputDelta
  | tool_input_end _ => ToolInputEnd
  | tool_call _ _ _ => ToolCall
  | finish _ _ => Finish
  end.

(** The [id] (or [toolCallId]) of a part. *)
Definition partId (e : StreamPart) : option string :=
  match e with
  | text_start id | text_delta id _ | text_end id
  | tool_input_start id _ | tool_input_delta id _ | tool_input_end id
  | tool_call id _ _ => Some id
  | finish _ _ => None
  end.

(** [e] is a part of kind [k] for the id [c]. *)
Definition isPart (k : Kind) (c : string) (e : StreamPart) : Prop :=
  kind e = k /\ partId e = Some c.

#[global] Instance Kind_eq_dec : EqDecision Kind.
Proof. solve_decision. Defined.

#[global] Instance isPart_dec k c e : Decision (isPart k c e).
Proof. unfold isPart. apply _. Defined.

(** How many parts of kind [k] for [c] there are in [out]. *)
Definition occurrences (k : Kind) (c : string) (out : list StreamPart) : nat :=
  List.length (filter (isPart k c) out).

(** No part of kind [k] for [c] in [out]. *)
Definition absent (k : Kind) (c : string) (out : list StreamPart) : Prop :=
  forall e, e ∈ out -> ~ isPart k c e.

(** Every part of kind [k1] for [c] stands at a smaller index of [out] than
    every part of kind [k2] for [c]. *)
Definition precedes (k1 k2 : Kind) (c : string) (out : list StreamPart) : Prop :=
  forall i j a b,
    out !! i = Some a -> out !! j = Some b -> isPart k1 c a -> isPart k2 c b -> (i < j)%nat.

(** [out] ends with a [finish] part and holds no other. *)
Definition finishesLast (out : list StreamPart) : Prop :=
  exists pre u r, out = pre ++ [finish u r] /\ forall e, e ∈ pre -> kind e <> Finish.

(** The ordering of the parts as section 4.5 words it. *)
Definition ordered (out : list StreamPart) : Prop :=
  (forall c,
      precedes ToolInputStart ToolInputDelta c out /\
      precedes ToolInputStart ToolInputEnd c out /\
      precedes ToolInputDelta ToolCall c out /\
      precedes ToolInputEnd ToolCall c out /\
      precedes TextStart TextDelta c out /\
      precedes TextDelta TextEnd c out) /\
  finishesLast out.

(** The kinds the flush enqueues, and the kinds a delta makes the loop
    enqueue. *)
Definition flushKind (k : Kind) : bool :=
  match k with ToolInputEnd | ToolCall | TextEnd => true | _ => false end.

Definition payloadKind (k : Kind) : bool :=
  match k with
  | TextStart | TextDelta | ToolInputStart | ToolInputDelta => true
  | _ => false
  end.

(** *** Conditions on the items of a stream *)

Definition isUsage (it : Item) : bool :=
  match it with usageItem _ => true | _ => false end.

Definition isSignal (it : Item) : bool :=
  match it with finishItem _ => true | _ => false end.

Definition isFragment (it : Item) : bool :=
  match it with fragmentItem _ => true | _ => false end.

Definition isContent (it : Item) : bool :=
  match it with contentItem _ => true | _ => false end.

Definition isPayload (it : Item) : bool :=
  match it with contentItem _ | fragmentItem _ => true | _ => false end.

(** The items that make the loop enqueue a part of kind [k]. *)
Definition producer (k : Kind) (it : Item) : bool :=
  match k with
  | TextStart | TextDelta => isContent it
  | ToolInputStart | ToolInputDelta => isFragment it
  | ToolInputEnd | ToolCall | TextEnd => isSignal it
  | Finish => false
  end.

(** No item that [loud] selects comes after a finish signal. *)
Fixpoint silentAfterFinish (loud : Item -> bool) (items : list Item) : bool :=
  match items with
  | [] => true
  | it :: rest =>
      if isSignal it then forallb (fun it' => negb (loud it')) rest
      else silentAfterFinish loud rest
  end.

(** Every fragment that carries an id carries a function name too. *)
Definition namedWithId (it : Item) : bool :=
  match it with
  | fragmentItem toolCall =>
      match JS.truthy (tcd_id toolCall), JS.truthy (tcd_function toolCall ≫= fn_name) with
      | Some _, None => false
      | _, _ => true
      end
  | _ => true
  end.

(** *** The invariant of the session *)

Record wellFormed (s : Session) : Prop := {
  (** every object of [toolCalls] is stored under its own id *)
  wf_keys : forall c tc, getCall c (toolCalls s) = Some tc -> tc_id tc = c;
  (** a [Map] holds a key once *)
  wf_nodup : NoDup (toolCalls s).*1;
  (** an index is only ever mapped to the id of a tracked call *)
  wf_indexed : forall i c, indexToId s !! i = Some c -> is_Some (getCall c (toolCalls s));
  (** the only text span is [text-0], and it is ended only once started *)
  wf_started : textStarted s = [] \/ textStarted s = ["text-0"];
  wf_ended : textEnded s = [] \/ (textEnded s = ["text-0"] /\ textStarted s = ["text-0"]);
}.

(** The call [c] is tracked and has received its name. *)
Definition named (c : string) (s : Session) : Prop :=
  exists tc, getCall c (toolCalls s) = Some tc /\ tc_name tc <> EmptyString.

(** Every tracked call has received its name. *)
Definition allNamed (s : Session) : Prop :=
  forall c tc, getCall c (toolCalls s) = Some tc -> tc_name tc <> EmptyString.

(** *** Lines and frames *)

(** The lines of a response body that pass the test of line 401. *)
Definition dataLines (chunks : list string) : list string :=
  filter (fun line => JS.startsWith "data: " (JS.trim line) = true)
         (List.concat (JS.split_lines <$> chunks)).

(** A frame that carries the text [text] and nothing else. *)
Definition textFrame (text : string) : Frame :=
  {| f_usage := None;
     f_choices := Some [ {| c_delta := Some {| d_content := Some text; d_tool_calls := None |};
                            c_finish_reason := None |} ] |}.

(** [out] is what the fragment [toolCall] does to the session [s] when it is
    correlated with the id [c]: it is tracked under [c], every part it
    enqueues carries [c], and no other tracked call is touched. *)
Definition correlatedWith (c : string) (s : Session) (toolCall : ToolCallDelta)
    (r : Session * list StreamPart) : Prop :=
  r = trackFragment c (set_indexToId (indexToId (fst r)) s) toolCall /\
  is_Some (getCall c (toolCalls (fst r))) /\
  (forall e, e ∈ snd r -> partId e = Some c) /\
  (forall c', c' <> c -> getCall c' (toolCalls (fst r)) = getCall c' (toolCalls s)).

(** *** Usage and finish reason *)

(** The finish signal of a frame: the truthy [finish_reason] of its first
    choice. *)
Definition finishSignal (f : Frame) : option string :=
  head (default [] (f_choices f)) ≫= fun choice => JS.truthy (c_finish_reason choice).

(** The usage after the items [items], when it was [u0] before. *)
Definition usageAfter (u0 : Usage) (items : list Item) : Usage :=
  foldl (fun u it => match it with usageItem d => readUsage d | _ => u end) u0 items.

Definition zeroUsage : Usage :=
  {| inputTokens := 0; outputTokens := 0; totalTokens := 0 |}.

(** *** The fragments of one tool call *)

(** The function parts of the fragments correlated with [c], in arrival
    order, when the index map is [m] at the start. *)
Fixpoint delivered (m : gmap Z string) (c : string) (items : list Item)
  : list (option FunctionDelta) :=
  match items with
  | [] => []
  | fragmentItem toolCall :: rest =>
      match resolveToolId m toolCall with
      | Some (c', m') =>
          if decide (c' = c) then tcd_function toolCall :: delivered m' c rest
          else delivered m' c rest
      | None => delivered m c rest
      end
  | _ :: rest => delivered m c rest
  end.

(** The same, from the first fragment correlated with [c] up to the next
    finish signal; [opened] tells whether that first fragment has been seen. *)
Fixpoint firstSpan (m : gmap Z string) (c : string) (opened : bool) (items : list Item)
  : list (option FunctionDelta) :=
  match items with
  | [] => []
  | finishItem _ :: rest => if opened then [] else firstSpan m c false rest
  | fragmentItem toolCall :: rest =>
      match resolveToolId m toolCall with
      | Some (c', m') =>
          if decide (c' = c) then tcd_function toolCall :: firstSpan m' c true rest
          else firstSpan m' c opened rest
      | None => firstSpan m c opened rest
      end
  | _ :: rest => firstSpan m c opened rest
  end.

(** The argument texts among function parts: those present and not empty,
    which are the ones line 519 lets through. *)
Definition argumentTexts (fns : list (option FunctionDelta)) : list string :=
  omap (fun fn => JS.truthy (fn ≫= fn_arguments)) fns.

(** Plain concatenation, in order. *)
Definition concatenation (l : list string) : string :=
  foldr String.append EmptyString l.

(** The buffer lines 521-525 build from the texts [l], starting from [buffer]. *)
Definition accumulated (buffer : string) (l : list string) : string :=
  foldl accumulate buffer l.

(** The tracked object after lines 509-532 ran for each of [fns] in turn. *)
Definition replay (c : string) (tc : TrackedCall) (fns : list (option FunctionDelta))
  : TrackedCall :=
  foldl (fun tc fn => fst (applyFragment c fn tc)) tc fns.

(** Every tool call is first mentioned by a fragment with an id and an
    index, and mentioned again only by fragments with that index and no id;
    [ids] and [indexes] are the ones seen so far. *)
Fixpoint idFirstThenIndex (ids : list string) (indexes : list Z) (items : list Item) : bool :=
  match items with
  | [] => true
  | fragmentItem toolCall :: rest =>
      match JS.truthy (tcd_id toolCall), tcd_index toolCall with
      | Some c, Some i =>
          negb (bool_decide (c ∈ ids)) && idFirstThenIndex (c :: ids) (i :: indexes) rest
      | None, Some i => bool_decide (i ∈ indexes) && idFirstThenIndex ids indexes rest
      | _, None => false
      end
  | _ :: rest => idFirstThenIndex ids indexes rest
  end.

(** Section 8 on the input of a [tool-call] part: the concatenation of all
    argument fragments delivered for its id. *)
Definition inputIsConcatenation (items : list Item) (out : list StreamPart) : Prop :=
  forall c n input,
    tool_call c n input ∈ out ->
    input = concatenation (omap (fun fn => fn ≫= fn_arguments) (delivered ∅ c items)).

(** How often a list of flags goes from [false] to [true], and how often it
    leaves [true]. *)
Fixpoint rises (flags : list (option bool)) : nat :=
  match flags with
  | Some false :: ((Some true :: _) as rest) => S (rises rest)
  | _ :: rest => rises rest
  | [] => O
  end.

Fixpoint falls (flags : list (option bool)) : nat :=
  match flags with
  | Some true :: ((Some true :: _) as rest) => falls rest
  | Some true :: ((_ :: _) as rest) => S (falls rest)
  | _ :: rest => falls rest
  | [] => O
  end.

(** The steps a [completed] flag may take from one session to the next:
    an untracked call stays so or becomes tracked and open, an open call
    stays open or is completed, a completed call stays completed. *)
Definition steady (x y : option bool) : Prop :=
  match x, y with
  | None, None | None, Some false | Some false, Some _ | Some true, Some true => True
  | _, _ => False
  end.

Fixpoint chain (flags : list (option bool)) : Prop :=
  match flags with
  | x :: ((y :: _) as rest) => steady x y /\ chain rest
  | _ => True
  end.

(** *** What the consumer of the stream reads *)

(** The texts of the [text-delta] parts, in order. *)
Definition textOf (out : list StreamPart) : list string :=
  omap (fun e => match e with text_delta _ d => Some d | _ => None end) out.

(** The deltas of the [tool-input-delta] parts for the id [c], in order. *)
Definition argumentsOf (c : string) (out : list StreamPart) : list string :=
  omap (fun e => match e with
                 | tool_input_delta id d => if decide (id = c) then Some d else None
                 | _ => None
                 end) out.

(** The ids of the [tool-call] parts, in order. *)
Definition callIds (out : list StreamPart) : list string :=
  omap (fun e => match e with tool_call id _ _ => Some id | _ => None end) out.

(** The names of the [tool-input-start] parts for the id [c], in order. *)
Definition startNames (c : string) (out : list StreamPart) : list string :=
  omap (fun e => match e with
                 | tool_input_start id n => if decide (id = c) then Some n else None
                 | _ => None
                 end) out.

(** The text a frame carries: the truthy [content] of the delta of its first
    choice. *)
Definition frameText (f : Frame) : option string :=
  head (default [] (f_choices f)) ≫= fun choice =>
  c_delta choice ≫= fun d => JS.truthy (d_content d).

(** The ids the fragments of [items] are correlated with and that are not in
    [seen], each at its first mention, when the index map is [m] at the
    start. *)
Fixpoint firstMentions (m : gmap Z string) (seen : list string) (items : list Item)
  : list string :=
  match items with
  | [] => []
  | fragmentItem toolCall :: rest =>
      match resolveToolId m toolCall with
      | Some (c, m') =>
          if decide (c ∈ seen) then firstMentions m' seen rest
          else c :: firstMentions m' (seen ++ [c]) rest
      | None => firstMentions m seen rest
      end
  | _ :: rest => firstMentions m seen rest
  end.

(** The keys of the calls of a [toolCalls] map that are not completed, in
    the order of the map. *)
Definition openKeys (calls : list (string * TrackedCall)) : list string :=
  (filter (fun p => tc_completed p.2 = false) calls).*1.

(** The kinds of the parts of a text span. *)
Definition textKind (k : Kind) : Prop := k = TextStart \/ k = TextDelta \/ k = TextEnd.

(** The names among function parts that line 509 lets through. *)
Definition nameTexts (fns : list (option FunctionDelta)) : list string :=
  omap (fun fn => JS.truthy (fn ≫= fn_name)) fns.

(** A line the loop passes over: it does not start with [data: ] once
    trimmed, or it is the [DONE] sentinel. *)
Definition passedOver (line : string) : Prop :=
  JS.startsWith "data: " (JS.trim line) = false \/ JS.slice 6 (JS.trim line) = "[DONE]".

(** * The request and the non-streaming response

    The getters [baseURL] and [headers] (lines 37-81), [buildRequestBody]
    (lines 139-222) and the reading of the response in [doGenerate]
    (lines 258-299).

    - The types of [./types] are not among the sources; the records below
      hold the fields these lines read.  An absent or [undefined] field is
      [None].
    - The headers and the request body are objects used as maps from keys to
      values: a [gmap].  The order of the keys is not modelled.
    - A JavaScript number is a rational here; no arithmetic is done on the
      numbers of a request. *)

(** ** JSON values *)

#[warnings="-register-all"] Inductive Json :=
| jnull
| jbool (b : bool)
| jnumber (n : QArith_base.Q)
| jstring (s : string)
| jarray (items : list Json)
| jobject (fields : gmap string Json).

(** Truthiness of a property that may be absent. *)
Definition truthyJson (v : option Json) : bool :=
  match v with
  | None | Some jnull | Some (jbool false) | Some (jstring EmptyString) => false
  | Some (jnumber n) => negb (QArith_base.Qeq_bool n (QArith_base.Qmake 0 1))
  | Some _ => true
  end.

(** ** The configuration of a model *)

(** [extraBody.helicone].  [h_properties] is [Object.entries(properties)]
    with every value as [String(value)] gives it. *)
Record HeliconeMetadata := {
  h_sessionId : option string;
  h_userId : option string;
  h_properties : option (list (string * string));
  h_tags : option (list string);
  h_cache : option bool;
}.

(** [HeliconeExtraBody]: the four properties line 140 takes out, and its
    other own properties. *)
Record HeliconeExtraBody := {
  eb_helicone : option HeliconeMetadata;
  eb_prompt_id : option string;
  eb_inputs : option Json;
  eb_environment : option string;
  eb_other : gmap string Json;
}.

Record HeliconeSettings := {
  s_baseURL : option string;
  s_headers : option (gmap string string);
  s_apiKey : option string;
}.

(** The fields of a [HeliconeLanguageModel]. *)
Record HeliconeLanguageModel := {
  modelId : string;
  settings : HeliconeSettings;
  extraBody : option HeliconeExtraBody;
}.

(** ** [baseURL] and [headers]: lines 37-81 *)

Definition baseURL (this : HeliconeLanguageModel) : string :=
  default "https://ai-gateway.helicone.ai" (s_baseURL (settings this)).

(** [String(b)] on a boolean. *)
Definition String_of_bool (b : bool) : string := if b then "true" else "false".

(** [if (value) headers[key] = value] *)
Definition setIfTruthy (key : string) (value : option string) (headers : gmap string string)
  : gmap string string :=
  match JS.truthy value with
  | Some v => <[key := v]> headers
  | None => headers
  end.

(** Lines 63-67. *)
Definition setProperties (entries : list (string * string)) (headers : gmap string string)
  : gmap string string :=
  foldl (fun h entry => <[String.append "Helicone-Property-" entry.1 := entry.2]> h)
        headers entries.

(** Lines 69-73. *)
Definition setTags (tags : list string) (headers : gmap string string)
  : gmap string string :=
  foldl (fun h tag => <[String.append "Helicone-Property-Tag-" tag := "true"]> h)
        headers tags.

(** Lines 53-77. *)
Definition setMetadata (helicone : HeliconeMetadata) (headers : gmap string string)
  : gmap string string :=
  let h1 := setIfTruthy "Helicone-Session-Id" (h_sessionId helicone) headers in
  let h2 := setIfTruthy "Helicone-User-Id" (h_userId helicone) h1 in
  let h3 := setProperties (default [] (h_properties helicone)) h2 in
  let h4 := setTags (default [] (h_tags helicone)) h3 in
  match h_cache helicone with
  | Some b => <["Helicone-Cache-Enabled" := String_of_bool b]> h4
  | None => h4
  end.

Definition headers (this : HeliconeLanguageModel) : gmap string string :=
  let h0 : gmap string string :=
    default ∅ (s_headers (settings this)) ∪ {["Content-Type" := "application/json"]} in
  let h1 :=
    match JS.truthy (s_apiKey (settings this)) with
    | Some apiKey => <["Authorization" := String.append "Bearer " apiKey]> h0
    | None => h0
    end in
  match extraBody this ≫= eb_helicone with
  | Some helicone => setMetadata helicone h1
  | None => h1
  end.

(** ** The call options *)

(** [options.toolChoice] *)
Inductive ToolChoice :=
| choice_auto
| choice_required
| choice_none
| choice_tool (toolName : string).

(** What [buildRequestBody] and [doGenerate] call and these sources do not
    define, or define on values that are not modelled. *)
Class Platform := {
  (** an element of [options.prompt] *)
  PromptMessage : Type;
  (** [convertToHeliconePrompt] of [./convert-to-helicone-prompt] *)
  convertToHeliconePrompt : list PromptMessage -> Json;
  (** a schema as a tool carries it, a truthy value: a JSON Schema, a zod
      schema, ... *)
  ToolSchema : Type;
  (** lines 95-135 of [normalizeToolParameters], which depend on [asSchema]
      and on the run-time type of the schema: the object returned, [None]
      when they throw *)
  normalizeSchema : ToolSchema -> option (gmap string Json);
  (** [JSON.parse] on the arguments of a tool call; [None] when it throws *)
  JSON_parse_value : string -> option Json;
  (** [mapHeliconeFinishReason] on [null] and [undefined] *)
  finishReasonOfAbsent : FinishReason;
}.

Section Request.

Context {platform : Platform}.

(** An element of [options.tools]. *)
Record Tool := {
  t_name : option string;
  t_toolName : option string;
  t_description : option string;
  t_parameters : option ToolSchema;
  t_inputSchema : option ToolSchema;
}.

(** [LanguageModelV2CallOptions], the fields [buildRequestBody] reads. *)
Record CallOptions := {
  o_temperature : option QArith_base.Q;
  o_maxOutputTokens : option QArith_base.Q;
  o_topP : option QArith_base.Q;
  o_topK : option QArith_base.Q;
  o_frequencyPenalty : option QArith_base.Q;
  o_presencePenalty : option QArith_base.Q;
  o_stopSequences : option (list string);
  o_seed : option QArith_base.Q;
  o_prompt : option (list PromptMessage);
  o_toolChoice : option ToolChoice;
  o_tools : option (list Tool);
}.

(** ** [normalizeToolParameters] and the tools: lines 87-93 and 189-218 *)

Definition normalizeToolParameters (tool : Tool) : option (gmap string Json) :=
  let schemaSource :=
    match t_parameters tool with
    | Some schema => Some schema
    | None => t_inputSchema tool
    end in
  match schemaSource with
  | None => Some (<["properties" := jobject ∅]> (<["type" := jstring "object"]> ∅))
  | Some schema => normalizeSchema schema
  end.

(** What [buildRequestBody] throws: the conversion of a schema failed (line
    134), or line 205, with the tool name and the [type] its message is
    built from. *)
Inductive BuildError :=
| schemaNotConverted
| invalidSchema (toolName : option string) (type : option Json).

(** Lines 193-195. *)
Definition ensureType (parameters : gmap string Json) : gmap string Json :=
  match parameters !! "type" with
  | Some (jstring t) =>
      if decide (t = EmptyString) then <["type" := jstring "object"]> parameters
      else if decide (t = "None") then <["type" := jstring "object"]> parameters
      else parameters
  | _ => <["type" := jstring "object"]> parameters
  end.

(** Lines 198-200. *)
Definition ensureProperties (parameters : gmap string Json) : gmap string Json :=
  if negb (truthyJson (parameters !! "properties")) &&
     negb (truthyJson (parameters !! "additionalProperties"))
  then <["properties" := jobject ∅]> parameters
  else parameters.

(** [tool.name || tool.toolName] *)
Definition toolNameOf (tool : Tool) : option string :=
  match JS.truthy (t_name tool) with
  | Some n => Some n
  | None => t_toolName tool
  end.

(** [{ ...(value !== undefined && { key: value }) }]: a property whose value
    is [undefined] is not written by [JSON.stringify]. *)
Definition setIfPresent (key : string) (value : option Json) (object : gmap string Json)
  : gmap string Json :=
  match value with
  | Some v => <[key := v]> object
  | None => object
  end.

(** [type === 'object'] *)
Definition isObjectType (type : option Json) : bool :=
  match type with
  | Some (jstring t) => bool_decide (t = "object")
  | _ => false
  end.

(** Lines 190-217: the callback of [options.tools.map]. *)
Definition toolEntry (tool : Tool) : BuildError + Json :=
  match normalizeToolParameters tool with
  | None => inl schemaNotConverted
  | Some parameters0 =>
      let parameters := ensureProperties (ensureType parameters0) in
      let toolName := toolNameOf tool in
      if isObjectType (parameters !! "type")
      then inr (jobject
                  (<["function" :=
                       jobject
                         (setIfPresent "name" (jstring <$> toolName)
                            (<["description" :=
                                 jstring (default EmptyString (JS.truthy (t_description tool)))]>
                               (<["parameters" := jobject parameters]> ∅)))]>
                     (<["type" := jstring "function"]> ∅)))
      else inl (invalidSchema toolName (parameters !! "type"))
  end.

(** [tools.map(callback)], which stops at the first tool that throws. *)
Fixpoint toolEntries (tools : list Tool) : BuildError + list Json :=
  match tools with
  | [] => inr []
  | tool :: rest =>
      match toolEntry tool with
      | inl e => inl e
      | inr entry =>
          match toolEntries rest with
          | inl e => inl e
          | inr entries => inr (entry :: entries)
          end
      end
  end.

(** ** [buildRequestBody]: lines 139-222 *)

(** Line 140: [otherExtraBody], which holds none of the four properties
    taken out. *)
Definition otherExtraBody (this : HeliconeLanguageModel) : gmap string Json :=
  match extraBody this with
  | Some extra =>
      delete "helicone"
        (delete "prompt_id" (delete "inputs" (delete "environment" (eb_other extra))))
  | None => ∅
  end.

(** Lines 142-154: the object literal. *)
Definition bodyLiteral (this : HeliconeLanguageModel) (options : CallOptions)
  : gmap string Json :=
  let b0 : gmap string Json :=
    <["stream" := jbool false]> (<["model" := jstring (modelId this)]> ∅) in
  let b1 := setIfPresent "temperature" (jnumber <$> o_temperature options) b0 in
  let b2 := setIfPresent "max_tokens" (jnumber <$> o_maxOutputTokens options) b1 in
  let b3 := setIfPresent "top_p" (jnumber <$> o_topP options) b2 in
  let b4 := setIfPresent "top_k" (jnumber <$> o_topK options) b3 in
  let b5 := setIfPresent "frequency_penalty" (jnumber <$> o_frequencyPenalty options) b4 in
  let b6 := setIfPresent "presence_penalty" (jnumber <$> o_presencePenalty options) b5 in
  let b7 :=
    setIfPresent "stop" ((fun l => jarray (jstring <$> l)) <$> o_stopSequences options) b6 in
  let b8 := setIfPresent "seed" (jnumber <$> o_seed options) b7 in
  otherExtraBody this ∪ b8.

(** Lines 157-171. *)
Definition setPrompt (this : HeliconeLanguageModel) (options : CallOptions)
    (body : gmap string Json) : gmap string Json :=
  match JS.truthy (extraBody this ≫= eb_prompt_id) with
  | Some prompt_id =>
      let b1 := <["prompt_id" := jstring prompt_id]> body in
      let b2 :=
        match JS.truthy (extraBody this ≫= eb_environment) with
        | Some environment => <["environment" := jstring environment]> b1
        | None => b1
        end in
      if truthyJson (extraBody this ≫= eb_inputs)
      then setIfPresent "inputs" (extraBody this ≫= eb_inputs) b2
      else b2
  | None =>
      match o_prompt options with
      | Some (m :: prompt) => <["messages" := convertToHeliconePrompt (m :: prompt)]> body
      | _ => body
      end
  end.

(** Lines 173-186. *)
Definition setToolChoice (options : CallOptions) (body : gmap string Json)
  : gmap string Json :=
  match o_toolChoice options with
  | Some choice_auto => <["tool_choice" := jstring "auto"]> body
  | Some choice_required => <["tool_choice" := jstring "required"]> body
  | Some choice_none => <["tool_choice" := jstring "none"]> body
  | Some (choice_tool toolName) =>
      <["tool_choice" :=
          jobject (<["function" := jobject (<["name" := jstring toolName]> ∅)]>
                     (<["type" := jstring "function"]> ∅))]> body
  | None => body
  end.

(** Lines 188-219. *)
Definition setTools (options : CallOptions) (body : gmap string Json)
  : BuildError + gmap string Json :=
  match o_tools options with
  | Some (tool :: tools) =>
      match toolEntries (tool :: tools) with
      | inl e => inl e
      | inr entries => inr (<["tools" := jarray entries]> body)
      end
  | _ => inr body
  end.

Definition buildRequestBody (this : HeliconeLanguageModel) (options : CallOptions)
  : BuildError + gmap string Json :=
  setTools options (setToolChoice options (setPrompt this options (bodyLiteral this options))).

(** The keys lines 157-219 write, after the object literal. *)
Definition assignedKeys : list string :=
  ["prompt_id"; "environment"; "inputs"; "messages"; "tool_choice"; "tools"].

(** [value[key]] on a JSON value. *)
Definition field (key : string) (value : Json) : option Json :=
  match value with
  | jobject fields => fields !! key
  | _ => None
  end.

(** A schema whose [type] is a string other than the empty one, [None] and
    [object]. *)
Definition rejectedSchema (parameters : gmap string Json) : Prop :=
  exists t, parameters !! "type" = Some (jstring t)
            /\ t <> EmptyString /\ t <> "None" /\ t <> "object".

(** A tool whose schema is not converted, or is converted to a rejected
    one. *)
Definition refused (tool : Tool) : Prop :=
  match normalizeToolParameters tool with
  | Some parameters => rejectedSchema parameters
  | None => True
  end.

(** [entry.function.parameters] *)
Definition schemaOf (entry : Json) : option Json :=
  field "function" entry ≫= field "parameters".

(** The entry of the [tools] array for a tool: a function with the name of
    the tool and an object schema that has [properties] or
    [additionalProperties]. *)
Definition entryFor (tool : Tool) (entry : Json) : Prop :=
  field "type" entry = Some (jstring "function")
  /\ (field "function" entry ≫= field "name") = (jstring <$> toolNameOf tool)
  /\ (schemaOf entry ≫= field "type") = Some (jstring "object")
  /\ (truthyJson (schemaOf entry ≫= field "properties") = true
      \/ truthyJson (schemaOf entry ≫= field "additionalProperties") = true).

(** ** The request sent: lines 225-232 and 313-320 *)

(** The arguments of [fetch], with the body before [JSON.stringify]. *)
Record Request := {
  url : string;
  requestHeaders : gmap string string;
  requestBody : gmap string Json;
}.

Definition requestWith (this : HeliconeLanguageModel) (body : gmap string Json) : Request :=
  {| url := String.append (baseURL this) "/v1/chat/completions";
     requestHeaders := headers this;
     requestBody := body |}.

(** The request of [doGenerate]; the error is thrown before the [try]. *)
Definition generateRequest (this : HeliconeLanguageModel) (options : CallOptions)
  : BuildError + Request :=
  match buildRequestBody this options with
  | inl e => inl e
  | inr body => inr (requestWith this body)
  end.

(** The request of [doStream]: line 313 writes [stream: true] over the body. *)
Definition streamRequest (this : HeliconeLanguageModel) (options : CallOptions)
  : BuildError + Request :=
  match buildRequestBody this options with
  | inl e => inl e
  | inr body => inr (requestWith this (<["stream" := jbool true]> body))
  end.

End Request.

(** ** The response of [doGenerate]: lines 258-299 *)

(** [choice.message]; its tool calls have the shape of those of a delta. *)
Record Message := {
  m_content : option string;
  m_tool_calls : option (list ToolCallDelta);
}.

Record GenerateChoice := {
  gc_message : option Message;
  gc_finish_reason : option string;
}.

(** The value of [response.json()]. *)
Record GenerateData := {
  g_choices : option (list GenerateChoice);
  g_usage : option UsageData;
}.

(** An element of [content]. *)
Inductive ContentPart :=
| content_text (text : string)
| content_tool_call (toolCallId toolName : option string) (input : Json).

(** What [doGenerate] returns; [warnings] is always empty. *)
Record GenerateResult := {
  r_content : list ContentPart;
  r_finishReason : FinishReason;
  r_usage : Usage;
}.

(** Lines 293-297. *)
Definition generateUsage (u : option UsageData) : Usage :=
  let prompt := default 0 (u ≫= prompt_tokens) in
  let completion := default 0 (u ≫= completion_tokens) in
  {| inputTokens := prompt;
     outputTokens := completion;
     totalTokens := default (prompt + completion) (u ≫= total_tokens) |}.

(** *** A response read both ways

    The frame that carries the message of a response as the delta of a
    streamed one, and what the two readings are compared on. *)

Definition asDelta (message : Message) : Delta :=
  {| d_content := m_content message; d_tool_calls := m_tool_calls message |}.

Definition asFrame (data : GenerateData) : Frame :=
  {| f_usage := g_usage data;
     f_choices :=
       (fun choices : list GenerateChoice =>
          (fun choice => {| c_delta := asDelta <$> gc_message choice;
                            c_finish_reason := gc_finish_reason choice |}) <$> choices)
       <$> g_choices data |}.

(** The first choice of a response, and the tool calls of its message. *)
Definition firstChoice (data : GenerateData) : option GenerateChoice :=
  head (default [] (g_choices data)).

Definition messageCalls (data : GenerateData) : list ToolCallDelta :=
  default [] ((firstChoice data ≫= gc_message) ≫= m_tool_calls).

(** The [tool-call] parts of a stream: id, name and input text. *)
Definition toolCallsOf (out : list StreamPart) : list (string * string * string) :=
  omap (fun e => match e with tool_call c n a => Some (c, n, a) | _ => None end) out.

(** The texts and the tool calls of a content. *)
Definition textsOf (content : list ContentPart) : list string :=
  omap (fun part => match part with content_text text => Some text | _ => None end) content.

Definition callsOf (content : list ContentPart)
  : list (option string * option string * Json) :=
  omap (fun part => match part with
                    | content_tool_call c n input => Some (c, n, input)
                    | _ => None
                    end) content.

(** The object lines 499-532 leave for a call that one fragment mentions,
    and the entry of [toolCalls] for a fragment with a non-empty id. *)
Definition trackedOnce (c : string) (fn : option FunctionDelta) : TrackedCall :=
  {| tc_id := c;
     tc_name := default EmptyString (JS.truthy (fn ≫= fn_name));
     tc_arguments := default "{}" (JS.truthy (fn ≫= fn_arguments));
     tc_completed := false |}.

Definition entryOnce (toolCall : ToolCallDelta) : option (string * TrackedCall) :=
  (fun c => (c, trackedOnce c (tcd_function toolCall))) <$> JS.truthy (tcd_id toolCall).

(** Every tool call has a non-empty id of its own. *)
Definition identified (l : list ToolCallDelta) : Prop :=
  Forall (fun toolCall => is_Some (JS.truthy (tcd_id toolCall))) l
  /\ NoDup (tcd_id <$> l).

(** A response with a first choice that has a message whose tool calls all
    have a [function]. *)
Definition readable (data : GenerateData) : Prop :=
  exists choice message,
    head (default [] (g_choices data)) = Some choice
    /\ gc_message choice = Some message
    /\ Forall (fun toolCall => is_Some (tcd_function toolCall))
              (default [] (m_tool_calls message)).

Section Response.

Context {collaborators : Collaborators} {platform : Platform}.

(** Lines 274-280: a text [JSON.parse] rejects gives the empty object. *)
Definition parseInput (arguments : option string) : Json :=
  default (jobject ∅) (JSON_parse_value (default "{}" (JS.truthy arguments))).

(** Lines 273-287: one tool call of the message; [None] when
    [toolCall.function] is missing and line 284 throws. *)
Definition toolCallContent (toolCall : ToolCallDelta) : option ContentPart :=
  match tcd_function toolCall with
  | Some fn =>
      Some (content_tool_call (tcd_id toolCall) (fn_name fn) (parseInput (fn_arguments fn)))
  | None => None
  end.

(** [mapHeliconeFinishReason(choice.finish_reason)] *)
Definition finishReasonOf (reason : option string) : FinishReason :=
  match reason with
  | Some r => mapHeliconeFinishReason r
  | None => finishReasonOfAbsent
  end.

(** Lines 258-299: the result read from the response; [None] when a
    [TypeError] is thrown, which line 305 wraps. *)
Definition readResponse (data : GenerateData) : option GenerateResult :=
  choice ← head (default [] (g_choices data));
  message ← gc_message choice;
  calls ← mapM toolCallContent (default [] (m_tool_calls message));
  Some {| r_content :=
            match JS.truthy (m_content message) with
            | Some text => [content_text text]
            | None => []
            end ++ calls;
          r_finishReason := finishReasonOf (gc_finish_reason choice);
          r_usage := generateUsage (g_usage data) |}.

(** A streamed tool call and a tool call of a content that agree: the same
    id, the same name but for an absent name being streamed as the empty
    one, and as input what [JSON.parse] makes of the streamed text, the
    empty object when it throws. *)
Definition sameCall (streamed : string * string * string)
    (read : option string * option string * Json) : Prop :=
  read.1.1 = Some streamed.1.1
  /\ streamed.1.2 = default EmptyString (JS.truthy read.1.2)
  /\ read.2 = default (jobject ∅) (JSON_parse_value streamed.2).

End Response.

(** ** A decoder and a reason mapping for concrete runs *)

Module Sample.

(** JSON text is written with single quotes below; [json] turns them into
    the double quotes of the wire. *)
Definition quote (c : ascii) : ascii :=
  if Ascii.eqb c "'"%char then ascii_of_nat 34 else c.

Fixpoint json (s : string) : string :=
  match s with
  | EmptyString => EmptyString
  | String c rest => String (quote c) (json rest)
  end.

Definition fragment (i : Z) (id : option string) (n a : option string) : ToolCallDelta :=
  {| tcd_index := Some i; tcd_id := id;
     tcd_function := Some {| fn_name := n; fn_arguments := a |} |}.

Definition frame (content : option string) (calls : option (list ToolCallDelta))
    (reason : option string) : Frame :=
  {| f_usage := None;
     f_choices := Some [ {| c_delta := Some {| d_content := content; d_tool_calls := calls |};
                            c_finish_reason := reason |} ] |}.

Definition usageFrame (p c t : Z) : Frame :=
  {| f_usage := Some {| prompt_tokens := Some p; completion_tokens := Some c;
                        total_tokens := Some t |};
     f_choices := Some [] |}.

(** The payloads of the examples. *)
Definition hello : string :=
  json "{'choices':[{'delta':{'content':'Hello'},'finish_reason':null}]}".
Definition world : string :=
  json "{'choices':[{'delta':{'content':' world'},'finish_reason':null}]}".
Definition finishStop : string :=
  json "{'choices':[{'delta':{},'finish_reason':'stop'}]}".
Definition finishToolCalls : string :=
  json "{'choices':[{'delta':{},'finish_reason':'tool_calls'}]}".
Definition callOpens : string :=
  json "{'choices':[{'delta':{'tool_calls':[{'index':0,'id':'c1','function':{'name':'f','arguments':'{\'a\':'}}]}}]}".
Definition callGoesOn : string :=
  json "{'choices':[{'delta':{'tool_calls':[{'index':0,'function':{'arguments':'1}'}}]}}]}".
Definition callGoesOnAndFinishes : string :=
  json "{'choices':[{'delta':{'tool_calls':[{'index':0,'function':{'arguments':'1}'}}]},'finish_reason':'tool_calls'}]}".
Definition callWithoutName : string :=
  json "{'choices':[{'delta':{'tool_calls':[{'index':1,'id':'c2','function':{'arguments':'[1]'}}]}}]}".
Definition callWithEmptyArguments : string :=
  json "{'choices':[{'delta':{'tool_calls':[{'index':0,'id':'call_streaming_2','type':'function','function':{'name':'getCurrentTime','arguments':''}}]},'finish_reason':null}]}".
Definition nameComesLate : string :=
  json "{'choices':[{'delta':{'tool_calls':[{'index':1,'function':{'name':'g'}}]}}]}".
Definition callWithBraces : string :=
  json "{'choices':[{'delta':{'tool_calls':[{'index':0,'id':'c3','function':{'name':'h','arguments':'{}'}}]}}]}".
Definition callGoesOnWithSpace : string :=
  json "{'choices':[{'delta':{'tool_calls':[{'index':0,'function':{'arguments':' '}}]}}]}".
Definition usageOnly : string :=
  json "{'choices':[],'usage':{'prompt_tokens':10,'completion_tokens':5,'total_tokens':15}}".

(** Each payload with the frame [JSON.parse] returns for it. *)
Definition payloads : list (string * Frame) :=
  [ (hello, frame (Some "Hello") None None);
    (world, frame (Some " world") None None);
    (finishStop, frame None None (Some "stop"));
    (finishToolCalls, frame None None (Some "tool_calls"));
    (callOpens,
     frame None (Some [fragment 0 (Some "c1") (Some "f") (Some (json "{'a':"))]) None);
    (callGoesOn, frame None (Some [fragment 0 None None (Some "1}")]) None);
    (callGoesOnAndFinishes,
     frame None (Some [fragment 0 None None (Some "1}")]) (Some "tool_calls"));
    (callWithoutName, frame None (Some [fragment 1 (Some "c2") None (Some "[1]")]) None);
    (callWithEmptyArguments,
     frame None
       (Some [fragment 0 (Some "call_streaming_2") (Some "getCurrentTime")
                (Some EmptyString)])
       None);
    (nameComesLate, frame None (Some [fragment 1 None (Some "g") None]) None);
    (callWithBraces, frame None (Some [fragment 0 (Some "c3") (Some "h") (Some "{}")]) None);
    (callGoesOnWithSpace, frame None (Some [fragment 0 None None (Some " ")]) None);
    (usageOnly, usageFrame 10 5 15) ].

(** A decoder that knows the payloads above and throws on any other text. *)
Definition parse (data : string) : option Frame :=
  snd <$> List.find (fun p => String.eqb (fst p) data) payloads.

(** Modelled from the spec: the reason mapping of [./helicone-error] is not
    among the sources; section 8 fixes its value at [tool_calls], the
    default of the session at [stop]. *)
Definition reason (r : string) : FinishReason :=
  if decide (r = "stop") then stop
  else if decide (r = "tool_calls") then tool_calls
  else unknown.

Definition collaborators : Collaborators :=
  {| JSON_parse := parse; mapHeliconeFinishReason := reason |}.

(** One server-sent event: [data: <payload>\n\n]. *)
Definition sse (payload : string) : string :=
  String.append "data: " (String.append payload (String JS.LF (String JS.LF EmptyString))).

(** The scenario of section 8: the second frame carries the rest of the
    arguments together with the finish signal. *)
Definition finishWithDelta : list string :=
  [sse callOpens; sse callGoesOnAndFinishes; sse "[DONE]"].

(** The same call, the finish signal in a frame of its own, then usage. *)
Definition toolStream : list string :=
  [sse callOpens; sse callGoesOn; sse finishToolCalls; sse usageOnly; sse "[DONE]"].

(** The text stream of the tests, with a line that does not parse. *)
Definition textStream : list string :=
  [sse hello; sse "{invalid json}"; sse world].

(** A call whose fragments carry no name, and a stream that just ends. *)
Definition unnamedStream : list string := [sse callWithoutName].

(** Text that goes on after the finish signal. *)
Definition textAfterFinish : list string := [sse hello; sse finishStop; sse world].

(** A call whose name comes after its first arguments. *)
Definition lateNameStream : list string := [sse callWithoutName; sse nameComesLate].

(** A call whose arguments are the two braces and then a space. *)
Definition bracesStream : list string := [sse callWithBraces; sse callGoesOnWithSpace].

(** A call whose only fragment has empty arguments. *)
Definition emptyStream : list string :=
  [sse callWithEmptyArguments; sse finishToolCalls; sse "[DONE]"].

End Sample.

(** ** A decoder for a stream with two usage objects *)

Module SampleUsage.

(** A usage object without [total_tokens], in a frame without choices. *)
Definition lateUsage : string :=
  Sample.json "{'choices':[],'usage':{'prompt_tokens':7,'completion_tokens':2}}".

Definition lateUsageFrame : Frame :=
  {| f_usage := Some {| prompt_tokens := Some 7; completion_tokens := Some 2;
                        total_tokens := None |};
     f_choices := Some [] |}.

(** The decoder of [Sample], which knows that payload too. *)
Definition parse (data : string) : option Frame :=
  if String.eqb data lateUsage then Some lateUsageFrame else Sample.parse data.

Definition collaborators : Collaborators :=
  {| JSON_parse := parse; mapHeliconeFinishReason := Sample.reason |}.

(** Usage, then text, then another usage. *)
Definition twoUsages : list string :=
  [Sample.sse Sample.usageOnly; Sample.sse Sample.hello; Sample.sse lateUsage].

End SampleUsage.

(** ** A model, options and a response for concrete runs *)

Module SampleRequest.

(** A parser that knows two texts and throws on any other. *)
Definition parseValue (text : string) : option Json :=
  if decide (text = "{}") then Some (jobject ∅)
  else if decide (text = Sample.json "{'city':'Paris'}")
       then Some (jobject (<["city" := jstring "Paris"]> ∅))
       else None.

(** Prompt messages are texts, schemas are JSON Schema objects that are
    passed through, and the reason of an absent [finish_reason] is taken to
    be [unknown]. *)
Definition platform : Platform :=
  {| PromptMessage := string;
     convertToHeliconePrompt := fun prompt => jarray (jstring <$> prompt);
     ToolSchema := gmap string Json;
     normalizeSchema := Some;
     JSON_parse_value := parseValue;
     finishReasonOfAbsent := unknown |}.

#[local] Existing Instance platform.

Definition metadata : HeliconeMetadata :=
  {| h_sessionId := Some "tool-session-123";
     h_userId := Some "user-456";
     h_properties := Some [("example", "tool-calling"); ("Tag-demo", "no")];
     h_tags := Some ["tools"; "demo"];
     h_cache := Some true |}.

(** A model whose [extraBody] holds Helicone metadata, a stored prompt and a
    [stream] flag and a temperature of its own. *)
Definition model : HeliconeLanguageModel :=
  {| modelId := "gpt-4o-mini";
     settings :=
       {| s_baseURL := None;
          s_headers := Some (<["Authorization" := "Basic abc"]>
                               (<["Helicone-Session-Id" := "configured"]> ∅));
          s_apiKey := Some "test-key" |};
     extraBody :=
       Some {| eb_helicone := Some metadata;
               eb_prompt_id := Some "prompt-1";
               eb_inputs := None;
               eb_environment := Some "production";
               eb_other := <["stream" := jbool true]>
                             (<["temperature" := jnumber (QArith_base.Qmake 1 1)]> ∅) |} |}.

(** A tool whose schema is a JSON Schema of [type: string]. *)
Definition textTool : Tool :=
  {| t_name := None;
     t_toolName := Some "echo";
     t_description := None;
     t_parameters := None;
     t_inputSchema := Some (<["type" := jstring "string"]> ∅ : gmap string Json) |}.

Definition options : CallOptions :=
  {| o_temperature := Some (QArith_base.Qmake 7 10);
     o_maxOutputTokens := None;
     o_topP := None;
     o_topK := None;
     o_frequencyPenalty := None;
     o_presencePenalty := None;
     o_stopSequences := None;
     o_seed := None;
     o_prompt := Some ["Test"];
     o_toolChoice := Some choice_auto;
     o_tools := None |}.

(** The body [buildRequestBody] returns for them. *)
Definition body : gmap string Json :=
  match buildRequestBody model options with
  | inr b => b
  | inl _ => ∅
  end.

(** A response with a text and two tool calls, the second with arguments
    that are not JSON. *)
Definition response : GenerateData :=
  {| g_choices :=
       Some [ {| gc_message :=
                   Some {| m_content := Some "Checking";
                           m_tool_calls :=
                             Some [ Sample.fragment 0 (Some "call_1") (Some "getWeather")
                                      (Some (Sample.json "{'city':'Paris'}"));
                                    Sample.fragment 1 (Some "call_2") (Some "getTime")
                                      (Some "{oops") ] |};
                 gc_finish_reason := Some "tool_calls" |} ];
     g_usage := Some {| prompt_tokens := Some 50; completion_tokens := Some 20;
                        total_tokens := None |} |}.

(** The response whose message is the delta of [Sample.callWithEmptyArguments],
    and what [doGenerate] returns for it. *)
Definition timeResponse : GenerateData :=
  {| g_choices :=
       Some [ {| gc_message :=
                   Some {| m_content := None;
                           m_tool_calls :=
                             Some [ Sample.fragment 0 (Some "call_streaming_2")
                                      (Some "getCurrentTime") (Some EmptyString) ] |};
                 gc_finish_reason := None |} ];
     g_usage := None |}.

Definition timeResult : GenerateResult :=
  {| r_content :=
       [content_tool_call (Some "call_streaming_2") (Some "getCurrentTime") (jobject ∅)];
     r_finishReason := unknown;
     r_usage := zeroUsage |}.

End SampleRequest.

(** * Properties *)

(** ** Loops *)

Section ForEachFacts.

Context {A : Type} (body : Session -> A -> Session * list StreamPart).

Lemma forEach_app s l1 l2 :
  forEach body s (l1 ++ l2) =
    (fst (forEach body (fst (forEach body s l1)) l2),
     snd (forEach body s l1) ++ snd (forEach body (fst (forEach body s l1)) l2)).
Proof.
  revert s. induction l1 as [|x l1 IH]; intros s; simpl.
  - by destruct (forEach body s l2).
  - destruct (body s x) as [s1 out1]. rewrite IH.
    destruct (forEach body s1 l1) as [s2 out2]. simpl.
    by rewrite app_assoc.
Qed.

Lemma forEach_concat {B : Type} (f : B -> list A) s (l : list B) :
  forEach (fun s x => forEach body s (f x)) s l = forEach body s (List.concat (f <$> l)).
Proof.
  revert s. induction l as [|x l IH]; intros s; simpl; [done|].
  rewrite forEach_app.
  destruct (forEach body s (f x)) as [s1 out1]. simpl.
  rewrite IH. by destruct (forEach body s1 _).
Qed.

Lemma forEach_omap {B : Type} (g : B -> option A) s (l : list B) :
  forEach (fun s x => match g x with Some y => body s y | None => (s, []) end) s l
  = forEach body s (omap g l).
Proof.
  revert s. induction l as [|x l IH]; intros s; simpl; [done|].
  destruct (g x) as [y|]; simpl.
  - destruct (body s y) as [s1 out1]. by rewrite IH.
  - rewrite IH. unfold omap. by destruct (forEach body s _).
Qed.

Lemma forEach_ext (body' : Session -> A -> Session * list StreamPart) s l :
  (forall s x, body s x = body' s x) -> forEach body s l = forEach body' s l.
Proof.
  intros E. revert s. induction l as [|x l IH]; intros s; simpl; [done|].
  rewrite E. destruct (body' s x) as [s1 out1]. by rewrite IH.
Qed.

End ForEachFacts.

Lemma elem_of_concat {A : Type} (x : A) (ls : list (list A)) :
  x ∈ List.concat ls <-> exists l, x ∈ l /\ l ∈ ls.
Proof.
  induction ls as [|l ls IH]; simpl.
  - split; [intros H; by apply elem_of_nil in H | intros (l & _ & H); by apply elem_of_nil in H].
  - rewrite elem_of_app, IH. split.
    + intros [H|(l' & H & H')]; [exists l | exists l']; (split; [done|]);
        apply elem_of_cons; auto.
    + intros (l' & H & H'). apply elem_of_cons in H' as [->|H']; [by left|].
      right. by exists l'.
Qed.

(** ** Lists of parts *)

Section Parts.

Implicit Types (k : Kind) (c : string) (out : list StreamPart).

Lemma absent_nil k c : absent k c [].
Proof. intros e H. by apply elem_of_nil in H. Qed.

Lemma absent_app k c out1 out2 :
  absent k c (out1 ++ out2) <-> absent k c out1 /\ absent k c out2.
Proof.
  unfold absent. split.
  - intros H. split; intros e He; apply H, elem_of_app; auto.
  - intros [H1 H2] e He. apply elem_of_app in He as [He|He]; auto.
Qed.

Lemma absent_kind k c out : (forall e, e ∈ out -> kind e <> k) -> absent k c out.
Proof. intros H e He [Hk _]. by apply (H e He). Qed.

Lemma absent_id k c out : (forall e, e ∈ out -> partId e <> Some c) -> absent k c out.
Proof. intros H e He [_ Hc]. by apply (H e He). Qed.

Lemma occurrences_app k c out1 out2 :
  occurrences k c (out1 ++ out2) = (occurrences k c out1 + occurrences k c out2)%nat.
Proof. unfold occurrences. by rewrite filter_app, length_app. Qed.

Lemma absent_occurrences k c out : absent k c out -> occurrences k c out = O.
Proof.
  unfold occurrences. induction out as [|e out IH]; intros H; [done|].
  rewrite filter_cons. destruct (decide (isPart k c e)) as [He|He].
  - exfalso. apply (H e); [by apply elem_of_cons; left | done].
  - apply IH. intros e' He'. apply H. by apply elem_of_cons; right.
Qed.

Lemma occurrences_absent k c out : occurrences k c out = O -> absent k c out.
Proof.
  unfold occurrences. induction out as [|e out IH]; [intros _; apply absent_nil|].
  rewrite filter_cons. destruct (decide (isPart k c e)) as [He|He]; [done|].
  intros H e' He' Hp. apply elem_of_cons in He' as [->|He']; [done|].
  by apply (IH H e').
Qed.

Lemma precedes_absent_l k1 k2 c out : absent k1 c out -> precedes k1 k2 c out.
Proof.
  intros H i j a b Ha _ Hpa _. exfalso. apply (H a); [|done].
  by apply list_elem_of_lookup_2 in Ha.
Qed.

Lemma precedes_absent_r k1 k2 c out : absent k2 c out -> precedes k1 k2 c out.
Proof.
  intros H i j a b _ Hb _ Hpb. exfalso. apply (H b); [|done].
  by apply list_elem_of_lookup_2 in Hb.
Qed.

(** Two outputs in a row: the order holds in each, and no part of the
    first kind follows a part of the second kind across the seam. *)
Lemma precedes_app k1 k2 c out1 out2 :
  precedes k1 k2 c out1 -> precedes k1 k2 c out2 ->
  ((exists b, b ∈ out1 /\ isPart k2 c b) -> absent k1 c out2) ->
  precedes k1 k2 c (out1 ++ out2).
Proof.
  intros H1 H2 H12 i j a b Ha Hb Hpa Hpb.
  apply lookup_app_Some in Ha as [Ha|[Hi Ha]];
    apply lookup_app_Some in Hb as [Hb|[Hj Hb]].
  - by apply (H1 i j a b).
  - apply lookup_lt_Some in Ha. lia.
  - exfalso. apply (H12 (ex_intro _ b (conj (list_elem_of_lookup_2 _ _ _ Hb) Hpb)) a);
      [|done].
    by apply list_elem_of_lookup_2 in Ha.
  - pose proof (H2 _ _ a b Ha Hb Hpa Hpb). lia.
Qed.

Lemma precedes_pair k1 k2 c (a b : StreamPart) :
  ~ isPart k2 c a \/ ~ isPart k1 c a -> ~ isPart k1 c b -> precedes k1 k2 c [a; b].
Proof.
  intros Ha Hb i j x y Hx Hy Hpx Hpy.
  destruct i as [|[|i]], j as [|[|j]]; simpl in *; simplify_eq; try lia; tauto.
Qed.

Lemma occurrences_pos k c out :
  occurrences k c out <> O -> exists e, e ∈ out /\ isPart k c e.
Proof.
  unfold occurrences. induction out as [|e out IH]; [done|].
  rewrite filter_cons. destruct (decide (isPart k c e)) as [He|He].
  - intros _. exists e. split; [by apply elem_of_cons; left | done].
  - intros H. destruct (IH H) as (e' & He' & Hp). exists e'.
    split; [by apply elem_of_cons; right | done].
Qed.

Lemma occurrences_two k c (a b : StreamPart) :
  kind a <> kind b -> (occurrences k c [a; b] <= 1)%nat.
Proof.
  intros H. unfold occurrences. rewrite !filter_cons, filter_nil.
  destruct (decide (isPart k c a)) as [[Ha _]|_], (decide (isPart k c b)) as [[Hb _]|_];
    simpl; try lia.
  congruence.
Qed.

(** A part that occurs at most once is the one that occurs. *)
Lemma occurrences_unique k c pre e0 post e :
  (occurrences k c (pre ++ e0 :: post) <= 1)%nat ->
  isPart k c e0 -> e ∈ pre ++ e0 :: post -> isPart k c e -> e = e0.
Proof.
  intros H H0 He Hp. rewrite occurrences_app in H.
  change (e0 :: post) with ([e0] ++ post) in H. rewrite occurrences_app in H.
  assert (occurrences k c [e0] = 1%nat) as E1.
  { unfold occurrences. rewrite filter_cons. by rewrite decide_True. }
  apply elem_of_app in He as [He|He].
  - exfalso. apply (occurrences_absent k c pre ltac:(lia) e He Hp).
  - apply elem_of_cons in He as [->|He]; [done|].
    exfalso. apply (occurrences_absent k c post ltac:(lia) e He Hp).
Qed.

End Parts.

(** ** Strings *)

Lemma append_nil_r s : String.append s EmptyString = s.
Proof.
  induction s as [|a s IH]; [reflexivity|].
  change (String a (String.append s EmptyString) = String a s). by rewrite IH.
Qed.

Lemma append_assoc s1 s2 s3 :
  String.append (String.append s1 s2) s3 = String.append s1 (String.append s2 s3).
Proof.
  induction s1 as [|a s1 IH]; [reflexivity|].
  change (String a (String.append (String.append s1 s2) s3)
          = String a (String.append s1 (String.append s2 s3))).
  by rewrite IH.
Qed.

Lemma concatenation_app l1 l2 :
  concatenation (l1 ++ l2) = String.append (concatenation l1) (concatenation l2).
Proof.
  induction l1 as [|x l1 IH]; [reflexivity|].
  simpl. unfold concatenation in *. simpl. by rewrite IH, append_assoc.
Qed.

(** As long as the text written so far is not the two characters of the
    sentinel, lines 521-525 concatenate. *)
Lemma accumulated_concatenation_from done texts :
  (forall pre post, done ++ texts = pre ++ post -> pre <> [] -> post <> [] ->
                    concatenation pre <> "{}") ->
  done <> [] ->
  accumulated (concatenation done) texts = concatenation (done ++ texts).
Proof.
  revert done. induction texts as [|t texts IH]; intros done H Hne.
  - by rewrite app_nil_r.
  - unfold accumulated. simpl. unfold accumulate at 2.
    rewrite decide_False by (by apply (H done (t :: texts))).
    replace (String.append (concatenation done) t) with (concatenation (done ++ [t])).
    + change (accumulated (concatenation (done ++ [t])) texts
              = concatenation (done ++ t :: texts)).
      rewrite IH.
      * by rewrite <- app_assoc.
      * intros pre post E. rewrite <- app_assoc in E. by apply H.
      * by destruct done.
    + rewrite concatenation_app. unfold concatenation at 2. simpl.
      by rewrite append_nil_r.
Qed.

Lemma accumulated_concatenation texts :
  (forall pre post, texts = pre ++ post -> pre <> [] -> post <> [] ->
                    concatenation pre <> "{}") ->
  texts <> [] ->
  accumulated "{}" texts = concatenation texts.
Proof.
  destruct texts as [|t texts]; [done|]. intros H _.
  unfold accumulated. simpl. unfold accumulate at 2. rewrite decide_True by done.
  replace t with (concatenation [t]) at 1
    by (unfold concatenation; simpl; apply append_nil_r).
  apply (accumulated_concatenation_from [t] texts); [|done].
  intros pre post E. by apply H.
Qed.


(** ** The [toolCalls] map *)

Section CallMap.

Implicit Types (calls : list (string * TrackedCall)) (c k : string) (tc : TrackedCall).

Lemma getCall_None c calls : getCall c calls = None <-> c ∉ calls.*1.
Proof.
  induction calls as [|[k tc] calls IH]; simpl.
  - split; [intros _; apply not_elem_of_nil | done].
  - rewrite not_elem_of_cons. destruct (decide (k = c)) as [->|Hne].
    + split; [done | intros [? _]; done].
    + rewrite IH. split; [intros ?; split; [congruence | done] | intros [_ ?]; done].
Qed.

Lemma getCall_Some_elem c tc calls : getCall c calls = Some tc -> (c, tc) ∈ calls.
Proof.
  induction calls as [|[k tc'] calls IH]; simpl; [done|].
  destruct (decide (k = c)) as [->|Hne].
  - intros [= ->]. apply elem_of_cons. by left.
  - intros H. apply elem_of_cons. right. by apply IH.
Qed.

Lemma elem_getCall c tc calls :
  NoDup calls.*1 -> (c, tc) ∈ calls -> getCall c calls = Some tc.
Proof.
  induction calls as [|[k tc'] calls IH]; simpl.
  - intros _ H. by apply elem_of_nil in H.
  - rewrite NoDup_cons. intros [Hk Hnd] H. apply elem_of_cons in H as [[= -> ->]|H].
    + by rewrite decide_True.
    + destruct (decide (k = c)) as [->|Hne]; [|by apply IH].
      exfalso. apply Hk. apply list_elem_of_fmap. by exists (c, tc).
Qed.

Lemma getCall_app c calls calls' :
  getCall c (calls ++ calls') =
    match getCall c calls with Some tc => Some tc | None => getCall c calls' end.
Proof.
  induction calls as [|[k tc] calls IH]; simpl; [done|].
  by destruct (decide (k = c)).
Qed.

Lemma putCall_keys c tc calls : (putCall c tc calls).*1 = calls.*1.
Proof.
  induction calls as [|[k tc'] calls IH]; simpl; [done|].
  destruct (decide (k = c)); csimpl; [done | by rewrite IH].
Qed.

Lemma getCall_putCall c c' tc calls :
  getCall c (putCall c' tc calls) =
    if decide (c' = c) then (fun _ => tc) <$> getCall c calls else getCall c calls.
Proof.
  induction calls as [|[k tc'] calls IH]; simpl.
  - by destruct (decide (c' = c)).
  - destruct (decide (k = c')) as [->|Hne]; simpl.
    + destruct (decide (c' = c)) as [->|Hne']; [done|]. reflexivity.
    + rewrite IH. destruct (decide (c' = c)) as [->|Hne'].
      * rewrite !decide_False by done. done.
      * done.
Qed.

Lemma putCall_forall (P : string * TrackedCall -> Prop) c tc calls :
  Forall P calls -> (forall k, P (k, tc)) -> Forall P (putCall c tc calls).
Proof.
  intros H Htc. induction H as [|[k tc'] calls Hx H IH]; simpl; [done|].
  destruct (decide (k = c)); constructor; auto.
Qed.

Lemma getOrCreate_snd c calls : snd (getOrCreate c calls) = currentCall c calls.
Proof. unfold getOrCreate, currentCall. by destruct (getCall c calls). Qed.

Lemma getOrCreate_get c c' calls :
  getCall c' (fst (getOrCreate c calls)) =
    if decide (c = c') then Some (currentCall c calls) else getCall c' calls.
Proof.
  unfold getOrCreate, currentCall. destruct (getCall c calls) as [tc|] eqn:E; simpl.
  - destruct (decide (c = c')) as [<-|]; done.
  - rewrite getCall_app. simpl. destruct (decide (c = c')) as [<-|].
    + by rewrite E.
    + by destruct (getCall c' calls).
Qed.

Lemma getOrCreate_keys c calls :
  (fst (getOrCreate c calls)).*1 =
    if decide (c ∈ calls.*1) then calls.*1 else calls.*1 ++ [c].
Proof.
  unfold getOrCreate. destruct (getCall c calls) as [tc|] eqn:E; simpl.
  - rewrite decide_True; [done|]. destruct (decide (c ∈ calls.*1)); [done|].
    apply getCall_None in n. congruence.
  - apply getCall_None in E. rewrite decide_False by done.
    by rewrite fmap_app.
Qed.

(** The flush of the map, entry by entry. *)
Lemma completeToolCalls_fst calls :
  fst (completeToolCalls calls) = (fun p => (p.1, with_completed p.2)) <$> calls.
Proof.
  induction calls as [|[k tc] calls IH]; simpl; [done|].
  destruct (completeToolCalls calls). simpl in *. by rewrite IH.
Qed.

Lemma completeToolCalls_snd calls :
  snd (completeToolCalls calls) = List.concat ((fun p => completionEvents p.2) <$> calls).
Proof.
  induction calls as [|[k tc] calls IH]; simpl; [done|].
  destruct (completeToolCalls calls). simpl in *. by rewrite IH.
Qed.

Lemma completeToolCalls_get c calls :
  getCall c (fst (completeToolCalls calls)) = with_completed <$> getCall c calls.
Proof.
  rewrite completeToolCalls_fst.
  induction calls as [|[k tc] calls IH]; simpl; [done|].
  by destruct (decide (k = c)).
Qed.

Lemma completeToolCalls_keys calls : (fst (completeToolCalls calls)).*1 = calls.*1.
Proof.
  rewrite completeToolCalls_fst. rewrite <- list_fmap_compose.
  by apply list_fmap_ext.
Qed.

End CallMap.

Section Properties.

Context {collaborators : Collaborators}.

(** ** The loop over lines is the loop over items *)

Lemma run_cons s it rest :
  run s (it :: rest) =
    (fst (run (fst (step s it)) rest), snd (step s it) ++ snd (run (fst (step s it)) rest)).
Proof.
  unfold run. simpl. destruct (step s it) as [s1 out1]. simpl.
  destruct (forEach step s1 rest). reflexivity.
Qed.

Lemma handleToolCalls_run s l :
  handleToolCalls s l = run s (fragmentItem <$> l).
Proof.
  unfold handleToolCalls, run. revert s.
  induction l as [|x l IH]; intros s; simpl; [done|].
  destruct (handleToolCall s x) as [s1 out1]. by rewrite IH.
Qed.

Lemma processFrame_run s f : processFrame s f = run s (frameItems f).
Proof.
  unfold processFrame, frameItems, run.
  destruct (f_usage f) as [u|]; simpl.
  all: destruct (head (default [] (f_choices f))) as [choice|]; simpl; [|done].
  all: unfold choiceItems.
  all: destruct (JS.truthy (c_finish_reason choice)) as [r|]; simpl.
  all: try destruct (flush _) as [s2 out2].
  all: destruct (c_delta choice) as [d|]; simpl; rewrite ?app_nil_r; try done.
  all: unfold deltaItems, handleContent.
  all: destruct (JS.truthy (d_content d)) as [text|]; simpl.
  all: try destruct (emitText _ text) as [s3 out3].
  all: destruct (d_tool_calls d) as [l|]; simpl; rewrite ?app_nil_r; try done.
  all: rewrite handleToolCalls_run; unfold run.
  all: by destruct (forEach step _ _).
Qed.

Lemma processChunk_frames s chunk :
  processChunk s chunk = forEach processFrame s (chunkFrames chunk).
Proof.
  unfold processChunk, chunkFrames. rewrite <- forEach_omap.
  apply forEach_ext. intros s' line. reflexivity.
Qed.

Lemma processChunks_frames s chunks :
  processChunks s chunks = forEach processFrame s (streamFrames chunks).
Proof.
  unfold processChunks, streamFrames. rewrite <- forEach_concat.
  apply forEach_ext. apply processChunk_frames.
Qed.

Lemma processChunks_run s chunks :
  processChunks s chunks = run s (streamItems chunks).
Proof.
  rewrite processChunks_frames. unfold run, streamItems.
  rewrite <- forEach_concat. apply forEach_ext. apply processFrame_run.
Qed.

Lemma outputFrom_nil s : outputFrom s [] = snd (finalize s).
Proof. reflexivity. Qed.

Lemma outputFrom_cons s it rest :
  outputFrom s (it :: rest) = snd (step s it) ++ outputFrom (fst (step s it)) rest.
Proof.
  unfold outputFrom. rewrite run_cons.
  destruct (step s it) as [s1 out1]. simpl.
  destruct (run s1 rest) as [s2 out2]. simpl.
  by rewrite app_assoc.
Qed.

Lemma doStream_done chunks :
  doStream chunks source_done = (outputFrom initialSession (streamItems chunks), closed).
Proof.
  unfold doStream, outputFrom. rewrite processChunks_run.
  by destruct (run initialSession (streamItems chunks)).
Qed.

(** ** One fragment *)

Lemma applyFragment_id c fn tc : tc_id (fst (applyFragment c fn tc)) = tc_id tc.
Proof.
  destruct tc as [? [|] ? ?]; unfold applyFragment, applyName, applyArguments; simpl;
    destruct (JS.truthy (fn ≫= fn_name)); destruct (JS.truthy (fn ≫= fn_arguments));
    reflexivity.
Qed.

Lemma applyFragment_completed c fn tc :
  tc_completed (fst (applyFragment c fn tc)) = tc_completed tc.
Proof.
  destruct tc as [? [|] ? ?]; unfold applyFragment, applyName, applyArguments; simpl;
    destruct (JS.truthy (fn ≫= fn_name)); destruct (JS.truthy (fn ≫= fn_arguments));
    reflexivity.
Qed.

Lemma applyFragment_name c fn tc :
  tc_name (fst (applyFragment c fn tc)) =
    match JS.truthy (fn ≫= fn_name), tc_name tc with
    | Some n, EmptyString => n
    | _, _ => tc_name tc
    end.
Proof.
  destruct tc as [? [|] ? ?]; unfold applyFragment, applyName, applyArguments; simpl;
    destruct (JS.truthy (fn ≫= fn_name)); destruct (JS.truthy (fn ≫= fn_arguments));
    reflexivity.
Qed.

Lemma applyFragment_arguments c fn tc :
  tc_arguments (fst (applyFragment c fn tc)) =
    match JS.truthy (fn ≫= fn_arguments) with
    | Some a => accumulate (tc_arguments tc) a
    | None => tc_arguments tc
    end.
Proof.
  destruct tc as [? [|] ? ?]; unfold applyFragment, applyName, applyArguments; simpl;
    destruct (JS.truthy (fn ≫= fn_name)); destruct (JS.truthy (fn ≫= fn_arguments));
    reflexivity.
Qed.

Lemma applyFragment_events c fn tc :
  snd (applyFragment c fn tc) =
    match JS.truthy (fn ≫= fn_name), tc_name tc with
    | Some n, EmptyString => [tool_input_start c n]
    | _, _ => []
    end ++
    match JS.truthy (fn ≫= fn_arguments) with
    | Some a => [tool_input_delta c a]
    | None => []
    end.
Proof.
  destruct tc as [? [|] ? ?]; unfold applyFragment, applyName, applyArguments; simpl;
    destruct (JS.truthy (fn ≫= fn_name)); destruct (JS.truthy (fn ≫= fn_arguments));
    reflexivity.
Qed.

Lemma truthy_nonempty o x : JS.truthy o = Some x -> o = Some x /\ x <> EmptyString.
Proof. destruct o as [[|a r]|]; simpl; intros [= <-]; done. Qed.

Lemma trackFragment_events c s toolCall :
  snd (trackFragment c s toolCall) =
    snd (applyFragment c (tcd_function toolCall) (currentCall c (toolCalls s))).
Proof.
  unfold trackFragment. pose proof (getOrCreate_snd c (toolCalls s)) as E.
  destruct (getOrCreate _ _) as [calls tc]. simpl in E. subst tc.
  by destruct (applyFragment _ _ _).
Qed.

Lemma trackFragment_get c s toolCall c' :
  getCall c' (toolCalls (fst (trackFragment c s toolCall))) =
    if decide (c = c')
    then Some (fst (applyFragment c (tcd_function toolCall) (currentCall c (toolCalls s))))
    else getCall c' (toolCalls s).
Proof.
  unfold trackFragment. pose proof (getOrCreate_snd c (toolCalls s)) as E.
  pose proof (getOrCreate_get c c' (toolCalls s)) as G.
  destruct (getOrCreate _ _) as [calls tc]. simpl in E, G. subst tc.
  destruct (applyFragment _ _ _) as [tc' out]. simpl.
  rewrite getCall_putCall, G. by destruct (decide (c = c')).
Qed.

Lemma trackFragment_keys c s toolCall :
  (toolCalls (fst (trackFragment c s toolCall))).*1 =
    if decide (c ∈ (toolCalls s).*1) then (toolCalls s).*1 else (toolCalls s).*1 ++ [c].
Proof.
  unfold trackFragment. pose proof (getOrCreate_keys c (toolCalls s)) as K.
  destruct (getOrCreate _ _) as [calls tc]. simpl in K.
  destruct (applyFragment _ _ _) as [tc' out]. simpl.
  by rewrite putCall_keys.
Qed.

(** ** The flush *)

Lemma flush_fields s :
  toolCalls (fst (flush s)) = fst (completeToolCalls (toolCalls s)) /\
  indexToId (fst (flush s)) = indexToId s /\
  textStarted (fst (flush s)) = textStarted s /\
  textEnded (fst (flush s)) = fst (completeText (textStarted s) (textEnded s)).
Proof.
  unfold flush. destruct (completeToolCalls _) as [calls out1].
  by destruct (completeText _ _) as [ended out2].
Qed.

Lemma flush_events s :
  snd (flush s) =
    snd (completeToolCalls (toolCalls s)) ++ snd (completeText (textStarted s) (textEnded s)).
Proof.
  unfold flush. destruct (completeToolCalls _) as [calls out1].
  by destruct (completeText _ _) as [ended out2].
Qed.

Lemma flush_get c s :
  getCall c (toolCalls (fst (flush s))) = with_completed <$> getCall c (toolCalls s).
Proof.
  destruct (flush_fields s) as (-> & _). apply completeToolCalls_get.
Qed.

Lemma completeText_sub started ended x :
  x ∈ ended \/ x ∈ started -> x ∈ fst (completeText started ended).
Proof.
  revert ended. induction started as [|id rest IH]; intros ended; simpl.
  - intros [H|H]; [done | by apply elem_of_nil in H].
  - destruct (JS.has id ended) eqn:E.
    + apply bool_decide_eq_true in E. intros [H|H]; [by apply IH; left|].
      apply elem_of_cons in H as [->|H]; apply IH; [by left | by right].
    + unfold JS.add. rewrite E.
      destruct (completeText rest (ended ++ [id])) as [ended' out] eqn:E'.
      simpl. intros H.
      assert (x ∈ ended ++ [id] \/ x ∈ rest) as H'.
      { rewrite elem_of_app, list_elem_of_singleton.
        destruct H as [H|H]; [by left; left|].
        apply elem_of_cons in H as [->|H]; [by left; right | by right]. }
      apply IH in H'. by rewrite E' in H'.
Qed.

Lemma completeText_done started ended :
  (forall x, x ∈ started -> x ∈ ended) -> completeText started ended = (ended, []).
Proof.
  induction started as [|id rest IH]; intros H; simpl; [done|].
  unfold JS.has. rewrite bool_decide_eq_true_2.
  - apply IH. intros x Hx. apply H. by apply elem_of_cons; right.
  - apply H. by apply elem_of_cons; left.
Qed.

Lemma completeToolCalls_again calls :
  completeToolCalls (fst (completeToolCalls calls)) = (fst (completeToolCalls calls), []).
Proof.
  induction calls as [|[k tc] calls IH]; simpl; [done|].
  destruct (completeToolCalls calls) as [calls' out]. simpl in *.
  by rewrite IH.
Qed.

(** A second flush changes nothing and enqueues nothing. *)
Lemma flush_again s : flush (fst (flush s)) = (fst (flush s), []).
Proof.
  unfold flush.
  destruct (completeToolCalls (toolCalls s)) as [calls1 out1] eqn:E1.
  destruct (completeText (textStarted s) (textEnded s)) as [ended1 out2] eqn:E2.
  simpl.
  pose proof (completeToolCalls_again (toolCalls s)) as A.
  rewrite E1 in A. simpl in A. rewrite A.
  rewrite (completeText_done (textStarted s) ended1).
  - by destruct s.
  - intros x Hx. pose proof (completeText_sub (textStarted s) (textEnded s) x) as S.
    rewrite E2 in S. apply S. by right.
Qed.

(** ** What a step leaves alone *)

Lemma emitText_frame s text :
  usage (fst (emitText s text)) = usage s /\
  actualFinishReason (fst (emitText s text)) = actualFinishReason s /\
  toolCalls (fst (emitText s text)) = toolCalls s /\
  indexToId (fst (emitText s text)) = indexToId s /\
  textEnded (fst (emitText s text)) = textEnded s.
Proof. unfold emitText. by destruct (JS.has _ _). Qed.

Lemma trackFragment_frame toolId s toolCall :
  usage (fst (trackFragment toolId s toolCall)) = usage s /\
  actualFinishReason (fst (trackFragment toolId s toolCall)) = actualFinishReason s /\
  indexToId (fst (trackFragment toolId s toolCall)) = indexToId s /\
  textStarted (fst (trackFragment toolId s toolCall)) = textStarted s /\
  textEnded (fst (trackFragment toolId s toolCall)) = textEnded s.
Proof.
  unfold trackFragment. destruct (getOrCreate _ _) as [calls tc].
  by destruct (applyFragment _ _ _) as [tc' out].
Qed.

Lemma handleToolCall_frame s toolCall :
  usage (fst (handleToolCall s toolCall)) = usage s /\
  actualFinishReason (fst (handleToolCall s toolCall)) = actualFinishReason s /\
  textStarted (fst (handleToolCall s toolCall)) = textStarted s /\
  textEnded (fst (handleToolCall s toolCall)) = textEnded s.
Proof.
  unfold handleToolCall. destruct (resolveToolId _ _) as [[toolId m]|]; [|done].
  pose proof (trackFragment_frame toolId (set_indexToId m s) toolCall) as (?&?&?&?&?).
  done.
Qed.

(** ** The invariant of the session *)

Lemma wellFormed_initial : wellFormed initialSession.
Proof.
  split; simpl; try done; [constructor | by left | by left].
Qed.

Lemma completeText_wellFormed s :
  wellFormed s ->
  completeText (textStarted s) (textEnded s) =
    match textStarted s, textEnded s with
    | [_], [] => (["text-0"], [text_end "text-0"])
    | _, _ => (textEnded s, [])
    end.
Proof.
  intros [_ _ _ Hs He].
  destruct Hs as [R|R], He as [R'|[R' R'']]; rewrite ?R, ?R' in *;
    try discriminate; reflexivity.
Qed.

Lemma wellFormed_flush s : wellFormed s -> wellFormed (fst (flush s)).
Proof.
  intros W. pose proof (completeText_wellFormed s W) as T.
  destruct (flush_fields s) as (Hc & Hi & Hs & He).
  destruct W as [Wk Wn Wi Ws We]. split.
  - intros c tc. rewrite flush_get.
    destruct (getCall c (toolCalls s)) as [tc0|] eqn:E; simpl; [|done].
    intros [= <-]. simpl. by apply Wk.
  - rewrite Hc, completeToolCalls_keys. done.
  - intros i c. rewrite Hi, flush_get. intros H. apply Wi in H as [tc ->]. by eexists.
  - by rewrite Hs.
  - rewrite He, Hs, T.
    destruct Ws as [R|R], We as [R'|[R' R'']]; rewrite ?R, ?R' in *; simpl;
      try discriminate; auto.
Qed.

Lemma wellFormed_emitText s text : wellFormed s -> wellFormed (fst (emitText s text)).
Proof.
  intros [Wk Wn Wi Ws We]. unfold emitText.
  destruct (JS.has "text-0" (textStarted s)) eqn:E; [by split|].
  split; simpl; try done.
  - destruct Ws as [R|R]; rewrite R in *; [by right | done].
  - destruct Ws as [R|R]; rewrite R in *; [|done].
    destruct We as [?|[_ [=]]]. by left.
Qed.

Lemma resolveToolId_map m toolCall c m' i c' :
  resolveToolId m toolCall = Some (c, m') -> m' !! i = Some c' -> c' = c \/ m !! i = Some c'.
Proof.
  unfold resolveToolId. destruct (JS.truthy (tcd_id toolCall)) as [toolId|].
  - intros [= <- <-]. destruct (tcd_index toolCall) as [j|]; [|by right].
    rewrite lookup_insert. case_decide; [intros [= <-]; by left | by right].
  - destruct (tcd_index toolCall) as [j|]; [|done].
    destruct (m !! j); [|done]. intros [= <- <-]. by right.
Qed.

Lemma wellFormed_handleToolCall s toolCall :
  wellFormed s -> wellFormed (fst (handleToolCall s toolCall)).
Proof.
  intros W. unfold handleToolCall.
  destruct (resolveToolId _ _) as [[c m]|] eqn:R; [|done].
  pose proof (trackFragment_frame c (set_indexToId m s) toolCall) as (_ & _ & Hi & Hs & He).
  pose proof (trackFragment_keys c (set_indexToId m s) toolCall) as K.
  pose proof (trackFragment_get c (set_indexToId m s) toolCall) as G.
  simpl in *. destruct W as [Wk Wn Wi Ws We]. split.
  - intros c' tc. rewrite G. destruct (decide (c = c')) as [<-|]; [|by apply Wk].
    intros [= <-]. rewrite applyFragment_id.
    unfold currentCall. destruct (getCall c (toolCalls s)) eqn:E; simpl; [by apply Wk | done].
  - rewrite K. destruct (decide (c ∈ (toolCalls s).*1)) as [|D]; [done|].
    apply NoDup_app. split; [done|]. split; [|apply NoDup_singleton].
    intros x Hx Hx'. apply list_elem_of_singleton in Hx'. by subst.
  - intros i c' H. rewrite Hi in H. rewrite G. destruct (decide (c = c')); [by eexists|].
    destruct (resolveToolId_map _ _ _ _ _ _ R H) as [->|H']; [done | by apply Wi in H'].
  - by rewrite Hs.
  - by rewrite He, Hs.
Qed.

Lemma wellFormed_step s it : wellFormed s -> wellFormed (fst (step s it)).
Proof.
  intros W. destruct it as [u|r|text|toolCall]; simpl.
  - by destruct W.
  - apply wellFormed_flush. by destruct W.
  - by apply wellFormed_emitText.
  - by apply wellFormed_handleToolCall.
Qed.

Lemma wellFormed_run s items : wellFormed s -> wellFormed (fst (run s items)).
Proof.
  revert s. induction items as [|it rest IH]; intros s W; [done|].
  rewrite run_cons. simpl. apply IH. by apply wellFormed_step.
Qed.

(** ** Usage and finish reason *)

Lemma flush_usage s : usage (fst (flush s)) = usage s.
Proof.
  unfold flush. destruct (completeToolCalls _) as [calls out1].
  by destruct (completeText _ _) as [ended out2].
Qed.

Lemma flush_reason s : actualFinishReason (fst (flush s)) = actualFinishReason s.
Proof.
  unfold flush. destruct (completeToolCalls _) as [calls out1].
  by destruct (completeText _ _) as [ended out2].
Qed.

Lemma step_usage s it :
  usage (fst (step s it)) = usageAfter (usage s) [it].
Proof.
  destruct it as [u|r|text|toolCall]; simpl; [done|..].
  - by rewrite flush_usage.
  - apply emitText_frame.
  - apply handleToolCall_frame.
Qed.

Lemma step_reason s it :
  actualFinishReason (fst (step s it)) = reasonAfter (actualFinishReason s) [it].
Proof.
  destruct it as [u|r|text|toolCall]; simpl; [done|..].
  - by rewrite flush_reason.
  - apply emitText_frame.
  - apply handleToolCall_frame.
Qed.

Lemma run_usage s items : usage (fst (run s items)) = usageAfter (usage s) items.
Proof.
  revert s. induction items as [|it rest IH]; intros s; [done|].
  rewrite run_cons. simpl. by rewrite IH, step_usage.
Qed.

Lemma run_reason s items :
  actualFinishReason (fst (run s items)) = reasonAfter (actualFinishReason s) items.
Proof.
  revert s. induction items as [|it rest IH]; intros s; [done|].
  rewrite run_cons. simpl. by rewrite IH, step_reason.
Qed.

Lemma finalize_snd s :
  snd (finalize s) = snd (flush s) ++ [finish (usage s) (actualFinishReason s)].
Proof.
  unfold finalize. pose proof (flush_usage s). pose proof (flush_reason s).
  destruct (flush s) as [s1 out1]. simpl in *. congruence.
Qed.

(** The whole output: what the items enqueue, the final flush, [finish]. *)
Lemma outputFrom_split s items :
  outputFrom s items =
    (snd (run s items) ++ snd (flush (fst (run s items))))
    ++ [finish (usageAfter (usage s) items) (reasonAfter (actualFinishReason s) items)].
Proof.
  unfold outputFrom. rewrite <- run_usage, <- run_reason.
  destruct (run s items) as [s1 out1]. simpl.
  by rewrite finalize_snd, app_assoc.
Qed.

(** ** What a step enqueues *)

Lemma emitText_events s text :
  snd (emitText s text) =
    (if JS.has "text-0" (textStarted s) then [] else [text_start "text-0"])
    ++ [text_delta "text-0" text].
Proof. unfold emitText. by destruct (JS.has _ _). Qed.

Lemma handleToolCall_events s toolCall :
  snd (handleToolCall s toolCall) =
    match resolveToolId (indexToId s) toolCall with
    | Some (c, _) =>
        snd (applyFragment c (tcd_function toolCall) (currentCall c (toolCalls s)))
    | None => []
    end.
Proof.
  unfold handleToolCall. destruct (resolveToolId _ _) as [[c m]|]; [|done].
  by rewrite trackFragment_events.
Qed.

Lemma applyFragment_event c fn tc e :
  e ∈ snd (applyFragment c fn tc) ->
  (exists n, e = tool_input_start c n /\ JS.truthy (fn ≫= fn_name) = Some n
             /\ tc_name tc = EmptyString)
  \/ (exists a, e = tool_input_delta c a /\ JS.truthy (fn ≫= fn_arguments) = Some a).
Proof.
  rewrite applyFragment_events, elem_of_app. intros [H|H].
  - left. destruct (JS.truthy (fn ≫= fn_name)) as [n|]; [|by apply elem_of_nil in H].
    destruct (tc_name tc); [|by apply elem_of_nil in H].
    apply list_elem_of_singleton in H. by exists n.
  - right. destruct (JS.truthy (fn ≫= fn_arguments)) as [a|]; [|by apply elem_of_nil in H].
    apply list_elem_of_singleton in H. by exists a.
Qed.

Lemma completeToolCalls_event calls e :
  e ∈ snd (completeToolCalls calls) ->
  exists k tc, (k, tc) ∈ calls /\ tc_completed tc = false /\
    (e = tool_input_end (tc_id tc) \/ e = tool_call (tc_id tc) (tc_name tc) (tc_arguments tc)).
Proof.
  rewrite completeToolCalls_snd. intros H.
  apply elem_of_concat in H as (l & He & Hl).
  apply list_elem_of_fmap in Hl as ([k tc] & -> & Hp).
  exists k, tc. split; [done|]. unfold completionEvents in He. simpl in He.
  destruct (tc_completed tc); [by apply elem_of_nil in He|]. split; [done|].
  apply elem_of_cons in He as [->|He]; [by left|].
  apply list_elem_of_singleton in He. by right.
Qed.

Lemma completeText_event started ended e :
  e ∈ snd (completeText started ended) -> exists id, e = text_end id /\ id ∈ started.
Proof.
  revert ended. induction started as [|id rest IH]; intros ended; simpl.
  - intros H. by apply elem_of_nil in H.
  - destruct (JS.has id ended).
    + intros H. apply IH in H as (id' & -> & ?). exists id'. split; [done|].
      by apply elem_of_cons; right.
    + destruct (completeText rest (JS.add id ended)) as [ended' out] eqn:E. simpl.
      intros H. apply elem_of_cons in H as [->|H].
      * exists id. split; [done|]. by apply elem_of_cons; left.
      * specialize (IH (JS.add id ended)). rewrite E in IH.
        apply IH in H as (id' & -> & ?). exists id'. split; [done|].
        by apply elem_of_cons; right.
Qed.

Lemma flush_kinds s e : e ∈ snd (flush s) -> flushKind (kind e) = true.
Proof.
  rewrite flush_events, elem_of_app. intros [H|H].
  - apply completeToolCalls_event in H as (k & tc & _ & _ & [->| ->]); done.
  - apply completeText_event in H as (id & -> & _). done.
Qed.

Lemma step_kinds s it e :
  e ∈ snd (step s it) ->
  if isSignal it then flushKind (kind e) = true
  else isPayload it = true /\ payloadKind (kind e) = true.
Proof.
  destruct it as [u|r|text|toolCall]; simpl.
  - intros H. by apply elem_of_nil in H.
  - apply flush_kinds.
  - rewrite emitText_events, elem_of_app. intros [H|H].
    + destruct (JS.has _ _); [by apply elem_of_nil in H|].
      apply list_elem_of_singleton in H. by subst.
    + apply list_elem_of_singleton in H. by subst.
  - rewrite handleToolCall_events.
    destruct (resolveToolId _ _) as [[c m]|]; [|intros H; by apply elem_of_nil in H].
    intros H. apply applyFragment_event in H as [(n & -> & _)|(a & -> & _)]; done.
Qed.

Lemma step_not_finish s it e : e ∈ snd (step s it) -> kind e <> Finish.
Proof.
  intros H. apply step_kinds in H. destruct (isSignal it).
  - intros E. by rewrite E in H.
  - intros E. destruct H as [_ H]. by rewrite E in H.
Qed.

Lemma run_not_finish s items e : e ∈ snd (run s items) -> kind e <> Finish.
Proof.
  revert s. induction items as [|it rest IH]; intros s.
  - intros H. by apply elem_of_nil in H.
  - rewrite run_cons. simpl. rewrite elem_of_app. intros [H|H].
    + by apply step_not_finish in H.
    + by apply IH in H.
Qed.

(** The output ends with the one [finish] part. *)
Lemma outputFrom_finishesLast s items :
  exists pre,
    outputFrom s items =
      pre ++ [finish (usageAfter (usage s) items) (reasonAfter (actualFinishReason s) items)]
    /\ forall e, e ∈ pre -> kind e <> Finish.
Proof.
  eexists. split; [apply outputFrom_split|].
  intros e. rewrite elem_of_app. intros [H|H].
  - by apply run_not_finish in H.
  - apply flush_kinds in H. intros E. by rewrite E in H.
Qed.

Lemma usageAfter_app u l1 l2 : usageAfter u (l1 ++ l2) = usageAfter (usageAfter u l1) l2.
Proof. apply foldl_app. Qed.

Lemma reasonAfter_app r l1 l2 : reasonAfter r (l1 ++ l2) = reasonAfter (reasonAfter r l1) l2.
Proof. apply foldl_app. Qed.

Lemma usageAfter_none u items :
  forallb (fun it => negb (isUsage it)) items = true -> usageAfter u items = u.
Proof.
  revert u. induction items as [|it rest IH]; intros u; simpl; [done|].
  intros H. apply andb_true_iff in H as [H1 H2]. rewrite IH by done.
  by destruct it.
Qed.

Lemma reasonAfter_none r items :
  forallb (fun it => negb (isSignal it)) items = true -> reasonAfter r items = r.
Proof.
  revert r. induction items as [|it rest IH]; intros r; simpl; [done|].
  intros H. apply andb_true_iff in H as [H1 H2].
  unfold reasonAfter in *. simpl. rewrite IH by done.
  by destruct it.
Qed.

Lemma forallb_concat {A B} (p : B -> bool) (f : A -> list B) (l : list A) :
  (forall x, x ∈ l -> forallb p (f x) = true) -> forallb p (List.concat (f <$> l)) = true.
Proof.
  induction l as [|x l IH]; intros H; simpl; [done|].
  rewrite forallb_app. apply andb_true_iff. split.
  - apply H. by apply elem_of_cons; left.
  - apply IH. intros y Hy. apply H. by apply elem_of_cons; right.
Qed.

Lemma choiceItems_no_usage choice :
  forallb (fun it => negb (isUsage it)) (choiceItems choice) = true.
Proof.
  unfold choiceItems. rewrite forallb_app. apply andb_true_iff. split.
  - by destruct (JS.truthy _).
  - destruct (c_delta choice) as [d|]; simpl; [|done]. unfold deltaItems.
    rewrite forallb_app. apply andb_true_iff. split; [by destruct (JS.truthy _)|].
    induction (default [] (d_tool_calls d)); simpl; done.
Qed.

Lemma frameItems_no_usage f :
  f_usage f = None -> forallb (fun it => negb (isUsage it)) (frameItems f) = true.
Proof.
  intros E. unfold frameItems. rewrite E. simpl.
  destruct (head _) as [choice|]; simpl; [apply choiceItems_no_usage | done].
Qed.

Lemma frameItems_usage f u :
  f_usage f = Some u -> forall u0, usageAfter u0 (frameItems f) = readUsage u.
Proof.
  intros E u0. unfold frameItems. rewrite E. simpl.
  apply usageAfter_none.
  destruct (head _) as [choice|]; simpl; [apply choiceItems_no_usage | done].
Qed.

Lemma frameItems_no_signal f :
  finishSignal f = None -> forallb (fun it => negb (isSignal it)) (frameItems f) = true.
Proof.
  unfold finishSignal, frameItems. intros E. rewrite forallb_app. apply andb_true_iff.
  split; [by destruct (f_usage f)|].
  destruct (head _) as [choice|]; simpl in *; [|done].
  unfold choiceItems. rewrite E. simpl.
  destruct (c_delta choice) as [d|]; simpl; [|done]. unfold deltaItems.
  rewrite forallb_app. apply andb_true_iff.
  split; [by destruct (JS.truthy (d_content d))|].
  induction (default [] (d_tool_calls d)); simpl; done.
Qed.

(** C4.  When no frame of the stream carries a finish signal or a usage
    object, the output ends with its only [finish] part, whose usage is
    all zero and whose finish reason is [stop]. *)
Theorem default_finish chunks :
  Forall (fun f => f_usage f = None /\ finishSignal f = None) (streamFrames chunks) ->
  exists pre,
    doStream chunks source_done = (pre ++ [finish zeroUsage stop], closed)
    /\ forall e, e ∈ pre -> kind e <> Finish.
Proof.
  intros H. rewrite doStream_done.
  destruct (outputFrom_finishesLast initialSession (streamItems chunks)) as (pre & E & Hpre).
  exists pre. split; [|done]. rewrite E. simpl.
  rewrite usageAfter_none, reasonAfter_none; [done|..].
  - apply forallb_concat. intros f Hf. apply frameItems_no_signal.
    rewrite Forall_forall in H. by apply H.
  - apply forallb_concat. intros f Hf. apply frameItems_no_usage.
    rewrite Forall_forall in H. by apply H.
Qed.

(** C7.  A frame that carries a usage object sets the three counts of the
    session to the [prompt_tokens], [completion_tokens] and [total_tokens]
    of that object, a missing one to zero, whatever the usage was and
    whatever its choice list is; the [finish] part carries the counts of the
    last frame with a usage object. *)
Theorem usage_last_writer_wins :
  (forall s f u,
      f_usage f = Some u ->
      usage (fst (processFrame s f))
      = {| inputTokens := default 0 (prompt_tokens u);
           outputTokens := default 0 (completion_tokens u);
           totalTokens := default 0 (total_tokens u) |})
  /\ (forall chunks before f after u,
        streamFrames chunks = before ++ f :: after ->
        f_usage f = Some u ->
        Forall (fun f' => f_usage f' = None) after ->
        exists pre r,
          doStream chunks source_done
          = (pre ++ [finish {| inputTokens := default 0 (prompt_tokens u);
                               outputTokens := default 0 (completion_tokens u);
                               totalTokens := default 0 (total_tokens u) |} r],
             closed)
          /\ forall e, e ∈ pre -> kind e <> Finish).
Proof.
  split.
  - intros s f u E. rewrite processFrame_run, run_usage.
    rewrite (frameItems_usage f u E). reflexivity.
  - intros chunks before f after u E Eu Hafter. rewrite doStream_done.
    destruct (outputFrom_finishesLast initialSession (streamItems chunks))
      as (pre & Eo & Hpre).
    exists pre, (reasonAfter stop (streamItems chunks)). split; [|done].
    revert Eo.
    assert (usageAfter (usage initialSession) (streamItems chunks) = readUsage u) as ->.
    { unfold streamItems. rewrite E, fmap_app, concat_app, usageAfter_app. simpl.
      rewrite usageAfter_app, (frameItems_usage f u Eu).
      apply usageAfter_none. apply forallb_concat. intros f' Hf'.
      apply frameItems_no_usage. rewrite Forall_forall in Hafter. by apply Hafter. }
    by intros ->.
Qed.

(** ** The frame reader *)

Lemma malformed_decodeLine line : malformed line -> decodeLine line = None.
Proof.
  intros (H1 & H2 & H3). unfold decodeLine. rewrite H1. simpl.
  by rewrite decide_False.
Qed.

Lemma streamFrames_app l1 l2 :
  streamFrames (l1 ++ l2) = streamFrames l1 ++ streamFrames l2.
Proof. unfold streamFrames. by rewrite fmap_app, concat_app. Qed.

Lemma streamFrames_cons chunk chunks :
  streamFrames (chunk :: chunks) = chunkFrames chunk ++ streamFrames chunks.
Proof. reflexivity. Qed.

Lemma doStream_frames chunks chunks' ending :
  streamFrames chunks = streamFrames chunks' ->
  doStream chunks ending = doStream chunks' ending.
Proof.
  intros E. unfold doStream. rewrite !processChunks_frames, E. reflexivity.
Qed.

Lemma omap_concat {A B} (f : A -> option B) (ls : list (list A)) :
  omap f (List.concat ls) = List.concat ((fun l : list A => omap f l) <$> ls).
Proof.
  induction ls as [|l ls IH]; simpl; [done|]. by rewrite omap_app, IH.
Qed.

Lemma omap_filter {A B} (f : A -> option B) (P : A -> Prop) `{forall x, Decision (P x)}
    (l : list A) :
  (forall x, ~ P x -> f x = None) -> omap f (filter P l) = omap f l.
Proof.
  intros HP. induction l as [|x l IH]; [done|].
  rewrite filter_cons. destruct (decide (P x)) as [Hx|Hx]; csimpl.
  - by rewrite IH.
  - rewrite IH. by rewrite (HP x Hx).
Qed.

Lemma streamFrames_dataLines chunks :
  streamFrames chunks = omap decodeLine (dataLines chunks).
Proof.
  unfold dataLines. rewrite omap_filter.
  - rewrite omap_concat. unfold streamFrames. f_equal.
    rewrite <- list_fmap_compose. reflexivity.
  - intros line Hl. unfold decodeLine.
    by destruct (JS.startsWith "data: " (JS.trim line)).
Qed.

Lemma omap_all_None {A B} (f : A -> option B) (l : list A) :
  Forall (fun x => f x = None) l -> omap f l = [].
Proof. induction 1 as [|x l Hx _ IH]; simpl; [done|]. by rewrite Hx. Qed.

(** C5.  A [data: ] line whose payload fails to parse is dropped and
    nothing else is: the stream reads as if the line were not there, it
    is closed and not errored when the body ends normally, and when the
    data lines are a text frame, a malformed line and a text frame, the
    output is one [text-start], the two [text-delta]s, one [text-end] and
    [finish]. *)
Theorem malformed_frame_dropped :
  (forall before chunk chunk' after ls1 bad ls2 ending,
      JS.split_lines chunk = ls1 ++ bad :: ls2 ->
      JS.split_lines chunk' = ls1 ++ ls2 ->
      malformed bad ->
      doStream (before ++ chunk :: after) ending
      = doStream (before ++ chunk' :: after) ending)
  /\ (forall chunks, snd (doStream chunks source_done) = closed)
  /\ (forall chunks l1 bad l2 rest a b,
        dataLines chunks = l1 :: bad :: l2 :: rest ->
        decodeLine l1 = Some (textFrame a) ->
        malformed bad ->
        decodeLine l2 = Some (textFrame b) ->
        Forall (fun line => decodeLine line = None) rest ->
        a <> EmptyString -> b <> EmptyString ->
        doStream chunks source_done
        = ([text_start "text-0"; text_delta "text-0" a; text_delta "text-0" b;
            text_end "text-0"; finish zeroUsage stop], closed)).
Proof.
  split; [|split].
  - intros before chunk chunk' after ls1 bad ls2 ending E E' Hbad.
    apply doStream_frames.
    rewrite !streamFrames_app, !streamFrames_cons. do 2 f_equal.
    unfold chunkFrames. rewrite E, E', !omap_app. simpl.
    by rewrite (malformed_decodeLine bad Hbad).
  - intros chunks. by rewrite doStream_done.
  - intros chunks l1 bad l2 rest a b E E1 Hbad E2 Hrest Ha Hb.
    rewrite doStream_done. unfold streamItems.
    rewrite streamFrames_dataLines, E. csimpl.
    rewrite E1, (malformed_decodeLine bad Hbad), E2. csimpl.
    rewrite (omap_all_None _ _ Hrest).
    destruct a as [|a0 a]; [done|]. destruct b as [|b0 b]; [done|].
    reflexivity.
Qed.

(** ** Correlation of a fragment *)

Lemma trackFragment_correlated c m s toolCall :
  correlatedWith c s toolCall (trackFragment c (set_indexToId m s) toolCall).
Proof.
  pose proof (trackFragment_frame c (set_indexToId m s) toolCall) as (_ & _ & Hi & _).
  simpl in Hi. split; [|split; [|split]].
  - by rewrite Hi.
  - rewrite trackFragment_get. rewrite decide_True by done. by eexists.
  - intros e. rewrite trackFragment_events. intros H.
    apply applyFragment_event in H as [(n & -> & _)|(a & -> & _)]; done.
  - intros c' Hne. rewrite trackFragment_get. by rewrite decide_False.
Qed.

(** C6.  A fragment with an id is correlated with that id, and its index,
    if it has one, is mapped to it; a fragment without an id whose index
    is mapped is correlated with the mapped id and leaves the map as it
    is; any other fragment changes nothing and enqueues nothing. *)
Theorem fragment_resolution s toolCall :
  (forall c, JS.truthy (tcd_id toolCall) = Some c ->
      correlatedWith c s toolCall (handleToolCall s toolCall) /\
      indexToId (fst (handleToolCall s toolCall)) =
        match tcd_index toolCall with
        | Some i => <[i := c]> (indexToId s)
        | None => indexToId s
        end)
  /\ (forall i c, JS.truthy (tcd_id toolCall) = None ->
        tcd_index toolCall = Some i -> indexToId s !! i = Some c ->
        correlatedWith c s toolCall (handleToolCall s toolCall) /\
        indexToId (fst (handleToolCall s toolCall)) = indexToId s)
  /\ (JS.truthy (tcd_id toolCall) = None ->
      (tcd_index toolCall = None \/
       exists i, tcd_index toolCall = Some i /\ indexToId s !! i = None) ->
      handleToolCall s toolCall = (s, [])).
Proof.
  unfold handleToolCall, resolveToolId. split; [|split].
  - intros c ->. split; [apply trackFragment_correlated|].
    apply trackFragment_frame.
  - intros i c -> -> ->. split; [apply trackFragment_correlated|].
    pose proof (trackFragment_frame c (set_indexToId (indexToId s) s) toolCall)
      as (_ & _ & H & _).
    exact H.
  - intros -> [->|(i & -> & ->)]; reflexivity.
Qed.

(** ** What is never enqueued again *)

Lemma outputFrom_absent_ind k c (P : Session -> list Item -> Prop) :
  (forall s, P s [] -> absent k c (snd (flush s))) ->
  (forall s it rest, P s (it :: rest) ->
      absent k c (snd (step s it)) /\ P (fst (step s it)) rest) ->
  k <> Finish ->
  forall items s, P s items -> absent k c (outputFrom s items).
Proof.
  intros Hnil Hcons Hk. induction items as [|it rest IH]; intros s HP.
  - rewrite outputFrom_nil, finalize_snd. apply absent_app. split; [by apply Hnil|].
    apply absent_kind. intros e He. apply list_elem_of_singleton in He. by subst.
  - rewrite outputFrom_cons. apply absent_app.
    destruct (Hcons s it rest HP) as [H1 H2]. split; [done | by apply IH].
Qed.

Lemma flushKind_payloadKind k : flushKind k = true -> payloadKind k = false.
Proof. by destruct k. Qed.

Lemma step_completed c s it :
  completedFlag c s = Some true -> completedFlag c (fst (step s it)) = Some true.
Proof.
  unfold completedFlag. destruct it as [u|r|text|toolCall]; simpl; [done|..].
  - rewrite flush_get. simpl. by destruct (getCall c (toolCalls s)).
  - by destruct (emitText_frame s text) as (_ & _ & -> & _).
  - unfold handleToolCall. destruct (resolveToolId _ _) as [[c0 m]|]; [|done].
    rewrite trackFragment_get. simpl. destruct (decide (c0 = c)) as [->|]; [|done].
    simpl. rewrite applyFragment_completed. unfold currentCall.
    by destruct (getCall c (toolCalls s)).
Qed.

Lemma elem_wellFormed s k tc :
  wellFormed s -> (k, tc) ∈ toolCalls s -> getCall k (toolCalls s) = Some tc /\ tc_id tc = k.
Proof.
  intros W H. assert (getCall k (toolCalls s) = Some tc) as G.
  { apply elem_getCall; [apply W | done]. }
  split; [done|]. by apply (wf_keys s W).
Qed.

(** A part of the flush for [c] comes from the open call [c]. *)
Lemma flush_tool_event s c e :
  wellFormed s -> e ∈ snd (flush s) -> partId e = Some c -> kind e <> TextEnd ->
  exists tc, getCall c (toolCalls s) = Some tc /\ tc_completed tc = false /\
    (e = tool_input_end c \/ e = tool_call c (tc_name tc) (tc_arguments tc)).
Proof.
  intros W. rewrite flush_events, elem_of_app. intros [H|H] Hc Hk.
  - apply completeToolCalls_event in H as (k & tc & Hin & Hcp & He).
    destruct (elem_wellFormed s k tc W Hin) as [G Hid]. exists tc.
    assert (k = c) as -> by (destruct He as [->| ->]; simpl in Hc; congruence).
    rewrite Hid in He. done.
  - apply completeText_event in H as (id & -> & _). done.
Qed.

Lemma flush_absent_completed k c s :
  wellFormed s -> completedFlag c s = Some true -> k <> TextEnd ->
  absent k c (snd (flush s)).
Proof.
  intros W Hc Hk e He [Hke Hce].
  destruct (flush_tool_event s c e W He Hce) as (tc & G & Hcp & _); [congruence|].
  unfold completedFlag in Hc. rewrite G in Hc. simpl in Hc. congruence.
Qed.

(** Once [c] is completed, neither [tool-input-end] nor [tool-call] for it. *)
Lemma outputFrom_absent_completed k c s items :
  wellFormed s -> completedFlag c s = Some true ->
  k = ToolInputEnd \/ k = ToolCall ->
  absent k c (outputFrom s items).
Proof.
  intros W Hc Hk. revert s W Hc.
  cut (forall s, wellFormed s /\ completedFlag c s = Some true ->
                 absent k c (outputFrom s items)); [by auto|].
  intros s. apply (outputFrom_absent_ind k c
    (fun s _ => wellFormed s /\ completedFlag c s = Some true)).
  - intros s' [W Hc]. apply flush_absent_completed; [done..|]. by destruct Hk as [->| ->].
  - intros s' it rest [W Hc]. split; [|split; [by apply wellFormed_step|by apply step_completed]].
    destruct (isSignal it) eqn:Hs.
    + destruct it; try done. simpl. apply flush_absent_completed; [by destruct W|done|].
      by destruct Hk as [->| ->].
    + apply absent_kind. intros e He E. apply step_kinds in He. rewrite Hs in He.
      destruct He as [_ He]. rewrite E in He. by destruct Hk as [->| ->].
  - by destruct Hk as [->| ->].
Qed.

(** The parts of one step, by the kind of item. *)
Lemma step_event s it e :
  e ∈ snd (step s it) ->
  match it with
  | usageItem _ => False
  | finishItem _ => flushKind (kind e) = true
  | contentItem text =>
      e = text_delta "text-0" text \/ (e = text_start "text-0" /\ "text-0" ∉ textStarted s)
  | fragmentItem toolCall =>
      exists c m, resolveToolId (indexToId s) toolCall = Some (c, m) /\
        ((exists n, e = tool_input_start c n
                    /\ JS.truthy (tcd_function toolCall ≫= fn_name) = Some n
                    /\ tc_name (currentCall c (toolCalls s)) = EmptyString)
         \/ (exists a, e = tool_input_delta c a
                       /\ JS.truthy (tcd_function toolCall ≫= fn_arguments) = Some a))
  end.
Proof.
  destruct it as [u|r|text|toolCall]; simpl.
  - intros H. by apply elem_of_nil in H.
  - apply flush_kinds.
  - rewrite emitText_events, elem_of_app. intros [H|H].
    + unfold JS.has in H. destruct (bool_decide _) eqn:E; [by apply elem_of_nil in H|].
      apply bool_decide_eq_false in E. apply list_elem_of_singleton in H. by right.
    + apply list_elem_of_singleton in H. by left.
  - rewrite handleToolCall_events.
    destruct (resolveToolId _ _) as [[c m]|]; [|intros H; by apply elem_of_nil in H].
    intros H. exists c, m. split; [done|]. by apply applyFragment_event in H.
Qed.

Lemma step_started s it :
  "text-0" ∈ textStarted s -> "text-0" ∈ textStarted (fst (step s it)).
Proof.
  destruct it as [u|r|text|toolCall]; simpl; [done|..].
  - by destruct (flush_fields (set_finishReason (mapHeliconeFinishReason r) s))
      as (_ & _ & -> & _).
  - unfold emitText. destruct (JS.has _ _) eqn:E; [done|]. simpl.
    intros H. unfold JS.add, JS.has. by rewrite bool_decide_eq_true_2.
  - by destruct (handleToolCall_frame s toolCall) as (_ & _ & -> & _).
Qed.

(** Once the span is started, no [text-start]. *)
Lemma outputFrom_absent_started c s items :
  "text-0" ∈ textStarted s -> absent TextStart c (outputFrom s items).
Proof.
  revert s. apply (outputFrom_absent_ind TextStart c
    (fun s _ => "text-0" ∈ textStarted s)); [| |done].
  - intros s _. apply absent_kind. intros e He E. apply flush_kinds in He.
    by rewrite E in He.
  - intros s it rest H. split; [|by apply step_started].
    apply absent_kind. intros e He E. apply step_event in He.
    destruct it as [u|r|text|toolCall]; [done|..].
    + by rewrite E in He.
    + destruct He as [->|[_ He]]; done.
    + destruct He as (c0 & m & _ & [(n & -> & _)|(a & -> & _)]); done.
Qed.

Lemma step_ended s it :
  wellFormed s -> textEnded s = ["text-0"] -> textEnded (fst (step s it)) = ["text-0"].
Proof.
  intros W H. destruct it as [u|r|text|toolCall]; simpl; [done|..].
  - destruct (flush_fields (set_finishReason (mapHeliconeFinishReason r) s))
      as (_ & _ & _ & ->).
    simpl. rewrite (completeText_wellFormed s W), H. simpl.
    by destruct (textStarted s) as [|? [|]].
  - by destruct (emitText_frame s text) as (_ & _ & _ & _ & ->).
  - by destruct (handleToolCall_frame s toolCall) as (_ & _ & _ & ->).
Qed.

Lemma flush_absent_ended c s :
  wellFormed s -> textEnded s = ["text-0"] -> absent TextEnd c (snd (flush s)).
Proof.
  intros W H. rewrite flush_events. apply absent_app. split.
  - apply absent_kind. intros e He.
    apply completeToolCalls_event in He as (k & tc & _ & _ & [->| ->]); done.
  - rewrite (completeText_wellFormed s W), H.
    destruct (textStarted s) as [|? [|]]; apply absent_nil.
Qed.

(** Once the span is ended, no [text-end]. *)
Lemma outputFrom_absent_ended c s items :
  wellFormed s -> textEnded s = ["text-0"] -> absent TextEnd c (outputFrom s items).
Proof.
  intros W H. revert s W H.
  cut (forall s, wellFormed s /\ textEnded s = ["text-0"] ->
                 absent TextEnd c (outputFrom s items)); [by auto|].
  intros s. apply (outputFrom_absent_ind TextEnd c
    (fun s _ => wellFormed s /\ textEnded s = ["text-0"])); [| |done].
  - intros s' [W H]. by apply flush_absent_ended.
  - intros s' it rest [W H].
    split; [|split; [by apply wellFormed_step | by apply step_ended]].
    destruct it as [u|r|text|toolCall]; simpl.
    + apply absent_nil.
    + apply flush_absent_ended; [by destruct W | done].
    + apply absent_kind. intros e He.
      apply (step_event s' (contentItem text)) in He as [->|[-> _]]; done.
    + apply absent_kind. intros e He.
      apply (step_event s' (fragmentItem toolCall)) in He
        as (c0 & m & _ & [(n & -> & _)|(a & -> & _)]); done.
Qed.

Lemma step_named c s it : named c s -> named c (fst (step s it)).
Proof.
  intros (tc & G & Hn). unfold named.
  destruct it as [u|r|text|toolCall]; simpl.
  - by exists tc.
  - rewrite flush_get. simpl. rewrite G. simpl. by eexists.
  - destruct (emitText_frame s text) as (_ & _ & -> & _). by exists tc.
  - unfold handleToolCall. destruct (resolveToolId _ _) as [[c0 m]|]; [|by exists tc].
    rewrite trackFragment_get. simpl. destruct (decide (c0 = c)) as [->|]; [|by exists tc].
    eexists. split; [done|]. rewrite applyFragment_name.
    unfold currentCall. rewrite G. simpl.
    destruct (JS.truthy _); destruct (tc_name tc); done.
Qed.

(** Once [c] has its name, no [tool-input-start] for it. *)
Lemma outputFrom_absent_named c s items :
  named c s -> absent ToolInputStart c (outputFrom s items).
Proof.
  revert s. apply (outputFrom_absent_ind ToolInputStart c (fun s _ => named c s));
    [| |done].
  - intros s _. apply absent_kind. intros e He E. apply flush_kinds in He.
    by rewrite E in He.
  - intros s it rest (tc & G & Hn). split; [|apply step_named; by exists tc].
    intros e He [Hk Hc]. apply step_event in He.
    destruct it as [u|r|text|toolCall]; [done|..].
    + by rewrite Hk in He.
    + destruct He as [->|[-> _]]; done.
    + destruct He as (c0 & m & _ & [(n & -> & _ & Hcur)|(a & -> & _)]); [|done].
      simpl in Hc. injection Hc as ->. unfold currentCall in Hcur.
      rewrite G in Hcur. done.
Qed.

(** ** At most once *)

Lemma completionEvents_id k c tc :
  tc_id tc <> c -> absent k c (completionEvents tc).
Proof.
  intros H. apply absent_id. intros e He. unfold completionEvents in He.
  destruct (tc_completed tc); [by apply elem_of_nil in He|].
  apply elem_of_cons in He as [->|He]; [simpl; congruence|].
  apply list_elem_of_singleton in He as ->. simpl. congruence.
Qed.

Lemma completeToolCalls_id k c calls :
  (forall k' tc, (k', tc) ∈ calls -> tc_id tc = k') -> c ∉ calls.*1 ->
  absent k c (snd (completeToolCalls calls)).
Proof.
  intros Hid Hc. apply absent_id. intros e He E.
  apply completeToolCalls_event in He as (k' & tc & Hin & _ & He).
  apply Hc. apply list_elem_of_fmap. exists (k', tc). split; [|done].
  simpl. rewrite <- (Hid k' tc Hin). destruct He as [->| ->]; simpl in E; congruence.
Qed.

Lemma completeToolCalls_cons k tc calls :
  snd (completeToolCalls ((k, tc) :: calls)) =
    completionEvents tc ++ snd (completeToolCalls calls).
Proof. simpl. by destruct (completeToolCalls calls). Qed.

Lemma completeToolCalls_occurrences k c calls :
  (forall k' tc, (k', tc) ∈ calls -> tc_id tc = k') -> NoDup calls.*1 ->
  (occurrences k c (snd (completeToolCalls calls)) <= 1)%nat.
Proof.
  induction calls as [|[k0 tc0] calls IH]; intros Hid Hnd; [unfold occurrences; simpl; lia|].
  rewrite completeToolCalls_cons, occurrences_app.
  apply NoDup_cons in Hnd as [Hk0 Hnd].
  assert (forall k' tc, (k', tc) ∈ calls -> tc_id tc = k') as Hid'.
  { intros k' tc H. apply Hid. by apply elem_of_cons; right. }
  assert (tc_id tc0 = k0) as Hid0 by (apply Hid; by apply elem_of_cons; left).
  destruct (decide (k0 = c)) as [->|Hne].
  - rewrite (absent_occurrences k c (snd (completeToolCalls calls)))
      by (by apply completeToolCalls_id).
    unfold completionEvents. destruct (tc_completed tc0); [unfold occurrences; simpl; lia|].
    rewrite Nat.add_0_r. by apply occurrences_two.
  - rewrite (absent_occurrences k c (completionEvents tc0))
      by (apply completionEvents_id; congruence).
    by apply IH.
Qed.

Lemma wellFormed_ids s k tc : wellFormed s -> (k, tc) ∈ toolCalls s -> tc_id tc = k.
Proof. intros W H. by apply (elem_wellFormed s k tc W H). Qed.

Lemma flush_occurrences k c s :
  wellFormed s -> (occurrences k c (snd (flush s)) <= 1)%nat.
Proof.
  intros W. rewrite flush_events, occurrences_app.
  destruct (decide (k = TextEnd)) as [->|Hk].
  - rewrite (absent_occurrences TextEnd c (snd (completeToolCalls _))).
    + rewrite (completeText_wellFormed s W).
      unfold occurrences.
      destruct (textStarted s) as [|? [|]], (textEnded s); simpl; try lia.
      rewrite filter_cons. destruct (decide _); simpl; lia.
    + apply absent_kind. intros e He.
      apply completeToolCalls_event in He as (k' & tc & _ & _ & [->| ->]); done.
  - rewrite (absent_occurrences k c (snd (completeText _ _))).
    + rewrite Nat.add_0_r. apply completeToolCalls_occurrences; [|apply W].
      intros k' tc. by apply wellFormed_ids.
    + apply absent_kind. intros e He. apply completeText_event in He as (id & -> & _).
      simpl. congruence.
Qed.

Lemma flush_completes c s e :
  wellFormed s -> e ∈ snd (flush s) -> partId e = Some c -> kind e <> TextEnd ->
  completedFlag c (fst (flush s)) = Some true.
Proof.
  intros W He Hc Hk.
  destruct (flush_tool_event s c e W He Hc Hk) as (tc & G & _ & _).
  unfold completedFlag. by rewrite flush_get, G.
Qed.

(** After a flush that enqueued a part of kind [k] for [c], none follows. *)
Lemma flush_blocks k c s items e :
  wellFormed s -> e ∈ snd (flush s) -> isPart k c e ->
  absent k c (outputFrom (fst (flush s)) items).
Proof.
  intros W He [Hk Hc]. pose proof (wellFormed_flush s W) as W'.
  destruct (decide (k = TextEnd)) as [->|Hne].
  - apply outputFrom_absent_ended; [done|].
    destruct (flush_fields s) as (_ & _ & _ & ->).
    rewrite flush_events, elem_of_app in He. destruct He as [He|He].
    + apply completeToolCalls_event in He as (k' & tc & _ & _ & [->| ->]); done.
    + rewrite (completeText_wellFormed s W) in *.
      destruct (textStarted s) as [|? [|]], (textEnded s); simpl in *;
        try (by apply elem_of_nil in He); done.
  - apply outputFrom_absent_completed; [done| |].
    + apply (flush_completes c s e); [done..|congruence].
    + destruct (flush_tool_event s c e W He Hc) as (tc & _ & _ & He'); [congruence|].
      destruct He' as [->| ->]; simpl in Hk; auto.
Qed.

Lemma outputFrom_at_most_once k c s items :
  wellFormed s -> flushKind k = true -> (occurrences k c (outputFrom s items) <= 1)%nat.
Proof.
  intros W Hk. revert s W. induction items as [|it rest IH]; intros s W.
  - rewrite outputFrom_nil, finalize_snd, occurrences_app.
    pose proof (flush_occurrences k c s W).
    rewrite (absent_occurrences k c [finish _ _]); [lia|].
    apply absent_kind. intros e He. apply list_elem_of_singleton in He as ->.
    simpl. by destruct k.
  - rewrite outputFrom_cons, occurrences_app.
    pose proof (IH _ (wellFormed_step s it W)) as IH'.
    destruct (Nat.eq_dec (occurrences k c (snd (step s it))) 0) as [E|E]; [lia|].
    destruct (occurrences_pos _ _ _ E) as (e & He & Hp).
    destruct it as [u|r|text|toolCall].
    + by apply elem_of_nil in He.
    + simpl in *.
      pose proof (flush_occurrences k c (set_finishReason (mapHeliconeFinishReason r) s)) as O.
      rewrite (absent_occurrences k c (outputFrom _ rest)).
      * rewrite Nat.add_0_r. apply O. by destruct W.
      * eapply flush_blocks; [by destruct W | done | done].
    + apply (step_event s (contentItem text)) in He. destruct Hp as [Hp _].
      destruct He as [->|[-> _]]; simpl in Hp; subst k; done.
    + apply (step_event s (fragmentItem toolCall)) in He. destruct Hp as [Hp _].
      destruct He as (c0 & m & _ & [(n & -> & _)|(a & -> & _)]); simpl in Hp; subst k; done.
Qed.

(** C3.  A second flush changes nothing and enqueues nothing; hence,
    however often the flush runs, the output holds at most one
    [tool-input-end] and one [tool-call] for an id and at most one
    [text-end] for a span. *)
Theorem flush_idempotent :
  (forall s, flush (fst (flush s)) = (fst (flush s), []))
  /\ (forall chunks c,
        let out := fst (doStream chunks source_done) in
        (occurrences ToolInputEnd c out <= 1)%nat /\
        (occurrences ToolCall c out <= 1)%nat /\
        (occurrences TextEnd c out <= 1)%nat).
Proof.
  split; [apply flush_again|].
  intros chunks c. rewrite doStream_done. simpl.
  repeat split; by apply outputFrom_at_most_once; [apply wellFormed_initial|].
Qed.

(** ** Order *)

Lemma precedes_finish k1 k2 c out u r :
  precedes k1 k2 c out -> k1 <> Finish -> precedes k1 k2 c (out ++ [finish u r]).
Proof.
  intros H Hk. apply precedes_app; [done| |].
  - apply precedes_absent_l, absent_kind. intros e He.
    apply list_elem_of_singleton in He as ->. simpl. congruence.
  - intros _. apply absent_kind. intros e He.
    apply list_elem_of_singleton in He as ->. simpl. congruence.
Qed.

Lemma emitText_started s text : "text-0" ∈ textStarted (fst (emitText s text)).
Proof.
  unfold emitText, JS.has. destruct (bool_decide _) eqn:E; simpl.
  - by apply bool_decide_eq_true in E.
  - unfold JS.add, JS.has. rewrite E. apply elem_of_app. right.
    by apply list_elem_of_singleton.
Qed.

(** [text-start] comes before every [text-delta]. *)
Lemma outputFrom_text_start c s items :
  precedes TextStart TextDelta c (outputFrom s items).
Proof.
  revert s. induction items as [|it rest IH]; intros s.
  - rewrite outputFrom_nil, finalize_snd. apply precedes_finish; [|done].
    apply precedes_absent_l, absent_kind. intros e He E. apply flush_kinds in He.
    by rewrite E in He.
  - rewrite outputFrom_cons. apply precedes_app; [|apply IH|].
    + destruct it as [u|r|text|toolCall]; simpl.
      * apply precedes_absent_l, absent_nil.
      * apply precedes_absent_l, absent_kind. intros e He E. apply flush_kinds in He.
        by rewrite E in He.
      * rewrite emitText_events. destruct (JS.has _ _); simpl.
        -- apply precedes_absent_l, absent_kind. intros e He.
           apply list_elem_of_singleton in He as ->. done.
        -- apply precedes_pair; [left|]; by intros [? _].
      * apply precedes_absent_l, absent_kind. intros e He.
        apply (step_event s (fragmentItem toolCall)) in He
          as (c0 & m & _ & [(n & -> & _)|(a & -> & _)]); done.
    + intros (b & Hb & [Hk _]). apply step_event in Hb.
      destruct it as [u|r|text|toolCall]; [done|..].
      * by rewrite Hk in Hb.
      * apply outputFrom_absent_started. simpl. apply emitText_started.
      * destruct Hb as (c0 & m & _ & [(n & -> & _)|(a & -> & _)]); done.
Qed.

Lemma completeToolCalls_precedes c calls :
  (forall k' tc, (k', tc) ∈ calls -> tc_id tc = k') -> NoDup calls.*1 ->
  precedes ToolInputEnd ToolCall c (snd (completeToolCalls calls)).
Proof.
  induction calls as [|[k0 tc0] calls IH]; intros Hid Hnd.
  - apply precedes_absent_l, absent_nil.
  - rewrite completeToolCalls_cons. apply NoDup_cons in Hnd as [Hk0 Hnd].
    assert (forall k' tc, (k', tc) ∈ calls -> tc_id tc = k') as Hid'.
    { intros k' tc H. apply Hid. by apply elem_of_cons; right. }
    assert (tc_id tc0 = k0) as Hid0 by (apply Hid; by apply elem_of_cons; left).
    apply precedes_app; [|by apply IH|].
    + unfold completionEvents. destruct (tc_completed tc0).
      * apply precedes_absent_l, absent_nil.
      * apply precedes_pair; [left|]; by intros [? _].
    + intros (b & Hb & [_ Hc]). apply completeToolCalls_id; [done|].
      unfold completionEvents in Hb. destruct (tc_completed tc0);
        [by apply elem_of_nil in Hb|].
      assert (tc_id tc0 = c) as <-.
      { apply elem_of_cons in Hb as [->|Hb]; [simpl in Hc; congruence|].
        apply list_elem_of_singleton in Hb as ->. simpl in Hc. congruence. }
      by rewrite Hid0.
Qed.

Lemma flush_precedes c s :
  wellFormed s -> precedes ToolInputEnd ToolCall c (snd (flush s)).
Proof.
  intros W. rewrite flush_events. apply precedes_app.
  - apply completeToolCalls_precedes; [|apply W]. intros k' tc. by apply wellFormed_ids.
  - apply precedes_absent_l, absent_kind. intros e He.
    apply completeText_event in He as (id & -> & _). done.
  - intros _. apply absent_kind. intros e He.
    apply completeText_event in He as (id & -> & _). done.
Qed.

(** [tool-input-end] for [c] comes before [tool-call] for [c]. *)
Lemma outputFrom_end_call c s items :
  wellFormed s -> precedes ToolInputEnd ToolCall c (outputFrom s items).
Proof.
  revert s. induction items as [|it rest IH]; intros s W.
  - rewrite outputFrom_nil, finalize_snd. apply precedes_finish; [|done].
    by apply flush_precedes.
  - rewrite outputFrom_cons.
    apply precedes_app; [|apply IH; by apply wellFormed_step|].
    + destruct it as [u|r|text|toolCall]; simpl.
      * apply precedes_absent_l, absent_nil.
      * apply flush_precedes. by destruct W.
      * apply precedes_absent_l, absent_kind. intros e He.
        apply (step_event s (contentItem text)) in He as [->|[-> _]]; done.
      * apply precedes_absent_l, absent_kind. intros e He.
        apply (step_event s (fragmentItem toolCall)) in He
          as (c0 & m & _ & [(n & -> & _)|(a & -> & _)]); done.
    + intros (b & Hb & [Hk Hc]).
      destruct it as [u|r|text|toolCall].
      * by apply elem_of_nil in Hb.
      * simpl in *.
        assert (wellFormed (set_finishReason (mapHeliconeFinishReason r) s)) as W'
          by (by destruct W).
        apply outputFrom_absent_completed; [by apply wellFormed_flush| |by left].
        apply (flush_completes c _ b W' Hb Hc). congruence.
      * apply (step_event s (contentItem text)) in Hb as [->|[-> _]]; done.
      * apply (step_event s (fragmentItem toolCall)) in Hb
          as (c0 & m & _ & [(n & -> & _)|(a & -> & _)]); done.
Qed.

Lemma silentAfterFinish_cons loud it rest :
  silentAfterFinish loud (it :: rest) = true ->
  silentAfterFinish loud rest = true /\
  (isSignal it = true -> forallb (fun it' => negb (loud it')) rest = true).
Proof.
  simpl. destruct (isSignal it); [|done]. intros H. split; [|done].
  clear it. induction rest as [|it rest IH]; [done|]. simpl in *.
  apply andb_true_iff in H as [_ H]. destruct (isSignal it); [done | by apply IH].
Qed.

Lemma step_producer s it e : e ∈ snd (step s it) -> producer (kind e) it = true.
Proof.
  intros He. apply step_event in He. destruct it as [u|r|text|toolCall]; [done|..].
  - by destruct (kind e).
  - by destruct He as [->|[-> _]].
  - by destruct He as (c0 & m & _ & [(n & -> & _)|(a & -> & _)]).
Qed.

(** Without an item to produce it, no part of a kind of the deltas. *)
Lemma outputFrom_absent_silent k c s items :
  forallb (fun it => negb (producer k it)) items = true ->
  payloadKind k = true ->
  absent k c (outputFrom s items).
Proof.
  intros H Hk. revert s H.
  apply (outputFrom_absent_ind k c
           (fun _ items => forallb (fun it => negb (producer k it)) items = true)).
  - intros s _. apply absent_kind. intros e He E. apply flush_kinds in He.
    apply flushKind_payloadKind in He. congruence.
  - intros s it rest H. simpl in H. apply andb_true_iff in H as [H1 H2].
    split; [|done]. apply absent_kind. intros e He E. apply step_producer in He.
    rewrite E in He. by rewrite He in H1.
  - by destruct k.
Qed.

(** When no item that produces the kind [k1] of the deltas follows a
    finish signal, the parts of kind [k1] come before the parts of the
    flush. *)
Lemma outputFrom_quiet k1 k2 c s items :
  silentAfterFinish (producer k1) items = true ->
  payloadKind k1 = true -> flushKind k2 = true ->
  precedes k1 k2 c (outputFrom s items).
Proof.
  intros H Hk1 Hk2. revert s H. induction items as [|it rest IH]; intros s H.
  - apply precedes_absent_l. by apply outputFrom_absent_silent.
  - apply silentAfterFinish_cons in H as [Hrest Hsig].
    rewrite outputFrom_cons. destruct (isSignal it) eqn:Hs.
    + apply precedes_absent_l, absent_app. split.
      * apply absent_kind. intros e He E. apply step_kinds in He. rewrite Hs in He.
        apply flushKind_payloadKind in He. congruence.
      * apply outputFrom_absent_silent; auto.
    + assert (absent k2 c (snd (step s it))) as Habs.
      { apply absent_kind. intros e He E. apply step_kinds in He. rewrite Hs in He.
        destruct He as [_ He]. rewrite E in He. apply flushKind_payloadKind in Hk2.
        congruence. }
      apply precedes_app; [by apply precedes_absent_r | by apply IH |].
      intros (b & Hb & Hp). by destruct (Habs b Hb).
Qed.

(** [text-start] comes before [text-end]. *)
Lemma outputFrom_text_start_end c s items :
  wellFormed s -> precedes TextStart TextEnd c (outputFrom s items).
Proof.
  revert s. induction items as [|it rest IH]; intros s W.
  - rewrite outputFrom_nil, finalize_snd. apply precedes_finish; [|done].
    apply precedes_absent_l, absent_kind. intros e He E. apply flush_kinds in He.
    by rewrite E in He.
  - rewrite outputFrom_cons.
    apply precedes_app; [|apply IH; by apply wellFormed_step|].
    + destruct it as [u|r|text|toolCall]; simpl.
      * apply precedes_absent_l, absent_nil.
      * apply precedes_absent_l, absent_kind. intros e He E. apply flush_kinds in He.
        by rewrite E in He.
      * apply precedes_absent_r, absent_kind. intros e He.
        apply (step_event s (contentItem text)) in He as [->|[-> _]]; done.
      * apply precedes_absent_l, absent_kind. intros e He.
        apply (step_event s (fragmentItem toolCall)) in He
          as (c0 & m & _ & [(n & -> & _)|(a & -> & _)]); done.
    + intros (b & Hb & [Hk Hc]). apply outputFrom_absent_started.
      destruct it as [u|r|text|toolCall].
      * by apply elem_of_nil in Hb.
      * simpl in *. rewrite flush_events, elem_of_app in Hb. destruct Hb as [Hb|Hb].
        -- apply completeToolCalls_event in Hb as (k & tc & _ & _ & [->| ->]); done.
        -- apply completeText_event in Hb as (id & -> & Hid).
           destruct (flush_fields (set_finishReason (mapHeliconeFinishReason r) s))
             as (_ & _ & -> & _).
           simpl in *. destruct (wf_started s W) as [E|E]; rewrite E in *.
           ++ by apply elem_of_nil in Hid.
           ++ by apply list_elem_of_singleton.
      * apply (step_event s (contentItem text)) in Hb as [->|[-> _]]; done.
      * apply (step_event s (fragmentItem toolCall)) in Hb
          as (c0 & m & _ & [(n & -> & _)|(a & -> & _)]); done.
Qed.

Lemma allNamed_step s it :
  wellFormed s -> allNamed s -> namedWithId it = true -> allNamed (fst (step s it)).
Proof.
  intros W Hall Hit c tc. destruct it as [u|r|text|toolCall]; simpl.
  - apply Hall.
  - rewrite flush_get. simpl. destruct (getCall c (toolCalls s)) as [tc0|] eqn:G; [|done].
    simpl. intros [= <-]. simpl. by apply (Hall c).
  - destruct (emitText_frame s text) as (_ & _ & -> & _). apply Hall.
  - unfold handleToolCall. destruct (resolveToolId _ _) as [[c0 m]|] eqn:R; [|apply Hall].
    rewrite trackFragment_get. simpl. destruct (decide (c0 = c)) as [->|]; [|apply Hall].
    intros [= <-]. rewrite applyFragment_name.
    destruct (JS.truthy (tcd_function toolCall ≫= fn_name)) as [n|] eqn:En.
    + apply truthy_nonempty in En as [_ Hn].
      destruct (tc_name (currentCall c (toolCalls s))) eqn:Ec; [done|]. congruence.
    + simpl in Hit. rewrite En in Hit. unfold resolveToolId in R.
      destruct (JS.truthy (tcd_id toolCall)); [done|].
      destruct (tcd_index toolCall) as [i|]; [|done].
      destruct (indexToId s !! i) as [c'|] eqn:Ei; [|done]. injection R as -> _.
      destruct (wf_indexed s W i c Ei) as [tc G]. unfold currentCall. rewrite G. simpl.
      destruct (tc_name tc) eqn:Ec; [|done]. by destruct (Hall c tc G).
Qed.

Lemma applyFragment_precedes c c0 fn tc :
  precedes ToolInputStart ToolInputDelta c (snd (applyFragment c0 fn tc)).
Proof.
  rewrite applyFragment_events.
  destruct (JS.truthy (fn ≫= fn_name)) as [n|]; [destruct (tc_name tc)|];
    destruct (JS.truthy (fn ≫= fn_arguments)) as [x|]; simpl.
  all: try (apply precedes_absent_l, absent_nil).
  - apply precedes_pair; [left|]; by intros [? _].
  - apply precedes_absent_r, absent_kind. intros e He.
    apply list_elem_of_singleton in He as ->. done.
  - apply precedes_absent_l, absent_kind. intros e He.
    apply list_elem_of_singleton in He as ->. done.
  - apply precedes_absent_l, absent_kind. intros e He.
    apply list_elem_of_singleton in He as ->. done.
Qed.

(** When the name comes with the id, [tool-input-start] for [c] comes
    before every [tool-input-delta] for [c]. *)
Lemma outputFrom_start_delta c s items :
  wellFormed s -> allNamed s -> forallb namedWithId items = true ->
  precedes ToolInputStart ToolInputDelta c (outputFrom s items).
Proof.
  revert s. induction items as [|it rest IH]; intros s W Hall H.
  - rewrite outputFrom_nil, finalize_snd. apply precedes_finish; [|done].
    apply precedes_absent_l, absent_kind. intros e He E. apply flush_kinds in He.
    by rewrite E in He.
  - simpl in H. apply andb_true_iff in H as [Hit Hrest].
    pose proof (allNamed_step s it W Hall Hit) as Hall'.
    rewrite outputFrom_cons.
    apply precedes_app; [|apply IH; [by apply wellFormed_step|done..]|].
    + destruct it as [u|r|text|toolCall]; simpl.
      * apply precedes_absent_l, absent_nil.
      * apply precedes_absent_l, absent_kind. intros e He E. apply flush_kinds in He.
        by rewrite E in He.
      * apply precedes_absent_l, absent_kind. intros e He.
        apply (step_event s (contentItem text)) in He as [->|[-> _]]; done.
      * rewrite handleToolCall_events.
        destruct (resolveToolId _ _) as [[c0 m]|];
          [apply applyFragment_precedes | apply precedes_absent_l, absent_nil].
    + intros (b & Hb & [Hk Hc]). apply outputFrom_absent_named.
      destruct it as [u|r|text|toolCall].
      * by apply elem_of_nil in Hb.
      * apply (step_event s (finishItem r)) in Hb. by rewrite Hk in Hb.
      * apply (step_event s (contentItem text)) in Hb as [->|[-> _]]; done.
      * pose proof Hb as Hb'.
        apply (step_event s (fragmentItem toolCall)) in Hb
          as (c0 & m & R & [(n & -> & _)|(a & -> & _)]); [done|].
        simpl in Hc. injection Hc as ->.
        simpl in *. unfold handleToolCall in *. rewrite R in *.
        eexists. split; [by rewrite trackFragment_get, decide_True|].
        apply (Hall' c). by rewrite trackFragment_get, decide_True.
Qed.

(** C1, as the code has it.  The output ends with its only [finish];
    [tool-input-end] precedes [tool-call], and [text-start] precedes every
    [text-delta] and [text-end].  When no fragment follows a finish
    signal, [tool-input-start] and [tool-input-delta] precede
    [tool-input-end] and [tool-call]; when no content follows a finish
    signal, every [text-delta] precedes [text-end]; when every fragment
    with an id has a name, [tool-input-start] precedes every
    [tool-input-delta].  Under the three conditions the output is
    ordered. *)
Theorem ordering chunks :
  let out := fst (doStream chunks source_done) in
  let items := streamItems chunks in
  finishesLast out
  /\ (forall c, precedes ToolInputEnd ToolCall c out /\
                precedes TextStart TextDelta c out /\
                precedes TextStart TextEnd c out)
  /\ (silentAfterFinish isFragment items = true ->
      forall c, precedes ToolInputStart ToolInputEnd c out /\
                precedes ToolInputStart ToolCall c out /\
                precedes ToolInputDelta ToolInputEnd c out /\
                precedes ToolInputDelta ToolCall c out)
  /\ (silentAfterFinish isContent items = true ->
      forall c, precedes TextDelta TextEnd c out)
  /\ (forallb namedWithId items = true ->
      forall c, precedes ToolInputStart ToolInputDelta c out)
  /\ (silentAfterFinish isFragment items = true ->
      silentAfterFinish isContent items = true ->
      forallb namedWithId items = true ->
      ordered out).
Proof.
  rewrite doStream_done. simpl.
  assert (finishesLast (outputFrom initialSession (streamItems chunks))) as F.
  { destruct (outputFrom_finishesLast initialSession (streamItems chunks))
      as (pre & E & Hpre). eexists pre, _, _. by split. }
  assert (forall c, precedes ToolInputStart ToolInputDelta c
                      (outputFrom initialSession (streamItems chunks))
          \/ forallb namedWithId (streamItems chunks) <> true) as N.
  { intros c. destruct (forallb namedWithId (streamItems chunks)) eqn:E; [left|by right].
    apply outputFrom_start_delta; [apply wellFormed_initial| |done].
    intros c' tc. done. }
  split; [done|]. split; [|split; [|split; [|split]]].
  - intros c. split; [apply outputFrom_end_call, wellFormed_initial|].
    split; [apply outputFrom_text_start|].
    apply outputFrom_text_start_end, wellFormed_initial.
  - intros Q c. repeat split.
    + by apply (outputFrom_quiet ToolInputStart ToolInputEnd).
    + by apply (outputFrom_quiet ToolInputStart ToolCall).
    + by apply (outputFrom_quiet ToolInputDelta ToolInputEnd).
    + by apply (outputFrom_quiet ToolInputDelta ToolCall).
  - intros Q c. by apply (outputFrom_quiet TextDelta TextEnd).
  - intros Hn c. by destruct (N c).
  - intros Q Q' Hn. split; [|done]. intros c. repeat split.
    + by destruct (N c).
    + by apply (outputFrom_quiet ToolInputStart ToolInputEnd).
    + by apply (outputFrom_quiet ToolInputDelta ToolCall).
    + apply outputFrom_end_call, wellFormed_initial.
    + apply outputFrom_text_start.
    + by apply (outputFrom_quiet TextDelta TextEnd).
Qed.

(** ** The [tool-call] part of one call *)

Lemma handleToolCall_resolved s toolCall c0 m :
  resolveToolId (indexToId s) toolCall = Some (c0, m) ->
  indexToId (fst (handleToolCall s toolCall)) = m /\
  forall c, getCall c (toolCalls (fst (handleToolCall s toolCall))) =
              if decide (c0 = c)
              then Some (fst (applyFragment c0 (tcd_function toolCall)
                                (currentCall c0 (toolCalls s))))
              else getCall c (toolCalls s).
Proof.
  intros R. unfold handleToolCall. rewrite R. split.
  - by destruct (trackFragment_frame c0 (set_indexToId m s) toolCall) as (_ & _ & -> & _).
  - intros c. by rewrite trackFragment_get.
Qed.

Lemma handleToolCall_dropped s toolCall :
  resolveToolId (indexToId s) toolCall = None -> handleToolCall s toolCall = (s, []).
Proof. intros R. unfold handleToolCall. by rewrite R. Qed.

Lemma flush_announces c tc s :
  wellFormed s -> getCall c (toolCalls s) = Some tc -> tc_completed tc = false ->
  exists pre post,
    snd (flush s) = pre ++ tool_input_end c :: tool_call c (tc_name tc) (tc_arguments tc) :: post.
Proof.
  intros W G Hc. rewrite flush_events, completeToolCalls_snd.
  pose proof (wf_keys s W c tc G) as Hid.
  apply getCall_Some_elem, list_elem_of_split in G as (l1 & l2 & ->).
  rewrite fmap_app, concat_app. csimpl. unfold completionEvents at 2.
  rewrite Hc, Hid. eexists _, _. rewrite <- app_assoc. simpl. reflexivity.
Qed.

Lemma replay_cons c tc fn fns :
  replay c tc (fn :: fns) = replay c (fst (applyFragment c fn tc)) fns.
Proof. reflexivity. Qed.

(** An open call is announced by the next flush, with what its fragments
    up to there made of it. *)
Lemma outputFrom_call_open c items : forall s tc,
  wellFormed s -> getCall c (toolCalls s) = Some tc -> tc_completed tc = false ->
  exists pre post,
    outputFrom s items =
      pre ++ tool_input_end c
          :: tool_call c (tc_name (replay c tc (firstSpan (indexToId s) c true items)))
               (tc_arguments (replay c tc (firstSpan (indexToId s) c true items)))
          :: post.
Proof.
  induction items as [|it rest IH]; intros s tc W G Hc.
  - rewrite outputFrom_nil, finalize_snd.
    destruct (flush_announces c tc s W G Hc) as (pre & post & ->).
    eexists _, _. rewrite <- app_assoc. simpl. reflexivity.
  - rewrite outputFrom_cons. pose proof (wellFormed_step s it W) as W'.
    destruct it as [u|r|text|toolCall]; simpl in *.
    + destruct (IH _ tc W' G Hc) as (pre & post & ->). by eexists _, _.
    + assert (wellFormed (set_finishReason (mapHeliconeFinishReason r) s)) as W0
        by (by destruct W).
      destruct (flush_announces c tc _ W0 G Hc) as (pre & post & ->).
      eexists _, _. rewrite <- app_assoc. simpl. reflexivity.
    + destruct (emitText_frame s text) as (_ & _ & Ec & Ei & _).
      rewrite <- Ec in G. rewrite <- Ei.
      destruct (IH _ tc W' G Hc) as (pre & post & ->).
      eexists _, _. rewrite app_assoc. reflexivity.
    + destruct (resolveToolId (indexToId s) toolCall) as [[c0 m]|] eqn:R.
      * destruct (handleToolCall_resolved s toolCall c0 m R) as [Ei G'].
        specialize (G' c). rewrite <- Ei.
        destruct (decide (c0 = c)) as [->|Hne].
        -- unfold currentCall in G'. rewrite G in G'. simpl in G'.
           rewrite replay_cons.
           destruct (IH _ _ W' G') as (pre & post & ->);
             [by rewrite applyFragment_completed|].
           eexists _, _. rewrite app_assoc. reflexivity.
        -- rewrite G in G'.
           destruct (IH _ _ W' G' Hc) as (pre & post & ->).
           eexists _, _. rewrite app_assoc. reflexivity.
      * rewrite (handleToolCall_dropped s toolCall R). simpl.
        destruct (IH _ tc W G Hc) as (pre & post & ->). by eexists _, _.
Qed.

(** A call that is not tracked yet and has fragments to come. *)
Lemma outputFrom_call_new c items : forall s,
  wellFormed s -> getCall c (toolCalls s) = None ->
  delivered (indexToId s) c items <> [] ->
  exists pre post,
    outputFrom s items =
      pre ++ tool_input_end c
          :: tool_call c
               (tc_name (replay c (newCall c) (firstSpan (indexToId s) c false items)))
               (tc_arguments (replay c (newCall c) (firstSpan (indexToId s) c false items)))
          :: post.
Proof.
  induction items as [|it rest IH]; intros s W G D; [done|].
  rewrite outputFrom_cons. pose proof (wellFormed_step s it W) as W'.
  destruct it as [u|r|text|toolCall]; simpl in *.
  - destruct (IH _ W' G D) as (pre & post & ->). by eexists _, _.
  - pose proof (flush_get c (set_finishReason (mapHeliconeFinishReason r) s)) as G'.
    destruct (flush_fields (set_finishReason (mapHeliconeFinishReason r) s))
      as (_ & Ei & _).
    simpl in G', Ei. rewrite G in G'. rewrite <- Ei in D |- *.
    destruct (IH _ W' G' D) as (pre & post & ->).
    eexists _, _. rewrite app_assoc. reflexivity.
  - destruct (emitText_frame s text) as (_ & _ & Ec & Ei & _).
    rewrite <- Ec in G. rewrite <- Ei in D |- *.
    destruct (IH _ W' G D) as (pre & post & ->).
    eexists _, _. rewrite app_assoc. reflexivity.
  - destruct (resolveToolId (indexToId s) toolCall) as [[c0 m]|] eqn:R.
    + destruct (handleToolCall_resolved s toolCall c0 m R) as [Ei G'].
      specialize (G' c). rewrite <- Ei in D |- *.
      destruct (decide (c0 = c)) as [->|Hne].
      * unfold currentCall in G'. rewrite G in G'. simpl in G'.
        rewrite replay_cons.
        destruct (outputFrom_call_open c rest _ _ W' G') as (pre & post & ->);
          [by rewrite applyFragment_completed|].
        eexists _, _. rewrite app_assoc. reflexivity.
      * rewrite G in G'.
        destruct (IH _ W' G' D) as (pre & post & ->).
        eexists _, _. rewrite app_assoc. reflexivity.
    + rewrite (handleToolCall_dropped s toolCall R). simpl.
      destruct (IH _ W G D) as (pre & post & ->). by eexists _, _.
Qed.

(** A call without fragments has no part of the flush. *)
Lemma outputFrom_absent_unknown k c s items :
  wellFormed s -> getCall c (toolCalls s) = None ->
  delivered (indexToId s) c items = [] ->
  k = ToolInputEnd \/ k = ToolCall ->
  absent k c (outputFrom s items).
Proof.
  intros W G D Hk. revert s W G D.
  cut (forall s, wellFormed s /\ getCall c (toolCalls s) = None /\
                 delivered (indexToId s) c items = [] ->
                 absent k c (outputFrom s items)); [by auto|].
  intros s. apply (outputFrom_absent_ind k c
    (fun s items => wellFormed s /\ getCall c (toolCalls s) = None /\
                    delivered (indexToId s) c items = [])).
  - intros s' (W & G & _) e He [Hke Hce].
    destruct (flush_tool_event s' c e W He Hce) as (tc & G' & _); [|congruence].
    destruct Hk as [->| ->]; congruence.
  - intros s' it rest (W & G & D). pose proof (wellFormed_step s' it W) as W'.
    destruct it as [u|r|text|toolCall]; simpl in *.
    + split; [apply absent_nil | done].
    + assert (wellFormed (set_finishReason (mapHeliconeFinishReason r) s')) as W0
        by (by destruct W).
      split.
      * intros e He [Hke Hce].
        destruct (flush_tool_event _ c e W0 He Hce) as (tc & G' & _); [|simpl in G'; congruence].
        destruct Hk as [->| ->]; congruence.
      * split; [done|]. rewrite flush_get. simpl. rewrite G.
        destruct (flush_fields (set_finishReason (mapHeliconeFinishReason r) s'))
          as (_ & -> & _). done.
    + destruct (emitText_frame s' text) as (_ & _ & -> & -> & _).
      split; [|done]. apply absent_kind. intros e He.
      apply (step_event s' (contentItem text)) in He as [->|[-> _]];
        destruct Hk as [->| ->]; done.
    + split.
      * apply absent_kind. intros e He.
        apply (step_event s' (fragmentItem toolCall)) in He
          as (c0 & m & _ & [(n & -> & _)|(a & -> & _)]); destruct Hk as [->| ->]; done.
      * split; [done|].
        destruct (resolveToolId (indexToId s') toolCall) as [[c0 m]|] eqn:R.
        -- destruct (handleToolCall_resolved s' toolCall c0 m R) as [-> G'].
           rewrite G'.
           by destruct (decide (c0 = c)) as [->|Hne].
        -- by rewrite (handleToolCall_dropped s' toolCall R).
  - destruct Hk as [->| ->]; done.
Qed.

(** The [tool-call] part for [c]: there is one exactly when a fragment
    was correlated with [c], and it carries what the fragments from the
    first one to the next finish signal made of the tracked object. *)
Lemma tool_call_part chunks c :
  let items := streamItems chunks in
  let out := fst (doStream chunks source_done) in
  let tc := replay c (newCall c) (firstSpan ∅ c false items) in
  (delivered ∅ c items <> [] ->
     exists pre post,
       out = pre ++ tool_input_end c
                 :: tool_call c (tc_name tc) (tc_arguments tc) :: post)
  /\ (forall n input, tool_call c n input ∈ out ->
        delivered ∅ c items <> [] /\ n = tc_name tc /\ input = tc_arguments tc).
Proof.
  intros items out tc. subst out. rewrite doStream_done. simpl. fold items.
  assert (delivered ∅ c items <> [] ->
          exists pre post,
            outputFrom initialSession items
            = pre ++ tool_input_end c :: tool_call c (tc_name tc) (tc_arguments tc) :: post)
    as Hex.
  { intros D. by apply (outputFrom_call_new c items initialSession wellFormed_initial). }
  split; [done|]. intros n input Hin.
  destruct (decide (delivered ∅ c items = [])) as [D|D].
  - exfalso.
    apply (outputFrom_absent_unknown ToolCall c initialSession items
             wellFormed_initial eq_refl D (or_intror eq_refl) _ Hin).
    done.
  - split; [done|]. destruct (Hex D) as (pre & post & E).
    pose proof (outputFrom_at_most_once ToolCall c initialSession items
                  wellFormed_initial eq_refl) as O.
    rewrite E in O, Hin.
    change (pre ++ tool_input_end c :: tool_call c (tc_name tc) (tc_arguments tc) :: post)
      with (pre ++ [tool_input_end c] ++ tool_call c (tc_name tc) (tc_arguments tc) :: post)
      in O, Hin.
    rewrite app_assoc in O, Hin.
    assert (tool_call c n input = tool_call c (tc_name tc) (tc_arguments tc)) as [= -> ->];
      [|done].
    by apply (occurrences_unique ToolCall c _ _ _ _ O).
Qed.

(** ** What the fragments make of the tracked object *)

Lemma replay_arguments c fns : forall tc,
  tc_arguments (replay c tc fns) = accumulated (tc_arguments tc) (argumentTexts fns).
Proof.
  induction fns as [|fn fns IH]; intros tc; [done|].
  rewrite replay_cons, IH, applyFragment_arguments. unfold argumentTexts. csimpl.
  by destruct (JS.truthy (fn ≫= fn_arguments)).
Qed.

Lemma replay_unnamed c fns : forall tc,
  Forall (fun fn => JS.truthy (fn ≫= fn_name) = None) fns ->
  tc_name (replay c tc fns) = tc_name tc.
Proof.
  induction fns as [|fn fns IH]; intros tc H; [done|].
  apply Forall_cons in H as [Hfn H].
  by rewrite replay_cons, IH, applyFragment_name, Hfn.
Qed.

Lemma firstSpan_delivered m c opened items fn :
  fn ∈ firstSpan m c opened items -> fn ∈ delivered m c items.
Proof.
  revert m opened. induction items as [|it rest IH]; intros m opened; [done|].
  destruct it as [u|r|text|toolCall]; simpl; try apply IH.
  - destruct opened; [intros H; by apply elem_of_nil in H | apply IH].
  - destruct (resolveToolId m toolCall) as [[c0 m']|]; [|apply IH].
    destruct (decide (c0 = c)); [|apply IH].
    intros H. apply elem_of_cons in H as [->|H]; apply elem_of_cons; [by left|].
    right. by apply (IH m' true).
Qed.

Lemma delivered_no_fragment m c items :
  forallb (fun it => negb (isFragment it)) items = true -> delivered m c items = [].
Proof.
  induction items as [|it rest IH]; [done|]. simpl. intros H.
  apply andb_true_iff in H as [H1 H2]. destruct it; try done; by apply IH.
Qed.

Lemma firstSpan_no_fragment m c opened items :
  forallb (fun it => negb (isFragment it)) items = true -> firstSpan m c opened items = [].
Proof.
  revert opened. induction items as [|it rest IH]; intros opened; [done|]. simpl.
  intros H. apply andb_true_iff in H as [H1 H2].
  destruct it; try done; try (by apply IH). destruct opened; [done | by apply IH].
Qed.

(** When no fragment follows a finish signal, the first span of a call
    holds all its fragments. *)
Lemma firstSpan_silent m c opened items :
  silentAfterFinish isFragment items = true ->
  firstSpan m c opened items = delivered m c items.
Proof.
  revert m opened. induction items as [|it rest IH]; intros m opened H; [done|].
  apply silentAfterFinish_cons in H as [Hrest Hsig].
  destruct it as [u|r|text|toolCall]; simpl; try (by apply IH).
  - rewrite (delivered_no_fragment m c rest) by auto.
    destruct opened; [done|]. apply firstSpan_no_fragment. auto.
  - destruct (resolveToolId m toolCall) as [[c0 m']|]; [|by apply IH].
    destruct (decide (c0 = c)); [|by apply IH]. f_equal. by apply IH.
Qed.

(** Without a name among the fragments of [c], no [tool-input-start]. *)
Lemma outputFrom_absent_unnamed c s items :
  Forall (fun fn => JS.truthy (fn ≫= fn_name) = None) (delivered (indexToId s) c items) ->
  absent ToolInputStart c (outputFrom s items).
Proof.
  revert s. apply (outputFrom_absent_ind ToolInputStart c
    (fun s items => Forall (fun fn => JS.truthy (fn ≫= fn_name) = None)
                           (delivered (indexToId s) c items))); [| |done].
  - intros s _. apply absent_kind. intros e He E. apply flush_kinds in He.
    by rewrite E in He.
  - intros s it rest H. destruct it as [u|r|text|toolCall]; simpl in *.
    + split; [apply absent_nil | done].
    + split.
      * apply absent_kind. intros e He E. apply flush_kinds in He. by rewrite E in He.
      * by destruct (flush_fields (set_finishReason (mapHeliconeFinishReason r) s))
          as (_ & -> & _).
    + split.
      * apply absent_kind. intros e He.
        apply (step_event s (contentItem text)) in He as [->|[-> _]]; done.
      * by destruct (emitText_frame s text) as (_ & _ & _ & -> & _).
    + destruct (resolveToolId (indexToId s) toolCall) as [[c0 m]|] eqn:R.
      * destruct (handleToolCall_resolved s toolCall c0 m R) as [-> _].
        rewrite handleToolCall_events, R.
        destruct (decide (c0 = c)) as [->|Hne].
        -- apply Forall_cons in H as [Hfn H]. split; [|done].
           intros e He [Hk Hc].
           apply applyFragment_event in He as [(n & -> & Hn & _)|(a & -> & _)];
             [congruence | done].
        -- split; [|done]. apply absent_id. intros e He.
           apply applyFragment_event in He as [(n & -> & _)|(a & -> & _)];
             simpl; congruence.
      * rewrite (handleToolCall_dropped s toolCall R). split; [apply absent_nil | done].
Qed.

(** C9.  A call with fragments, none of which carries a name, has no
    [tool-input-start]; its [tool-input-end] is followed at once by its
    [tool-call], whose name is empty and whose input is the buffer that
    its fragments up to the flush accumulated. *)
Theorem unnamed_call chunks c :
  let items := streamItems chunks in
  let out := fst (doStream chunks source_done) in
  delivered ∅ c items <> [] ->
  Forall (fun fn => JS.truthy (fn ≫= fn_name) = None) (delivered ∅ c items) ->
  absent ToolInputStart c out
  /\ exists pre post,
       out = pre ++ tool_input_end c
                 :: tool_call c EmptyString
                      (accumulated "{}" (argumentTexts (firstSpan ∅ c false items)))
                 :: post.
Proof.
  intros items out D Hn. split.
  - subst out. rewrite doStream_done. by apply outputFrom_absent_unnamed.
  - destruct (tool_call_part chunks c) as [Hex _].
    destruct (Hex D) as (pre & post & E). exists pre, post. fold out in E.
    rewrite E, replay_arguments, replay_unnamed; [done|].
    apply Forall_forall. intros fn Hfn. rewrite Forall_forall in Hn.
    apply Hn. by apply firstSpan_delivered in Hfn.
Qed.

Lemma argumentTexts_none fns :
  Forall (fun fn => JS.truthy (fn ≫= fn_arguments) = None) fns -> argumentTexts fns = [].
Proof.
  unfold argumentTexts. induction 1 as [|fn fns Hfn _ IH]; [done|]. csimpl.
  by rewrite Hfn.
Qed.

(** C10.  A fragment whose arguments are absent or empty enqueues no
    [tool-input-delta] and leaves every argument buffer as it is; the
    input of a call all of whose fragments are such is the sentinel. *)
Theorem empty_arguments :
  (forall s toolCall,
      JS.truthy (tcd_function toolCall ≫= fn_arguments) = None ->
      (forall e, e ∈ snd (handleToolCall s toolCall) -> kind e <> ToolInputDelta)
      /\ forall c,
           tc_arguments (currentCall c (toolCalls (fst (handleToolCall s toolCall))))
           = tc_arguments (currentCall c (toolCalls s)))
  /\ (forall chunks c n input,
        Forall (fun fn => JS.truthy (fn ≫= fn_arguments) = None)
               (delivered ∅ c (streamItems chunks)) ->
        tool_call c n input ∈ fst (doStream chunks source_done) ->
        input = "{}").
Proof.
  split.
  - intros s toolCall Ha. split.
    + intros e He. apply (step_event s (fragmentItem toolCall)) in He
        as (c0 & m & _ & [(n & -> & _)|(a & -> & Ha')]); [done | congruence].
    + intros c. destruct (resolveToolId (indexToId s) toolCall) as [[c0 m]|] eqn:R.
      * destruct (handleToolCall_resolved s toolCall c0 m R) as [_ G].
        unfold currentCall at 1. rewrite G.
        destruct (decide (c0 = c)) as [->|]; [|done].
        simpl. by rewrite applyFragment_arguments, Ha.
      * by rewrite (handleToolCall_dropped s toolCall R).
  - intros chunks c n input Ha Hin.
    destruct (tool_call_part chunks c) as [_ Hchar].
    destruct (Hchar n input Hin) as (_ & _ & ->).
    rewrite replay_arguments, argumentTexts_none; [done|].
    apply Forall_forall. intros fn Hfn. rewrite Forall_forall in Ha.
    apply Ha. by apply firstSpan_delivered in Hfn.
Qed.

(** The input of a [tool-call] part, when no fragment follows a finish
    signal: what lines 521-525 accumulate over the argument texts of the
    call. *)
Lemma input_accumulated chunks c n input :
  silentAfterFinish isFragment (streamItems chunks) = true ->
  tool_call c n input ∈ fst (doStream chunks source_done) ->
  input = accumulated "{}" (argumentTexts (delivered ∅ c (streamItems chunks))).
Proof.
  intros Q Hin. destruct (tool_call_part chunks c) as [_ Hchar].
  destruct (Hchar n input Hin) as (_ & _ & ->).
  by rewrite replay_arguments, firstSpan_silent.
Qed.

(** C2, as the code has it.  When no fragment follows a finish signal,
    the input of the [tool-call] part for [c] is the sentinel if no
    argument text was delivered for [c], and the concatenation of the
    argument texts delivered for [c], in arrival order, if the text
    delivered so far never was the sentinel when another one came. *)
Theorem input_concatenated chunks c n input :
  let items := streamItems chunks in
  let texts := argumentTexts (delivered ∅ c items) in
  silentAfterFinish isFragment items = true ->
  tool_call c n input ∈ fst (doStream chunks source_done) ->
  (texts = [] -> input = "{}")
  /\ ((forall pre post, texts = pre ++ post -> pre <> [] -> post <> [] ->
                        concatenation pre <> "{}") ->
      texts <> [] -> input = concatenation texts).
Proof.
  intros items texts Q Hin. rewrite (input_accumulated chunks c n input Q Hin).
  fold items. fold texts. split.
  - by intros ->.
  - apply accumulated_concatenation.
Qed.

(** ** The [completed] flag *)

Lemma rises_chain flags : forall x,
  chain (x :: flags) -> last (x :: flags) = Some (Some true) ->
  rises (x :: flags) = (if x is Some true then 0 else 1)%nat /\ falls (x :: flags) = O.
Proof.
  induction flags as [|y flags IH]; intros x Hc Hl.
  - simpl in Hl. injection Hl as ->. done.
  - destruct Hc as [Hxy Hc]. rewrite last_cons_cons in Hl.
    destruct (IH y Hc Hl) as [Hr Hf].
    destruct x as [[|]|], y as [[|]|]; try done; simpl in *; rewrite ?Hr, ?Hf; done.
Qed.

Lemma finalize_fst s : fst (finalize s) = fst (flush s).
Proof. unfold finalize. by destruct (flush s). Qed.

Lemma flush_flag c s :
  completedFlag c (fst (flush s)) = (fun _ => true) <$> completedFlag c s.
Proof.
  unfold completedFlag. rewrite flush_get. by destruct (getCall c (toolCalls s)).
Qed.

Lemma steady_refl x : steady x x.
Proof. by destruct x as [[|]|]. Qed.

Lemma step_flag c s it :
  steady (completedFlag c s) (completedFlag c (fst (step s it))).
Proof.
  destruct it as [u|r|text|toolCall]; simpl.
  - apply steady_refl.
  - rewrite flush_flag. unfold completedFlag. simpl.
    by destruct (getCall c (toolCalls s)) as [[? ? ? [|]]|].
  - unfold completedFlag. destruct (emitText_frame s text) as (_ & _ & -> & _).
    apply steady_refl.
  - destruct (resolveToolId (indexToId s) toolCall) as [[c0 m]|] eqn:R.
    + destruct (handleToolCall_resolved s toolCall c0 m R) as [_ G].
      unfold completedFlag. rewrite G. destruct (decide (c0 = c)) as [->|].
      * simpl. rewrite applyFragment_completed. unfold currentCall.
        by destruct (getCall c (toolCalls s)) as [[? ? ? [|]]|].
      * apply steady_refl.
    + rewrite (handleToolCall_dropped s toolCall R). apply steady_refl.
Qed.

Lemma chain_sessions c items : forall s,
  chain (completedFlag c <$> sessions s items).
Proof.
  induction items as [|it rest IH]; intros s.
  - simpl. split; [|done]. rewrite finalize_fst, flush_flag.
    by destruct (completedFlag c s) as [[|]|].
  - specialize (IH (fst (step s it))). pose proof (step_flag c s it) as H.
    destruct rest; simpl in *; by split.
Qed.

Lemma sessions_head items s : exists l, sessions s items = s :: l.
Proof. destruct items; by eexists. Qed.

Lemma last_sessions items : forall s,
  last (sessions s items) = Some (finalSession s items).
Proof.
  induction items as [|it rest IH]; intros s; [done|].
  change (sessions s (it :: rest)) with (s :: sessions (fst (step s it)) rest).
  specialize (IH (fst (step s it))).
  unfold finalSession in *. rewrite run_cons. simpl.
  destruct (sessions (fst (step s it)) rest) eqn:E; [done|].
  by rewrite last_cons_cons.
Qed.

(** A completed call is changed by none but its own fragments. *)
Lemma step_frozen c s it :
  completedFlag c s = Some true ->
  getCall c (toolCalls (fst (step s it))) = getCall c (toolCalls s)
  \/ exists toolCall m,
       it = fragmentItem toolCall /\ resolveToolId (indexToId s) toolCall = Some (c, m).
Proof.
  unfold completedFlag. intros H. destruct it as [u|r|text|toolCall]; simpl.
  - by left.
  - left. rewrite flush_get. simpl.
    by destruct (getCall c (toolCalls s)) as [[? ? ? [|]]|].
  - left. by destruct (emitText_frame s text) as (_ & _ & -> & _).
  - destruct (resolveToolId (indexToId s) toolCall) as [[c0 m]|] eqn:R.
    + destruct (decide (c0 = c)) as [->|Hne]; [right; by exists toolCall, m|].
      left. destruct (handleToolCall_resolved s toolCall c0 m R) as [_ ->].
      by rewrite decide_False.
    + left. by rewrite (handleToolCall_dropped s toolCall R).
Qed.

Lemma step_completes c s it :
  isSignal it = false -> completedFlag c (fst (step s it)) = Some true ->
  completedFlag c s = Some true.
Proof.
  intros Hs. pose proof (step_flag c s it) as H. intros E. rewrite E in H.
  destruct (completedFlag c s) as [[|]|] eqn:F; try done.
  exfalso. revert E. unfold completedFlag in *.
  destruct it as [u|r|text|toolCall]; simpl in *; try done.
  - by rewrite F.
  - destruct (emitText_frame s text) as (_ & _ & -> & _).
    by destruct (getCall c (toolCalls s)) as [[? ? ? [|]]|].
  - destruct (resolveToolId (indexToId s) toolCall) as [[c0 m]|] eqn:R.
    + destruct (handleToolCall_resolved s toolCall c0 m R) as [_ ->].
      destruct (decide (c0 = c)) as [->|].
      * simpl. rewrite applyFragment_completed. unfold currentCall.
        by destruct (getCall c (toolCalls s)) as [[? ? ? [|]]|].
      * by destruct (getCall c (toolCalls s)) as [[? ? ? [|]]|].
    + rewrite (handleToolCall_dropped s toolCall R). simpl.
      by destruct (getCall c (toolCalls s)) as [[? ? ? [|]]|].
Qed.

(** A call is completed only after a finish signal. *)
Lemma run_completes c h : forall s,
  forallb (fun it => negb (isSignal it)) h = true ->
  completedFlag c (fst (run s h)) = Some true -> completedFlag c s = Some true.
Proof.
  induction h as [|it rest IH]; intros s H E; [done|].
  simpl in H. apply andb_true_iff in H as [H1 H2].
  rewrite run_cons in E. simpl in E. apply IH in E; [|done].
  apply (step_completes c s it); [|done]. by destruct (isSignal it).
Qed.

Lemma silentAfterFinish_app loud h l :
  silentAfterFinish loud (h ++ l) = true ->
  forallb (fun it => negb (isSignal it)) h = false ->
  forallb (fun it => negb (loud it)) l = true.
Proof.
  induction h as [|it rest IH]; [done|]. simpl.
  destruct (isSignal it); simpl.
  - rewrite forallb_app. intros H _. by apply andb_true_iff in H as [_ H].
  - apply IH.
Qed.

(** C8, as the code has it.  The [completed] flag of a call that is
    tracked when the stream closes went from [false] to [true] once and
    never left [true]; a completed call is changed by nothing but a
    fragment correlated with it; and when no fragment follows a finish
    signal, it is changed by nothing. *)
Theorem completed_once chunks c :
  let items := streamItems chunks in
  let flags := completedFlag c <$> sessions initialSession items in
  (completedFlag c (finalSession initialSession items) <> None ->
     rises flags = 1%nat /\ falls flags = O)
  /\ (forall h it rest,
        items = h ++ it :: rest ->
        completedFlag c (fst (run initialSession h)) = Some true ->
        getCall c (toolCalls (fst (step (fst (run initialSession h)) it)))
        = getCall c (toolCalls (fst (run initialSession h)))
        \/ exists toolCall m,
             it = fragmentItem toolCall /\
             resolveToolId (indexToId (fst (run initialSession h))) toolCall = Some (c, m))
  /\ (silentAfterFinish isFragment items = true ->
      forall h it rest,
        items = h ++ it :: rest ->
        completedFlag c (fst (run initialSession h)) = Some true ->
        getCall c (toolCalls (fst (step (fst (run initialSession h)) it)))
        = getCall c (toolCalls (fst (run initialSession h)))).
Proof.
  intros items flags. split; [|split].
  - intros Hf. subst flags.
    pose proof (chain_sessions c items initialSession) as Hc.
    pose proof (last_sessions items initialSession) as Hl.
    assert (last (completedFlag c <$> sessions initialSession items) = Some (Some true))
      as Hl'.
    { rewrite fmap_last, Hl. simpl. f_equal.
      unfold finalSession in *. rewrite finalize_fst, flush_flag in *.
      by destruct (completedFlag c _). }
    destruct (sessions_head items initialSession) as (l & E).
    rewrite E in Hc, Hl' |- *. by apply (rises_chain _ None).
  - intros h it rest _. apply step_frozen.
  - intros Q h it rest E Hc.
    destruct (step_frozen c _ it Hc) as [H|(toolCall & m & -> & _)]; [done|].
    exfalso. rewrite E in Q.
    assert (forallb (fun it => negb (isSignal it)) h = false) as Hs.
    { destruct (forallb _ h) eqn:F; [|done].
      by apply (run_completes c h initialSession F) in Hc. }
    by apply (silentAfterFinish_app _ _ _ Q) in Hs.
Qed.

End Properties.

(** * Further properties of the reader loop *)

Section Reader.

Context {collaborators : Collaborators}.

Lemma doStream_failed chunks :
  doStream chunks source_failed = (snd (run initialSession (streamItems chunks)), errored).
Proof.
  unfold doStream. rewrite processChunks_run.
  destruct (run initialSession (streamItems chunks)). reflexivity.
Qed.

(** X2. When reading the body fails, the stream is errored and holds no
    [finish] part; when the body ends, the stream is closed. *)
Theorem source_failure chunks :
  snd (doStream chunks source_failed) = errored /\
  (forall e, e ∈ fst (doStream chunks source_failed) -> kind e <> Finish) /\
  snd (doStream chunks source_done) = closed.
Proof.
  rewrite doStream_failed, doStream_done. simpl. split; [reflexivity|]. split; [|reflexivity].
  intros e. apply run_not_finish.
Qed.

Lemma split_lines_app_LF a b :
  JS.split_lines (String.append a (String JS.LF b)) = JS.split_lines a ++ JS.split_lines b.
Proof.
  induction a as [|c a IH].
  - reflexivity.
  - change (String.append (String c a) (String JS.LF b))
      with (String c (String.append a (String JS.LF b))).
    simpl. rewrite IH. destruct (Ascii.eqb c JS.LF); [reflexivity|].
    destruct (JS.split_lines a) as [|line lines] eqn:E; [|reflexivity].
    destruct a as [|c' a]; simpl in E; [discriminate|].
    destruct (Ascii.eqb c' JS.LF); [discriminate|].
    destruct (JS.split_lines a); discriminate.
Qed.

(** X3. Where the body is cut into chunks does not matter when the cut is
    at a line feed: a chunk [a\nb] and the two chunks [a] and [b] give the
    same stream. *)
Theorem chunking_at_line_feed before a b after ending :
  doStream (before ++ String.append a (String JS.LF b) :: after) ending
  = doStream (before ++ a :: b :: after) ending.
Proof.
  apply doStream_frames.
  rewrite !streamFrames_app, !streamFrames_cons. unfold chunkFrames.
  rewrite split_lines_app_LF, omap_app, <- app_assoc. reflexivity.
Qed.

Lemma passedOver_decodeLine line : passedOver line -> decodeLine line = None.
Proof.
  unfold decodeLine. intros [H|H]; rewrite H; [reflexivity|].
  destruct (negb _); [reflexivity|]. rewrite decide_True; reflexivity.
Qed.

(** X4. A line that does not start with [data: ] once trimmed, and the
    [DONE] sentinel, change nothing: the stream is the one of the body
    without that line.  In particular the sentinel does not end the
    reading, and the lines after it are processed. *)
Theorem passed_over_line before chunk chunk' after ls1 line ls2 ending :
  JS.split_lines chunk = ls1 ++ line :: ls2 ->
  JS.split_lines chunk' = ls1 ++ ls2 ->
  passedOver line ->
  doStream (before ++ chunk :: after) ending = doStream (before ++ chunk' :: after) ending.
Proof.
  intros E E' H. apply doStream_frames.
  rewrite !streamFrames_app, !streamFrames_cons. do 2 f_equal.
  unfold chunkFrames. rewrite E, E', !omap_app. csimpl.
  rewrite (passedOver_decodeLine _ H). reflexivity.
Qed.

(** ** What the parts carry *)

Lemma textOf_app out1 out2 : textOf (out1 ++ out2) = textOf out1 ++ textOf out2.
Proof. apply omap_app. Qed.

Lemma textOf_none out : (forall e, e ∈ out -> kind e <> TextDelta) -> textOf out = [].
Proof.
  intros H. apply omap_all_None, Forall_forall. intros e He.
  specialize (H e He). destruct e; simpl in *; congruence.
Qed.

Lemma flush_no_payload s e : e ∈ snd (flush s) -> payloadKind (kind e) = false.
Proof. intros He. apply flushKind_payloadKind, (flush_kinds s), He. Qed.

Lemma frameItems_text f :
  omap (fun it => match it with contentItem text => Some text | _ => None end) (frameItems f)
  = option_list (frameText f).
Proof.
  unfold frameItems, frameText. rewrite omap_app.
  rewrite (omap_all_None _ (match f_usage f with Some u => [usageItem u] | None => [] end))
    by (destruct (f_usage f); repeat constructor).
  destruct (head (default [] (f_choices f))) as [choice|]; [|reflexivity]. simpl.
  unfold choiceItems. rewrite omap_app.
  rewrite (omap_all_None _ (match JS.truthy (c_finish_reason choice) with
                            | Some reason => [finishItem reason] | None => [] end))
    by (destruct (JS.truthy (c_finish_reason choice)); repeat constructor).
  destruct (c_delta choice) as [d|]; [|reflexivity]. simpl.
  unfold deltaItems. rewrite omap_app.
  rewrite (omap_all_None _ (fragmentItem <$> _))
    by (apply Forall_fmap, Forall_forall; intros; reflexivity).
  destruct (JS.truthy (d_content d)); reflexivity.
Qed.

Lemma run_text items : forall s,
  textOf (snd (run s items))
  = omap (fun it => match it with contentItem text => Some text | _ => None end) items.
Proof.
  induction items as [|it rest IH]; intros s; [reflexivity|].
  rewrite run_cons. simpl snd. rewrite textOf_app, IH. csimpl.
  destruct it as [u|reason|text|toolCall].
  - reflexivity.
  - rewrite textOf_none; [reflexivity|]. intros e He Hk.
    apply flush_no_payload in He. rewrite Hk in He. discriminate.
  - simpl. rewrite emitText_events. destruct (JS.has _ _); reflexivity.
  - rewrite textOf_none; [reflexivity|]. intros e He Hk.
    apply step_event in He as (c & m & _ & [(n & -> & _)|(a & -> & _)]); discriminate.
Qed.

Lemma streamItems_text chunks :
  omap (fun it => match it with contentItem text => Some text | _ => None end)
       (streamItems chunks)
  = omap frameText (streamFrames chunks).
Proof.
  unfold streamItems. rewrite omap_concat.
  induction (streamFrames chunks) as [|f l IH]; [reflexivity|].
  csimpl. rewrite IH, frameItems_text. destruct (frameText f); reflexivity.
Qed.

Lemma run_elem e items : forall s,
  e ∈ snd (run s items) ->
  exists h it rest, items = h ++ it :: rest /\ e ∈ snd (step (fst (run s h)) it).
Proof.
  induction items as [|it rest IH]; intros s; [intros H; inversion H|].
  rewrite run_cons. simpl snd. intros [H|H]%elem_of_app.
  - exists [], it, rest. split; [reflexivity|exact H].
  - apply IH in H as (h & it' & rest' & -> & H).
    exists (it :: h), it', rest'. split; [reflexivity|]. rewrite run_cons. exact H.
Qed.

Lemma doStream_parts chunks ending e :
  e ∈ fst (doStream chunks ending) ->
  e ∈ snd (run initialSession (streamItems chunks))
  \/ e ∈ snd (flush (fst (run initialSession (streamItems chunks))))
  \/ kind e = Finish.
Proof.
  destruct ending.
  - rewrite doStream_done. simpl. rewrite outputFrom_split.
    intros [[H|H]%elem_of_app|H]%elem_of_app; auto.
    apply list_elem_of_singleton in H as ->. auto.
  - rewrite doStream_failed. auto.
Qed.

Lemma flush_text_id s e :
  wellFormed s -> e ∈ snd (flush s) -> textKind (kind e) -> partId e = Some "text-0".
Proof.
  intros W He Hk. rewrite flush_events in He. apply elem_of_app in He as [He|He].
  - apply completeToolCalls_event in He as (k & tc & _ & _ & [-> | ->]);
      destruct Hk as [Hk|[Hk|Hk]]; discriminate.
  - apply completeText_event in He as (id & -> & Hid).
    destruct (wf_started s W) as [R|R]; rewrite R in Hid.
    + inversion Hid.
    + apply list_elem_of_singleton in Hid as ->. reflexivity.
Qed.

Lemma step_text_id s it e :
  wellFormed s -> e ∈ snd (step s it) -> textKind (kind e) -> partId e = Some "text-0".
Proof.
  intros W He Hk. destruct it as [u|reason|text|toolCall].
  - inversion He.
  - simpl in He. apply flush_text_id in He; [exact He| |exact Hk].
    constructor; simpl; apply W.
  - apply step_event in He as [-> | [-> _]]; reflexivity.
  - apply step_event in He as (c & m & _ & [(n & -> & _)|(a & -> & _)]);
      destruct Hk as [Hk|[Hk|Hk]]; discriminate.
Qed.

(** X5. The text is passed on as it comes: the [text-delta] parts carry,
    in order, the non-empty [content] of the frames, whatever else the
    frames hold and however the body ends, and every text part carries the
    id [text-0]. *)
Theorem text_verbatim chunks ending :
  let out := fst (doStream chunks ending) in
  textOf out = omap frameText (streamFrames chunks)
  /\ forall e, e ∈ out -> textKind (kind e) -> partId e = Some "text-0".
Proof.
  intros out. subst out. split.
  - destruct ending.
    + rewrite doStream_done. simpl. rewrite outputFrom_split, !textOf_app, run_text.
      rewrite (textOf_none (snd (flush _))); [cbn; rewrite !app_nil_r; apply streamItems_text|].
      intros e He Hk. apply flush_no_payload in He. rewrite Hk in He. discriminate.
    + rewrite doStream_failed. simpl. rewrite run_text. apply streamItems_text.
  - intros e He Hk.
    destruct (doStream_parts chunks ending e He) as [H|[H|H]];
      [| |destruct Hk as [Hk|[Hk|Hk]]; congruence].
    + apply run_elem in H as (h & it & rest & _ & H).
      eapply step_text_id; [|exact H|exact Hk]. apply wellFormed_run, wellFormed_initial.
    + eapply flush_text_id; [|exact H|exact Hk]. apply wellFormed_run, wellFormed_initial.
Qed.

Lemma argumentsOf_app c out1 out2 :
  argumentsOf c (out1 ++ out2) = argumentsOf c out1 ++ argumentsOf c out2.
Proof. apply omap_app. Qed.

Lemma argumentsOf_none c out :
  (forall e, e ∈ out -> kind e <> ToolInputDelta) -> argumentsOf c out = [].
Proof.
  intros H. apply omap_all_None, Forall_forall. intros e He.
  specialize (H e He). destruct e; simpl in *; congruence.
Qed.

Lemma applyFragment_argumentsOf c c0 fn tc :
  argumentsOf c (snd (applyFragment c0 fn tc)) =
    if decide (c0 = c) then argumentTexts [fn] else [].
Proof.
  rewrite applyFragment_events, argumentsOf_app.
  rewrite (argumentsOf_none c (match JS.truthy (fn ≫= fn_name), tc_name tc with
                               | Some n, EmptyString => [tool_input_start c0 n]
                               | _, _ => []
                               end)).
  2:{ intros e He. destruct (JS.truthy (fn ≫= fn_name)), (tc_name tc);
        try (inversion He; fail);
        apply list_elem_of_singleton in He as ->; discriminate. }
  unfold argumentTexts. csimpl.
  destruct (JS.truthy (fn ≫= fn_arguments)); csimpl; destruct (decide (c0 = c)); reflexivity.
Qed.

Lemma run_arguments c items : forall s,
  argumentsOf c (snd (run s items)) = argumentTexts (delivered (indexToId s) c items).
Proof.
  induction items as [|it rest IH]; intros s; [reflexivity|].
  rewrite run_cons. simpl snd. rewrite argumentsOf_app, IH.
  destruct it as [u|reason|text|toolCall].
  - reflexivity.
  - simpl. destruct (flush_fields (set_finishReason (mapHeliconeFinishReason reason) s))
      as (_ & -> & _).
    rewrite argumentsOf_none; [reflexivity|]. intros e He Hk.
    apply flush_no_payload in He. rewrite Hk in He. discriminate.
  - simpl. destruct (emitText_frame s text) as (_ & _ & _ & -> & _).
    rewrite emitText_events. destruct (JS.has _ _); reflexivity.
  - simpl step. simpl delivered. rewrite handleToolCall_events.
    destruct (resolveToolId (indexToId s) toolCall) as [[c0 m]|] eqn:E.
    + destruct (handleToolCall_resolved _ _ _ _ E) as [-> _].
      rewrite applyFragment_argumentsOf.
      destruct (decide (c0 = c)); [|reflexivity].
      unfold argumentTexts. csimpl.
      destruct (JS.truthy (tcd_function toolCall ≫= fn_arguments)); reflexivity.
    + rewrite (handleToolCall_dropped _ _ E). reflexivity.
Qed.

(** X6. The argument text of a tool call is passed on as it comes: the
    [tool-input-delta] parts for an id carry, in order, the non-empty
    [arguments] of the fragments correlated with that id, also of those
    that come after the call was completed, however the body ends. *)
Theorem arguments_verbatim chunks c ending :
  argumentsOf c (fst (doStream chunks ending))
  = argumentTexts (delivered ∅ c (streamItems chunks)).
Proof.
  destruct ending.
  - rewrite doStream_done. simpl. rewrite outputFrom_split, !argumentsOf_app, run_arguments.
    rewrite (argumentsOf_none c (snd (flush _))); [cbn; rewrite !app_nil_r; reflexivity|].
    intros e He Hk. apply flush_no_payload in He. rewrite Hk in He. discriminate.
  - rewrite doStream_failed. simpl. apply run_arguments.
Qed.

Lemma frameItems_signal f r :
  finishSignal f = Some r -> forall r0, reasonAfter r0 (frameItems f) = mapHeliconeFinishReason r.
Proof.
  unfold finishSignal, frameItems. intros H r0.
  destruct (head (default [] (f_choices f))) as [choice|]; [|discriminate]. simpl in H.
  rewrite reasonAfter_app. simpl from_option. unfold choiceItems. rewrite H.
  rewrite reasonAfter_app. simpl reasonAfter at 2.
  apply reasonAfter_none.
  destruct (c_delta choice) as [d|]; [|reflexivity]. simpl. unfold deltaItems.
  rewrite forallb_app. apply andb_true_intro. split.
  - destruct (JS.truthy (d_content d)); reflexivity.
  - induction (default [] (d_tool_calls d)) as [|x l IH]; [reflexivity|exact IH].
Qed.

(** X7. Of several finish signals the last one decides: the [finish] part
    carries the mapped reason of the last frame whose first choice has a
    non-empty [finish_reason]. *)
Theorem last_finish_signal_wins chunks before f after r :
  streamFrames chunks = before ++ f :: after ->
  finishSignal f = Some r ->
  Forall (fun f' => finishSignal f' = None) after ->
  exists pre u,
    doStream chunks source_done = (pre ++ [finish u (mapHeliconeFinishReason r)], closed)
    /\ forall e, e ∈ pre -> kind e <> Finish.
Proof.
  intros E Hf Hafter. rewrite doStream_done.
  destruct (outputFrom_finishesLast initialSession (streamItems chunks)) as (pre & -> & Hpre).
  exists pre, (usageAfter (usage initialSession) (streamItems chunks)).
  split; [|exact Hpre].
  assert (reasonAfter (actualFinishReason initialSession) (streamItems chunks)
          = mapHeliconeFinishReason r) as ->; [|reflexivity].
  unfold streamItems. rewrite E, fmap_app, concat_app, reasonAfter_app. csimpl.
  rewrite reasonAfter_app, (frameItems_signal _ _ Hf).
  apply reasonAfter_none, forallb_concat.
  intros f' Hf'. apply frameItems_no_signal.
  rewrite Forall_forall in Hafter. apply Hafter, Hf'.
Qed.

(** ** Tool calls, one by one *)

Lemma occurrences_elem k c e out :
  e ∈ out -> isPart k c e -> (1 <= occurrences k c out)%nat.
Proof.
  intros [l1 [l2 ->]]%list_elem_of_split H.
  rewrite occurrences_app. unfold occurrences at 2.
  rewrite filter_cons_True by exact H. simpl. lia.
Qed.

(** X8. Every tool call is announced exactly once: for an id some fragment
    was correlated with, the stream holds one [tool-input-end] and one
    [tool-call], the second right after the first; for any other id it
    holds none. *)
Theorem call_completed_once chunks c :
  let items := streamItems chunks in
  let out := fst (doStream chunks source_done) in
  let n := if decide (delivered ∅ c items = []) then O else 1%nat in
  occurrences ToolInputEnd c out = n
  /\ occurrences ToolCall c out = n
  /\ (n = 1%nat -> exists pre name input post,
        out = pre ++ tool_input_end c :: tool_call c name input :: post).
Proof.
  intros items out n. subst items out n. rewrite doStream_done. simpl.
  destruct (decide (delivered ∅ c (streamItems chunks) = [])) as [E|E].
  - split; [|split; [|discriminate]];
      apply absent_occurrences, outputFrom_absent_unknown;
      auto using wellFormed_initial.
  - destruct (outputFrom_call_new c (streamItems chunks) initialSession)
      as (pre & post & R); [apply wellFormed_initial|reflexivity|exact E|].
    assert (forall k e, flushKind k = true -> isPart k c e ->
              e ∈ outputFrom initialSession (streamItems chunks) ->
              occurrences k c (outputFrom initialSession (streamItems chunks)) = 1%nat) as H.
    { intros k e Hk He Hin.
      pose proof (outputFrom_at_most_once k c initialSession (streamItems chunks)
                    wellFormed_initial Hk).
      pose proof (occurrences_elem k c e _ Hin He). lia. }
    split; [|split].
    + apply (H _ (tool_input_end c)); [reflexivity|split; reflexivity|].
      rewrite R. apply elem_of_app. right. left.
    + eapply (H _ (tool_call c _ _)); [reflexivity|split; reflexivity|].
      rewrite R. apply elem_of_app. right. right. left.
    + intros _. eauto.
Qed.

Lemma callIds_app out1 out2 : callIds (out1 ++ out2) = callIds out1 ++ callIds out2.
Proof. apply omap_app. Qed.

Lemma callIds_none out : (forall e, e ∈ out -> kind e <> ToolCall) -> callIds out = [].
Proof.
  intros H. apply omap_all_None, Forall_forall. intros e He.
  specialize (H e He). destruct e; simpl in *; congruence.
Qed.

Lemma completeToolCalls_callIds calls :
  (forall k tc, (k, tc) ∈ calls -> tc_id tc = k) ->
  callIds (snd (completeToolCalls calls)) = openKeys calls.
Proof.
  induction calls as [|[k tc] calls IH]; intros H; [reflexivity|].
  rewrite completeToolCalls_cons, callIds_app, IH.
  2:{ intros k' tc' Hin. apply H. right. exact Hin. }
  unfold openKeys, completionEvents.
  destruct (tc_completed tc) eqn:Ec.
  - rewrite filter_cons_False by (simpl; congruence). reflexivity.
  - rewrite filter_cons_True by (simpl; congruence).
    cbn. rewrite (H k tc) by left. reflexivity.
Qed.

Lemma flush_callIds s : wellFormed s -> callIds (snd (flush s)) = openKeys (toolCalls s).
Proof.
  intros W. rewrite flush_events, callIds_app, completeToolCalls_callIds.
  - rewrite callIds_none; [apply app_nil_r|].
    intros e (id & -> & _)%completeText_event. discriminate.
  - intros k tc. apply wellFormed_ids, W.
Qed.

Lemma openKeys_completed calls : openKeys (fst (completeToolCalls calls)) = [].
Proof.
  rewrite completeToolCalls_fst. unfold openKeys.
  induction calls as [|[k tc] calls IH]; [reflexivity|].
  csimpl. rewrite filter_cons_False by (simpl; congruence). exact IH.
Qed.

Lemma openKeys_app calls calls' : openKeys (calls ++ calls') = openKeys calls ++ openKeys calls'.
Proof. unfold openKeys. rewrite filter_app. apply fmap_app. Qed.

Lemma putCall_open c tc tc' calls :
  getCall c calls = Some tc -> tc_completed tc' = tc_completed tc ->
  openKeys (putCall c tc' calls) = openKeys calls.
Proof.
  intros G Hc. induction calls as [|[k x] calls IH]; [reflexivity|].
  simpl in *. destruct (decide (k = c)) as [->|N].
  - injection G as ->. unfold openKeys.
    destruct (tc_completed tc) eqn:Ec.
    + rewrite !filter_cons_False by (simpl; congruence). reflexivity.
    + rewrite !filter_cons_True by (simpl; congruence). reflexivity.
  - unfold openKeys in *.
    destruct (decide (tc_completed x = false)) as [Hx|Hx].
    + rewrite !filter_cons_True by exact Hx. csimpl. f_equal. apply IH, G.
    + rewrite !filter_cons_False by exact Hx. apply IH, G.
Qed.

Lemma putCall_last c tc tc' calls :
  getCall c calls = None -> putCall c tc' (calls ++ [(c, tc)]) = calls ++ [(c, tc')].
Proof.
  induction calls as [|[k x] calls IH]; simpl.
  - intros _. rewrite decide_True by reflexivity. reflexivity.
  - destruct (decide (k = c)); [discriminate|]. intros G. rewrite IH by exact G. reflexivity.
Qed.

Lemma handleToolCall_calls s toolCall c m :
  resolveToolId (indexToId s) toolCall = Some (c, m) ->
  toolCalls (fst (handleToolCall s toolCall)) =
    putCall c (fst (applyFragment c (tcd_function toolCall) (currentCall c (toolCalls s))))
      (fst (getOrCreate c (toolCalls s))).
Proof.
  intros E. unfold handleToolCall. rewrite E. unfold trackFragment.
  change (toolCalls (set_indexToId m s)) with (toolCalls s).
  pose proof (getOrCreate_snd c (toolCalls s)) as R.
  destruct (getOrCreate c (toolCalls s)) as [calls tc]. simpl in R. subst tc.
  destruct (applyFragment c (tcd_function toolCall) (currentCall c (toolCalls s))).
  reflexivity.
Qed.

Lemma handleToolCall_openKeys s toolCall c m :
  resolveToolId (indexToId s) toolCall = Some (c, m) ->
  openKeys (toolCalls (fst (handleToolCall s toolCall))) =
    openKeys (toolCalls s) ++ (if decide (c ∈ (toolCalls s).*1) then [] else [c])
  /\ (toolCalls (fst (handleToolCall s toolCall))).*1 =
       (toolCalls s).*1 ++ (if decide (c ∈ (toolCalls s).*1) then [] else [c]).
Proof.
  intros E. rewrite (handleToolCall_calls _ _ _ _ E), putCall_keys, getOrCreate_keys.
  unfold getOrCreate, currentCall.
  destruct (getCall c (toolCalls s)) as [tc|] eqn:G.
  - assert (c ∈ (toolCalls s).*1) as Hin.
    { destruct (decide (c ∈ (toolCalls s).*1)) as [?|N]; [assumption|].
      apply getCall_None in N. congruence. }
    rewrite !decide_True by exact Hin. rewrite !app_nil_r. split; [|reflexivity].
    simpl. apply (putCall_open c tc); [exact G|apply applyFragment_completed].
  - pose proof G as N. apply getCall_None in N.
    rewrite !decide_False by exact N. split; [|reflexivity].
    simpl. rewrite putCall_last by exact G. rewrite openKeys_app. f_equal.
    unfold openKeys. rewrite filter_cons_True; [reflexivity|].
    simpl. rewrite applyFragment_completed. reflexivity.
Qed.

Lemma outputFrom_callIds items : forall s,
  wellFormed s ->
  callIds (outputFrom s items)
  = openKeys (toolCalls s) ++ firstMentions (indexToId s) (toolCalls s).*1 items.
Proof.
  induction items as [|it rest IH]; intros s W.
  - rewrite outputFrom_nil, finalize_snd, callIds_app, flush_callIds by exact W.
    reflexivity.
  - rewrite outputFrom_cons, callIds_app, IH by apply wellFormed_step, W.
    destruct it as [u|reason|text|toolCall].
    + reflexivity.
    + simpl step. simpl firstMentions.
      set (s' := set_finishReason (mapHeliconeFinishReason reason) s).
      assert (wellFormed s') as W' by (constructor; simpl; apply W).
      rewrite flush_callIds by exact W'.
      destruct (flush_fields s') as (-> & -> & _).
      rewrite openKeys_completed, completeToolCalls_keys. reflexivity.
    + simpl step. simpl firstMentions.
      destruct (emitText_frame s text) as (_ & _ & -> & -> & _).
      rewrite callIds_none; [reflexivity|].
      intros e [-> | [-> _]]%(step_event s (contentItem text)); discriminate.
    + simpl step. simpl firstMentions.
      rewrite callIds_none.
      2:{ intros e (c & m & _ & [(n & -> & _)|(a & -> & _)])%(step_event s (fragmentItem toolCall));
            discriminate. }
      destruct (resolveToolId (indexToId s) toolCall) as [[c m]|] eqn:E.
      * destruct (handleToolCall_resolved _ _ _ _ E) as [-> _].
        destruct (handleToolCall_openKeys _ _ _ _ E) as [-> ->].
        destruct (decide (c ∈ (toolCalls s).*1)).
        -- rewrite !app_nil_r. reflexivity.
        -- simpl. rewrite <- app_assoc. reflexivity.
      * rewrite (handleToolCall_dropped _ _ E). reflexivity.
Qed.

Lemma firstMentions_fresh items : forall m seen,
  NoDup (firstMentions m seen items) /\
  forall c, c ∈ firstMentions m seen items -> c ∉ seen.
Proof.
  induction items as [|it rest IH]; intros m seen.
  - split; [constructor|]. intros c H. inversion H.
  - destruct it as [u|reason|text|toolCall]; simpl; try apply IH.
    destruct (resolveToolId m toolCall) as [[c m']|]; [|apply IH].
    destruct (decide (c ∈ seen)) as [Hc|Hc]; [apply IH|].
    destruct (IH m' (seen ++ [c])) as [ND F]. split.
    + constructor; [|exact ND]. intros H. apply F in H. apply H, elem_of_app. right. left.
    + intros c' [->|H]%elem_of_cons; [exact Hc|].
      apply F in H. intros H'. apply H, elem_of_app. left. exact H'.
Qed.

(** X9. The [tool-call] parts come in the order in which their ids were
    first mentioned by a fragment, one for each id, whatever finish
    signals lie between the fragments. *)
Theorem calls_in_order_of_first_mention chunks :
  let out := fst (doStream chunks source_done) in
  callIds out = firstMentions ∅ [] (streamItems chunks) /\ NoDup (callIds out).
Proof.
  intros out. subst out. rewrite doStream_done. simpl.
  rewrite outputFrom_callIds by apply wellFormed_initial. simpl.
  split; [reflexivity|]. apply firstMentions_fresh.
Qed.

(** ** The text span *)

Lemma outputFrom_app h : forall s l,
  outputFrom s (h ++ l) = snd (run s h) ++ outputFrom (fst (run s h)) l.
Proof.
  induction h as [|it h IH]; intros s l; [reflexivity|].
  change ((it :: h) ++ l) with (it :: (h ++ l)).
  rewrite outputFrom_cons, IH, (run_cons s it h). simpl. apply app_assoc.
Qed.

Lemma run_no_content h : forall s,
  forallb (fun it => negb (isContent it)) h = true ->
  textStarted (fst (run s h)) = textStarted s.
Proof.
  induction h as [|it h IH]; intros s H; [reflexivity|].
  simpl in H. apply andb_prop in H as [Hit H].
  rewrite run_cons. simpl fst. rewrite IH by exact H.
  destruct it as [u|reason|text|toolCall]; try discriminate.
  - reflexivity.
  - simpl. destruct (flush_fields (set_finishReason (mapHeliconeFinishReason reason) s))
      as (_ & _ & -> & _). reflexivity.
  - simpl. apply handleToolCall_frame.
Qed.

Lemma flush_not_started s e :
  textStarted s = [] -> e ∈ snd (flush s) -> ~ textKind (kind e).
Proof.
  intros E He Hk. rewrite flush_events in He. apply elem_of_app in He as [He|He].
  - apply completeToolCalls_event in He as (k & tc & _ & _ & [-> | ->]);
      destruct Hk as [Hk|[Hk|Hk]]; discriminate.
  - apply completeText_event in He as (id & _ & Hid). rewrite E in Hid. inversion Hid.
Qed.

Lemma outputFrom_no_text s items e :
  textStarted s = [] ->
  forallb (fun it => negb (isContent it)) items = true ->
  e ∈ outputFrom s items -> ~ textKind (kind e).
Proof.
  intros E H. rewrite outputFrom_split.
  intros [[He|He]%elem_of_app|He]%elem_of_app Hk.
  - apply run_elem in He as (h & it & rest & -> & He).
    rewrite forallb_app in H. apply andb_prop in H as [Hh H].
    simpl in H. apply andb_prop in H as [Hit _].
    pose proof (run_no_content h s Hh) as R. rewrite E in R.
    destruct it as [u|reason|text|toolCall]; try discriminate.
    + inversion He.
    + simpl in He. apply flush_not_started in He; [apply He, Hk|exact R].
    + apply step_event in He as (c & m & _ & [(n & -> & _)|(a & -> & _)]);
        destruct Hk as [Hk|[Hk|Hk]]; discriminate.
  - apply flush_not_started in He; [apply He, Hk|].
    rewrite run_no_content by exact H. exact E.
  - apply list_elem_of_singleton in He as ->. destruct Hk as [Hk|[Hk|Hk]]; discriminate.
Qed.

Lemma first_content items :
  forallb (fun it => negb (isContent it)) items = false ->
  exists h text rest,
    items = h ++ contentItem text :: rest /\
    forallb (fun it => negb (isContent it)) h = true.
Proof.
  induction items as [|it items IH]; [discriminate|].
  simpl. destruct (isContent it) eqn:Ec.
  - intros _. destruct it; try discriminate. exists [], text, items. split; reflexivity.
  - simpl. intros (h & text & rest & -> & Hh)%IH.
    exists (it :: h), text, rest. split; [reflexivity|]. simpl. rewrite Ec. exact Hh.
Qed.

Lemma outputFrom_text_end items : forall s,
  wellFormed s -> textStarted s = ["text-0"] -> textEnded s = [] ->
  text_end "text-0" ∈ outputFrom s items.
Proof.
  induction items as [|it rest IH]; intros s W Es Ee.
  - rewrite outputFrom_nil, finalize_snd, flush_events, completeText_wellFormed by exact W.
    rewrite Es, Ee. apply elem_of_app. left. apply elem_of_app. right. left.
  - rewrite outputFrom_cons. apply elem_of_app.
    destruct it as [u|reason|text|toolCall].
    + right. apply IH; [constructor; simpl; apply W|exact Es|exact Ee].
    + left. simpl.
      set (s' := set_finishReason (mapHeliconeFinishReason reason) s).
      assert (wellFormed s') as W' by (constructor; simpl; apply W).
      rewrite flush_events, completeText_wellFormed by exact W'.
      change (textStarted s') with (textStarted s). change (textEnded s') with (textEnded s).
      rewrite Es, Ee. apply elem_of_app. right. left.
    + right.
      assert (fst (emitText s text) = s) as R.
      { unfold emitText. rewrite Es. reflexivity. }
      simpl. rewrite R. apply IH; assumption.
    + right. destruct (handleToolCall_frame s toolCall) as (_ & _ & Rs & Re).
      apply IH; [apply (wellFormed_step s (fragmentItem toolCall) W)| |].
      * simpl. rewrite Rs. exact Es.
      * simpl. rewrite Re. exact Ee.
Qed.

Lemma streamItems_content chunks :
  forallb (fun it => negb (isContent it)) (streamItems chunks) = true
  <-> omap frameText (streamFrames chunks) = [].
Proof.
  rewrite <- streamItems_text.
  induction (streamItems chunks) as [|it items IH]; [split; reflexivity|].
  csimpl. destruct it; simpl; try exact IH. split; discriminate.
Qed.

(** X10. There is one text span when some frame carries text, and none
    otherwise: with a non-empty [content] somewhere the stream holds exactly
    one [text-start] and one [text-end]; without, it holds no text part at
    all. *)
Theorem text_span chunks :
  let out := fst (doStream chunks source_done) in
  (omap frameText (streamFrames chunks) <> [] ->
     occurrences TextStart "text-0" out = 1%nat /\ occurrences TextEnd "text-0" out = 1%nat)
  /\ (omap frameText (streamFrames chunks) = [] ->
     forall e, e ∈ out -> ~ textKind (kind e)).
Proof.
  intros out. subst out. rewrite doStream_done. simpl. split.
  - intros H.
    destruct (forallb (fun it => negb (isContent it)) (streamItems chunks)) eqn:E.
    { apply streamItems_content in E. contradiction. }
    apply first_content in E as (h & text & rest & -> & Hh).
    rewrite outputFrom_app, outputFrom_cons.
    set (s := fst (run initialSession h)).
    assert (wellFormed s) as W by apply wellFormed_run, wellFormed_initial.
    assert (textStarted s = []) as Es by apply (run_no_content h initialSession Hh).
    assert (textEnded s = []) as Ee.
    { destruct (wf_ended s W) as [R|[_ R]]; [exact R|]. rewrite Es in R. discriminate. }
    assert (forall k, textKind k -> occurrences k "text-0" (snd (run initialSession h)) = O)
      as Hrun.
    { intros k Hk. apply absent_occurrences. intros e He [Hke _].
      apply run_elem in He as (h1 & it & h2 & -> & He).
      rewrite forallb_app in Hh. apply andb_prop in Hh as [Hh1 Hh2].
      apply (outputFrom_no_text (fst (run initialSession h1)) (it :: h2) e).
      - apply (run_no_content h1 initialSession Hh1).
      - exact Hh2.
      - rewrite outputFrom_cons. apply elem_of_app. left. exact He.
      - rewrite Hke. exact Hk. }
    assert (fst (step s (contentItem text))
            = set_textStarted ["text-0"] s) as Rs.
    { simpl. unfold emitText. rewrite Es. reflexivity. }
    assert (snd (step s (contentItem text))
            = [text_start "text-0"; text_delta "text-0" text]) as Re.
    { simpl. unfold emitText. rewrite Es. reflexivity. }
    assert (wellFormed (set_textStarted ["text-0"] s)) as W'.
    { rewrite <- Rs. apply wellFormed_step, W. }
    rewrite Rs, Re. clear Rs Re.
    set (s' := set_textStarted ["text-0"] s) in *.
    split.
    + rewrite !occurrences_app, Hrun by (left; reflexivity).
      rewrite (absent_occurrences _ _ (outputFrom s' rest)).
      * reflexivity.
      * apply outputFrom_absent_started. left.
    + rewrite !occurrences_app, Hrun by (right; right; reflexivity).
      pose proof (outputFrom_at_most_once TextEnd "text-0" s' rest W' eq_refl).
      pose proof (occurrences_elem TextEnd "text-0" _ _
                    (outputFrom_text_end rest s' W' eq_refl Ee) (conj eq_refl eq_refl)).
      change (occurrences TextEnd "text-0" [text_start "text-0"; text_delta "text-0" text])
        with O.
      lia.
  - intros H e. apply outputFrom_no_text; [reflexivity|].
    apply streamItems_content, H.
Qed.

(** ** The name of a tool call *)

Lemma startNames_app c out1 out2 :
  startNames c (out1 ++ out2) = startNames c out1 ++ startNames c out2.
Proof. apply omap_app. Qed.

Lemma startNames_none c out :
  (forall e, e ∈ out -> kind e <> ToolInputStart) -> startNames c out = [].
Proof.
  intros H. apply omap_all_None, Forall_forall. intros e He.
  specialize (H e He). destruct e; simpl in *; congruence.
Qed.

Lemma applyFragment_startNames c c0 fn tc :
  startNames c (snd (applyFragment c0 fn tc)) =
    match JS.truthy (fn ≫= fn_name), tc_name tc with
    | Some n, EmptyString => if decide (c0 = c) then [n] else []
    | _, _ => []
    end.
Proof.
  rewrite applyFragment_events, startNames_app.
  rewrite (startNames_none c (match JS.truthy (fn ≫= fn_arguments) with
                              | Some a => [tool_input_delta c0 a]
                              | None => []
                              end)).
  2:{ intros e He. destruct (JS.truthy (fn ≫= fn_arguments));
        [apply list_elem_of_singleton in He as ->; discriminate|inversion He]. }
  rewrite app_nil_r.
  destruct (JS.truthy (fn ≫= fn_name)), (tc_name tc); try reflexivity.
  cbn. destruct (decide (c0 = c)); reflexivity.
Qed.

Lemma currentCall_flush c s :
  tc_name (currentCall c (toolCalls (fst (flush s)))) = tc_name (currentCall c (toolCalls s)).
Proof.
  unfold currentCall. rewrite flush_get. destruct (getCall c (toolCalls s)); reflexivity.
Qed.

Lemma run_startNames c items : forall s,
  startNames c (snd (run s items)) =
    match tc_name (currentCall c (toolCalls s)) with
    | EmptyString => option_list (head (nameTexts (delivered (indexToId s) c items)))
    | _ => []
    end.
Proof.
  induction items as [|it rest IH]; intros s.
  - simpl. destruct (tc_name _); reflexivity.
  - rewrite run_cons. simpl snd. rewrite startNames_app, IH.
    destruct it as [u|reason|text|toolCall].
    + reflexivity.
    + simpl step. simpl delivered. rewrite currentCall_flush.
      destruct (flush_fields (set_finishReason (mapHeliconeFinishReason reason) s))
        as (_ & -> & _).
      rewrite startNames_none; [reflexivity|]. intros e He Hk.
      apply flush_no_payload in He. rewrite Hk in He. discriminate.
    + simpl step. simpl delivered.
      destruct (emitText_frame s text) as (_ & _ & -> & -> & _).
      rewrite emitText_events. destruct (JS.has _ _); reflexivity.
    + simpl step. simpl delivered. rewrite handleToolCall_events.
      destruct (resolveToolId (indexToId s) toolCall) as [[c0 m]|] eqn:E.
      * destruct (handleToolCall_resolved _ _ _ _ E) as [-> G].
        rewrite applyFragment_startNames.
        assert (currentCall c (toolCalls (fst (handleToolCall s toolCall)))
                = if decide (c0 = c)
                  then fst (applyFragment c0 (tcd_function toolCall)
                              (currentCall c0 (toolCalls s)))
                  else currentCall c (toolCalls s)) as ->.
        { unfold currentCall at 1. rewrite G. destruct (decide (c0 = c)); reflexivity. }
        destruct (decide (c0 = c)) as [->|N].
        -- rewrite applyFragment_name. unfold nameTexts. csimpl.
           destruct (JS.truthy (tcd_function toolCall ≫= fn_name)) as [n|] eqn:En.
           ++ destruct (tc_name (currentCall c (toolCalls s))) eqn:Ec; [|reflexivity].
              apply truthy_nonempty in En as [_ En].
              destruct n; [contradiction|]. reflexivity.
           ++ destruct (tc_name (currentCall c (toolCalls s))); reflexivity.
        -- destruct (JS.truthy (tcd_function toolCall ≫= fn_name)),
             (tc_name (currentCall c0 (toolCalls s))); reflexivity.
      * rewrite (handleToolCall_dropped _ _ E). reflexivity.
Qed.

Lemma replay_name c fns : forall tc,
  tc_name (replay c tc fns) =
    match tc_name tc with
    | EmptyString => default EmptyString (head (nameTexts fns))
    | n => n
    end.
Proof.
  induction fns as [|fn fns IH]; intros tc.
  - simpl. destruct (tc_name tc); reflexivity.
  - rewrite replay_cons, IH, applyFragment_name. unfold nameTexts. csimpl.
    destruct (JS.truthy (fn ≫= fn_name)) as [n|] eqn:En.
    + destruct (tc_name tc) eqn:Ec; [|reflexivity].
      apply truthy_nonempty in En as [_ En]. destruct n; [contradiction|]. reflexivity.
    + destruct (tc_name tc); reflexivity.
Qed.

(** X11. The first name wins.  For every id the stream holds at most one
    [tool-input-start], and it carries the first non-empty name among the
    fragments correlated with that id; there is none when no such fragment
    has a name.  The [tool-call] part carries the first non-empty name
    among the fragments that came up to the finish signal that completed
    the call, and the empty name when there is none. *)
Theorem first_name_wins chunks c :
  let items := streamItems chunks in
  (forall ending,
     startNames c (fst (doStream chunks ending))
     = option_list (head (nameTexts (delivered ∅ c items))))
  /\ (forall n input,
        tool_call c n input ∈ fst (doStream chunks source_done) ->
        n = default EmptyString (head (nameTexts (firstSpan ∅ c false items)))).
Proof.
  intros items. subst items. split.
  - intros ending. destruct ending.
    + rewrite doStream_done. simpl. rewrite outputFrom_split, !startNames_app, run_startNames.
      rewrite (startNames_none c (snd (flush _))); [cbn; rewrite !app_nil_r; reflexivity|].
      intros e He Hk. apply flush_no_payload in He. rewrite Hk in He. discriminate.
    + rewrite doStream_failed. simpl. apply run_startNames.
  - intros n input H.
    apply (proj2 (tool_call_part chunks c)) in H as (_ & -> & _).
    apply replay_name.
Qed.

(** ** The session *)

(** X12. Every session the loop goes through is well formed: a tracked
    call is stored once and under its own id, an index is only ever mapped to
    the id of a tracked call, and [text-0] is the only text span, ended only
    once started. *)
Theorem session_invariant chunks :
  Forall wellFormed (sessions initialSession (streamItems chunks)).
Proof.
  assert (forall items s, wellFormed s -> Forall wellFormed (sessions s items)) as H.
  { induction items as [|it rest IH]; intros s W; simpl.
    - constructor; [exact W|]. constructor; [|constructor].
      rewrite finalize_fst. apply wellFormed_flush, W.
    - constructor; [exact W|]. apply IH, wellFormed_step, W. }
  apply H, wellFormed_initial.
Qed.

(** ** No tool input is left open *)

Lemma delivered_app c h : forall s l,
  delivered (indexToId s) c (h ++ l)
  = delivered (indexToId s) c h ++ delivered (indexToId (fst (run s h))) c l.
Proof.
  induction h as [|it h IH]; intros s l; [reflexivity|].
  rewrite run_cons. simpl fst.
  destruct it as [u|reason|text|toolCall].
  - apply (IH (set_usage (readUsage u) s)).
  - pose proof (IH (fst (step s (finishItem reason))) l) as IH'.
    simpl step in IH'.
    destruct (flush_fields (set_finishReason (mapHeliconeFinishReason reason) s))
      as (_ & R & _).
    rewrite R in IH'. exact IH'.
  - pose proof (IH (fst (step s (contentItem text))) l) as IH'.
    simpl step in IH'.
    destruct (emitText_frame s text) as (_ & _ & _ & R & _).
    rewrite R in IH'. exact IH'.
  - simpl step. simpl delivered.
    destruct (resolveToolId (indexToId s) toolCall) as [[c0 m]|] eqn:E.
    + destruct (handleToolCall_resolved _ _ _ _ E) as [Em _].
      specialize (IH (fst (handleToolCall s toolCall)) l). rewrite Em in IH.
      destruct (decide (c0 = c)); rewrite IH; reflexivity.
    + rewrite (handleToolCall_dropped _ _ E). apply IH.
Qed.

(** X23. No tool input is left open: when the closed stream holds a
    [tool-input-start] or a [tool-input-delta] for an id, it holds the
    [tool-input-end] and the [tool-call] for that id too. *)
Theorem tool_input_completed chunks c e :
  let out := fst (doStream chunks source_done) in
  e ∈ out ->
  kind e = ToolInputStart \/ kind e = ToolInputDelta ->
  partId e = Some c ->
  occurrences ToolInputEnd c out = 1%nat /\ occurrences ToolCall c out = 1%nat.
Proof.
  intros out He Hk Hc. subst out.
  assert (delivered ∅ c (streamItems chunks) <> []) as D.
  { apply doStream_parts in He as [He|[He|He]].
    - apply run_elem in He as (h & it & rest & E & He).
      destruct it as [u|reason|text|toolCall].
      + inversion He.
      + apply (step_event _ (finishItem reason)) in He.
        destruct Hk as [Hk|Hk]; rewrite Hk in He; discriminate.
      + apply step_event in He as [-> | [-> _]]; destruct Hk; discriminate.
      + apply step_event in He as (c0 & m & R & He).
        assert (c0 = c) as ->.
        { destruct He as [(n & -> & _)|(a & -> & _)]; simpl in Hc; congruence. }
        rewrite E. change (∅ : gmap Z string) with (indexToId initialSession).
        rewrite delivered_app. simpl delivered at 2. rewrite R, decide_True by reflexivity.
        intros H. apply app_eq_nil in H as [_ H]. discriminate.
    - apply flush_kinds in He. destruct Hk as [Hk|Hk]; rewrite Hk in He; discriminate.
    - destruct Hk; congruence. }
  rewrite doStream_done. simpl fst.
  destruct (outputFrom_call_new c (streamItems chunks) initialSession)
    as (pre & post & R); [apply wellFormed_initial|reflexivity|exact D|].
  assert (forall k e', flushKind k = true -> isPart k c e' ->
            e' ∈ outputFrom initialSession (streamItems chunks) ->
            occurrences k c (outputFrom initialSession (streamItems chunks)) = 1%nat) as H.
  { intros k e' Hk' He' Hin.
    pose proof (outputFrom_at_most_once k c initialSession (streamItems chunks)
                  wellFormed_initial Hk').
    pose proof (occurrences_elem k c e' _ Hin He'). lia. }
  split.
  - apply (H _ (tool_input_end c)); [reflexivity|split; reflexivity|].
    rewrite R. apply elem_of_app. right. left.
  - eapply (H _ (tool_call c _ _)); [reflexivity|split; reflexivity|].
    rewrite R. apply elem_of_app. right. right. left.
Qed.

End Reader.

(** * The request *)

Section RequestFacts.

Context {platform : Platform}.

(** ** Header names *)

Lemma append_prefix_neq p k : forall s,
  String.prefix p s = false -> String.append p k <> s.
Proof.
  induction p as [|a p IH]; intros s H; [destruct s; discriminate|].
  change (String.append (String a p) k) with (String a (String.append p k)).
  destruct s as [|b s]; [discriminate|].
  simpl in H. intros E. injection E as -> E.
  destruct (Ascii.ascii_dec b b); [|contradiction]. apply (IH s H E).
Qed.

Lemma prefix_append_false p q : forall s,
  String.prefix p s = false -> String.prefix (String.append p q) s = false.
Proof.
  induction p as [|a p IH]; intros s H; [destruct s; discriminate|].
  change (String.append (String a p) q) with (String a (String.append p q)).
  destruct s as [|b s]; [reflexivity|].
  simpl in *. destruct (Ascii.ascii_dec a b); [apply IH, H|reflexivity].
Qed.

Lemma append_inj_r p k k' : String.append p k = String.append p k' -> k = k'.
Proof.
  induction p as [|a p IH]; [trivial|].
  change (String.append (String a p) k) with (String a (String.append p k)).
  change (String.append (String a p) k') with (String a (String.append p k')).
  intros E. injection E as E. apply IH, E.
Qed.

Lemma setIfTruthy_lookup key value h k :
  setIfTruthy key value h !! k =
    match JS.truthy value with
    | Some v => if decide (key = k) then Some v else h !! k
    | None => h !! k
    end.
Proof.
  unfold setIfTruthy. destruct (JS.truthy value); [|reflexivity].
  destruct (decide (key = k)) as [->|N].
  - apply lookup_insert_eq.
  - apply lookup_insert_ne, N.
Qed.

Lemma setProperties_other entries : forall h key,
  (forall k, k ∈ entries.*1 -> String.append "Helicone-Property-" k <> key) ->
  setProperties entries h !! key = h !! key.
Proof.
  induction entries as [|[k v] entries IH]; intros h key H; [reflexivity|].
  unfold setProperties in *. simpl. rewrite IH.
  - apply lookup_insert_ne, H. left.
  - intros k' Hk'. apply H. right. exact Hk'.
Qed.

Lemma setTags_other tags : forall h key,
  (forall tag, tag ∈ tags -> String.append "Helicone-Property-Tag-" tag <> key) ->
  setTags tags h !! key = h !! key.
Proof.
  induction tags as [|tag tags IH]; intros h key H; [reflexivity|].
  unfold setTags in *. simpl. rewrite IH.
  - apply lookup_insert_ne, H. left.
  - intros k' Hk'. apply H. right. exact Hk'.
Qed.

Lemma setTags_kept tags : forall h key,
  h !! key = Some "true" -> setTags tags h !! key = Some "true".
Proof.
  induction tags as [|tag tags IH]; intros h key H; [exact H|].
  unfold setTags in *. simpl. apply IH.
  destruct (decide (String.append "Helicone-Property-Tag-" tag = key)) as [->|N].
  - apply lookup_insert_eq.
  - rewrite lookup_insert_ne by exact N. exact H.
Qed.

Lemma setTags_tag tags tag : forall h,
  tag ∈ tags -> setTags tags h !! String.append "Helicone-Property-Tag-" tag = Some "true".
Proof.
  induction tags as [|tag' tags IH]; intros h H; [inversion H|].
  apply elem_of_cons in H as [->|H].
  - unfold setTags. simpl. apply (setTags_kept tags). apply lookup_insert_eq.
  - unfold setTags in *. simpl. apply IH, H.
Qed.

Lemma setProperties_entry entries : forall h k v,
  NoDup entries.*1 -> (k, v) ∈ entries ->
  setProperties entries h !! String.append "Helicone-Property-" k = Some v.
Proof.
  induction entries as [|[k' v'] entries IH]; intros h k v ND H; [inversion H|].
  apply NoDup_cons in ND as [Hk' ND].
  apply elem_of_cons in H as [E|H].
  - injection E as <- <-.
    change (setProperties ((k, v) :: entries) h)
      with (setProperties entries (<[String.append "Helicone-Property-" k := v]> h)).
    rewrite setProperties_other; [apply lookup_insert_eq|].
    intros k0 Hk0 E. apply append_inj_r in E as ->. contradiction.
  - change (setProperties ((k', v') :: entries) h)
      with (setProperties entries (<[String.append "Helicone-Property-" k' := v']> h)).
    apply IH; assumption.
Qed.

Lemma setMetadata_other helicone h key :
  String.prefix "Helicone-" key = false -> setMetadata helicone h !! key = h !! key.
Proof.
  intros H. unfold setMetadata.
  assert (setTags (default [] (h_tags helicone))
            (setProperties (default [] (h_properties helicone))
               (setIfTruthy "Helicone-User-Id" (h_userId helicone)
                  (setIfTruthy "Helicone-Session-Id" (h_sessionId helicone) h))) !! key
          = h !! key) as R.
  { rewrite setTags_other.
    2:{ intros tag _. apply append_prefix_neq.
        apply (prefix_append_false "Helicone-" "Property-Tag-"), H. }
    rewrite setProperties_other.
    2:{ intros k _. apply append_prefix_neq.
        apply (prefix_append_false "Helicone-" "Property-"), H. }
    rewrite !setIfTruthy_lookup.
    destruct (JS.truthy (h_userId helicone)), (JS.truthy (h_sessionId helicone));
      repeat (destruct (decide _) as [<-|_]; [discriminate|]); reflexivity. }
  destruct (h_cache helicone); [|exact R].
  rewrite lookup_insert_ne; [exact R|]. intros <-. discriminate.
Qed.

(** The headers before lines 47-78 run. *)
Lemma headers_base this key :
  (default ∅ (s_headers (settings this)) ∪ {["Content-Type" := "application/json"]}
     : gmap string string) !! key
  = match default ∅ (s_headers (settings this)) !! key with
    | Some v => Some v
    | None => if decide (key = "Content-Type") then Some "application/json" else None
    end.
Proof.
  rewrite lookup_union.
  destruct (default ∅ (s_headers (settings this)) !! key) as [v|]; simpl.
  - destruct (_ !! key); reflexivity.
  - destruct (decide (key = "Content-Type")) as [->|N].
    + rewrite lookup_singleton_eq. reflexivity.
    + rewrite lookup_singleton_ne by congruence. reflexivity.
Qed.

(** X13. The API key decides the [Authorization] header: with a non-empty
    key it is [Bearer <key>], whatever the configured headers and the
    Helicone metadata say; without, it is the configured one.  The
    [Content-Type] is the configured one, and [application/json] when none
    is configured.  No other header whose name does not start with
    [Helicone-] is added or changed. *)
Theorem authorization_header this :
  let configured := default ∅ (s_headers (settings this)) in
  headers this !! "Authorization" =
    match JS.truthy (s_apiKey (settings this)) with
    | Some apiKey => Some (String.append "Bearer " apiKey)
    | None => configured !! "Authorization"
    end
  /\ headers this !! "Content-Type"
     = Some (default "application/json" (configured !! "Content-Type"))
  /\ forall key,
       String.prefix "Helicone-" key = false ->
       key <> "Authorization" -> key <> "Content-Type" ->
       headers this !! key = configured !! key.
Proof.
  intros configured. subst configured.
  assert (forall key, String.prefix "Helicone-" key = false ->
            headers this !! key =
              match JS.truthy (s_apiKey (settings this)) with
              | Some apiKey =>
                  if decide (key = "Authorization") then Some (String.append "Bearer " apiKey)
                  else match default ∅ (s_headers (settings this)) !! key with
                       | Some v => Some v
                       | None => if decide (key = "Content-Type")
                                 then Some "application/json" else None
                       end
              | None =>
                  match default ∅ (s_headers (settings this)) !! key with
                  | Some v => Some v
                  | None => if decide (key = "Content-Type")
                            then Some "application/json" else None
                  end
              end) as H.
  { intros key Hkey. unfold headers.
    assert (forall h : gmap string string,
              match extraBody this ≫= eb_helicone with
              | Some helicone => setMetadata helicone h
              | None => h
              end !! key = h !! key) as ->.
    { intros h. destruct (extraBody this ≫= eb_helicone); [|reflexivity].
      apply setMetadata_other, Hkey. }
    destruct (JS.truthy (s_apiKey (settings this))) as [apiKey|].
    - destruct (decide (key = "Authorization")) as [->|N].
      + apply lookup_insert_eq.
      + rewrite lookup_insert_ne by congruence. apply headers_base.
    - apply headers_base. }
  split; [|split].
  - rewrite H by reflexivity. destruct (JS.truthy _); [reflexivity|].
    destruct (_ !! "Authorization"); reflexivity.
  - rewrite H by reflexivity.
    destruct (JS.truthy _); simpl; destruct (_ !! "Content-Type"); reflexivity.
  - intros key Hkey N1 N2. rewrite H by exact Hkey.
    destruct (JS.truthy _); rewrite ?decide_False by assumption;
      destruct (_ !! key); reflexivity.
Qed.

(** X14. A tag always shows: for every tag of the metadata the header
    [Helicone-Property-Tag-<tag>] is [true], also when a custom property or
    a configured header has that name. *)
Theorem tag_headers this helicone tag :
  extraBody this ≫= eb_helicone = Some helicone ->
  tag ∈ default [] (h_tags helicone) ->
  headers this !! String.append "Helicone-Property-Tag-" tag = Some "true".
Proof.
  intros E H. unfold headers. rewrite E. unfold setMetadata.
  assert (forall h,
            setTags (default [] (h_tags helicone)) h
              !! String.append "Helicone-Property-Tag-" tag = Some "true") as R.
  { intros h. apply setTags_tag, H. }
  destruct (h_cache helicone); [|apply R].
  rewrite lookup_insert_ne; [apply R|].
  intros E'. symmetry in E'. revert E'. apply append_prefix_neq. reflexivity.
Qed.

(** X15. The metadata decide their headers: a non-empty session id, a
    non-empty user id and the cache flag are written over configured headers
    of the same names, and a custom property is sent under
    [Helicone-Property-<key>] unless a tag takes that name. *)
Theorem metadata_headers this helicone :
  extraBody this ≫= eb_helicone = Some helicone ->
  let configured := default ∅ (s_headers (settings this)) in
  headers this !! "Helicone-Session-Id" =
    match JS.truthy (h_sessionId helicone) with
    | Some v => Some v
    | None => configured !! "Helicone-Session-Id"
    end
  /\ headers this !! "Helicone-User-Id" =
       match JS.truthy (h_userId helicone) with
       | Some v => Some v
       | None => configured !! "Helicone-User-Id"
       end
  /\ headers this !! "Helicone-Cache-Enabled" =
       match h_cache helicone with
       | Some b => Some (String_of_bool b)
       | None => configured !! "Helicone-Cache-Enabled"
       end
  /\ forall k v,
       NoDup (default [] (h_properties helicone)).*1 ->
       (k, v) ∈ default [] (h_properties helicone) ->
       (forall tag, tag ∈ default [] (h_tags helicone) -> k <> String.append "Tag-" tag) ->
       headers this !! String.append "Helicone-Property-" k = Some v.
Proof.
  intros E configured. subst configured. unfold headers. rewrite E. unfold setMetadata.
  set (h0 := match JS.truthy (s_apiKey (settings this)) with
             | Some apiKey => <["Authorization" := String.append "Bearer " apiKey]> _
             | None => _
             end).
  assert (forall key, key <> "Authorization" -> key <> "Content-Type" ->
            h0 !! key = default ∅ (s_headers (settings this)) !! key) as H0.
  { intros key N1 N2. subst h0.
    destruct (JS.truthy (s_apiKey (settings this))).
    - rewrite lookup_insert_ne by congruence. rewrite headers_base, decide_False by exact N2.
      destruct (_ !! key); reflexivity.
    - rewrite headers_base, decide_False by exact N2. destruct (_ !! key); reflexivity. }
  clearbody h0.
  assert (forall key (h : gmap string string),
            String.prefix "Helicone-Property-" key = false ->
            setTags (default [] (h_tags helicone))
              (setProperties (default [] (h_properties helicone)) h) !! key = h !! key) as R.
  { intros key h Hkey. rewrite setTags_other.
    2:{ intros tag _. apply append_prefix_neq.
        apply (prefix_append_false "Helicone-Property-" "Tag-"), Hkey. }
    apply setProperties_other. intros k _. apply append_prefix_neq, Hkey. }
  split; [|split; [|split]].
  - destruct (h_cache helicone); [rewrite lookup_insert_ne by discriminate|];
      rewrite R, !setIfTruthy_lookup by reflexivity;
      destruct (JS.truthy (h_userId helicone));
      rewrite ?decide_False by discriminate;
      (destruct (JS.truthy (h_sessionId helicone));
       [rewrite decide_True by reflexivity; reflexivity|]);
      apply H0; discriminate.
  - destruct (h_cache helicone); [rewrite lookup_insert_ne by discriminate|];
      rewrite R, !setIfTruthy_lookup by reflexivity;
      (destruct (JS.truthy (h_userId helicone));
       [rewrite decide_True by reflexivity; reflexivity|]);
      destruct (JS.truthy (h_sessionId helicone));
      rewrite ?decide_False by discriminate;
      apply H0; discriminate.
  - destruct (h_cache helicone); [apply lookup_insert_eq|].
    rewrite R, !setIfTruthy_lookup by reflexivity.
    destruct (JS.truthy (h_userId helicone)), (JS.truthy (h_sessionId helicone));
      rewrite ?decide_False by discriminate; apply H0; discriminate.
  - intros k v ND Hin Htags.
    assert (setTags (default [] (h_tags helicone))
              (setProperties (default [] (h_properties helicone))
                 (setIfTruthy "Helicone-User-Id" (h_userId helicone)
                    (setIfTruthy "Helicone-Session-Id" (h_sessionId helicone) h0)))
              !! String.append "Helicone-Property-" k = Some v) as Hv.
    { rewrite setTags_other.
      - apply setProperties_entry; assumption.
      - intros tag Htag E'.
        change (String.append "Helicone-Property-Tag-" tag)
          with (String.append "Helicone-Property-" (String.append "Tag-" tag)) in E'.
        apply append_inj_r in E'. apply (Htags tag Htag). symmetry. exact E'. }
    destruct (h_cache helicone); [|exact Hv].
    rewrite lookup_insert_ne; [exact Hv|].
    intros E'. symmetry in E'. revert E'. apply append_prefix_neq. reflexivity.
Qed.

(** ** The request body *)

Lemma setIfPresent_lookup key value (object : gmap string Json) k :
  setIfPresent key value object !! k =
    if decide (key = k)
    then match value with Some v => Some v | None => object !! k end
    else object !! k.
Proof.
  unfold setIfPresent. destruct value as [v|].
  - destruct (decide (key = k)) as [->|N].
    + apply lookup_insert_eq.
    + apply lookup_insert_ne, N.
  - destruct (decide (key = k)); reflexivity.
Qed.

Lemma setTools_lookup options body body' k :
  setTools options body = inr body' -> k <> "tools" -> body' !! k = body !! k.
Proof.
  unfold setTools. intros H N.
  destruct (o_tools options) as [[|tool tools]|]; try (injection H as <-; reflexivity).
  destruct (toolEntries (tool :: tools)); [discriminate|].
  injection H as <-. apply lookup_insert_ne. congruence.
Qed.

Lemma setToolChoice_lookup options (body : gmap string Json) k :
  k <> "tool_choice" -> setToolChoice options body !! k = body !! k.
Proof.
  unfold setToolChoice. intros N.
  destruct (o_toolChoice options) as [[]|]; try reflexivity;
    apply lookup_insert_ne; congruence.
Qed.

Lemma setPrompt_lookup this options (body : gmap string Json) k :
  k <> "prompt_id" -> k <> "environment" -> k <> "inputs" -> k <> "messages" ->
  setPrompt this options body !! k = body !! k.
Proof.
  unfold setPrompt. intros N1 N2 N3 N4.
  destruct (JS.truthy (extraBody this ≫= eb_prompt_id)).
  - assert (forall b : gmap string Json,
              (if truthyJson (extraBody this ≫= eb_inputs)
               then setIfPresent "inputs" (extraBody this ≫= eb_inputs) b
               else b) !! k = b !! k) as ->.
    { intros b. destruct (truthyJson _); [|reflexivity].
      rewrite setIfPresent_lookup, decide_False by congruence. reflexivity. }
    destruct (JS.truthy (extraBody this ≫= eb_environment));
      rewrite !lookup_insert_ne by congruence; reflexivity.
  - destruct (o_prompt options) as [[|m prompt]|]; try reflexivity.
    apply lookup_insert_ne. congruence.
Qed.

Lemma bodyLiteral_lookup this options k :
  bodyLiteral this options !! k =
    match otherExtraBody this !! k with
    | Some v => Some v
    | None => bodyLiteral {| modelId := modelId this; settings := settings this;
                             extraBody := None |} options !! k
    end.
Proof.
  unfold bodyLiteral. rewrite !lookup_union.
  change (otherExtraBody {| modelId := modelId this; settings := settings this;
                            extraBody := None |}) with (∅ : gmap string Json).
  rewrite (lookup_empty k).
  destruct (otherExtraBody this !! k); simpl;
    match goal with |- context [?m !! k] => destruct (m !! k) end; reflexivity.
Qed.

(** X16. What [extraBody] holds beside the Helicone fields goes into the
    body and wins over the model id, the [stream] flag and the sampling
    options; the keys the builder writes afterwards ([prompt_id],
    [environment], [inputs], [messages], [tool_choice], [tools]) are the
    only ones it can lose. *)
Theorem extra_body_precedence this options body :
  buildRequestBody this options = inr body ->
  let other := otherExtraBody this in
  (forall k v, other !! k = Some v -> k ∉ assignedKeys -> body !! k = Some v)
  /\ (other !! "model" = None -> body !! "model" = Some (jstring (modelId this)))
  /\ (other !! "temperature" = None ->
      body !! "temperature" = jnumber <$> o_temperature options)
  /\ (other !! "max_tokens" = None ->
      body !! "max_tokens" = jnumber <$> o_maxOutputTokens options)
  /\ (other !! "stop" = None ->
      body !! "stop" = (fun l => jarray (jstring <$> l)) <$> o_stopSequences options)
  /\ (is_Some (o_toolChoice options) ->
      body !! "tool_choice" = setToolChoice options ∅ !! "tool_choice").
Proof.
  intros H other. subst other. unfold buildRequestBody in H.
  assert (forall k, k ∉ assignedKeys ->
            body !! k = bodyLiteral this options !! k) as R.
  { intros k Hk.
    rewrite (setTools_lookup _ _ _ k H), setToolChoice_lookup, setPrompt_lookup;
      try reflexivity; intros ->; apply Hk; unfold assignedKeys; set_solver. }
  split; [|split; [|split; [|split; [|split]]]].
  - intros k v Hv Hk. rewrite (R k Hk), bodyLiteral_lookup, Hv. reflexivity.
  - intros Hv. rewrite R, bodyLiteral_lookup, Hv.
    + unfold bodyLiteral, otherExtraBody. simpl extraBody. rewrite lookup_union, lookup_empty.
      rewrite !setIfPresent_lookup. simpl. reflexivity.
    + unfold assignedKeys. intros Hin. repeat (apply elem_of_cons in Hin as [?|Hin]; [discriminate|]).
      inversion Hin.
  - intros Hv. rewrite R, bodyLiteral_lookup, Hv.
    + unfold bodyLiteral, otherExtraBody. simpl extraBody. rewrite lookup_union, lookup_empty.
      rewrite !setIfPresent_lookup. simpl. destruct (o_temperature options); reflexivity.
    + unfold assignedKeys. intros Hin. repeat (apply elem_of_cons in Hin as [?|Hin]; [discriminate|]).
      inversion Hin.
  - intros Hv. rewrite R, bodyLiteral_lookup, Hv.
    + unfold bodyLiteral, otherExtraBody. simpl extraBody. rewrite lookup_union, lookup_empty.
      rewrite !setIfPresent_lookup. simpl. destruct (o_maxOutputTokens options); reflexivity.
    + unfold assignedKeys. intros Hin. repeat (apply elem_of_cons in Hin as [?|Hin]; [discriminate|]).
      inversion Hin.
  - intros Hv. rewrite R, bodyLiteral_lookup, Hv.
    + unfold bodyLiteral, otherExtraBody. simpl extraBody. rewrite lookup_union, lookup_empty.
      rewrite !setIfPresent_lookup. simpl. destruct (o_stopSequences options); reflexivity.
    + unfold assignedKeys. intros Hin. repeat (apply elem_of_cons in Hin as [?|Hin]; [discriminate|]).
      inversion Hin.
  - intros [choice Hc]. rewrite (setTools_lookup _ _ _ "tool_choice" H) by discriminate.
    unfold setToolChoice. rewrite Hc.
    destruct choice; rewrite !lookup_insert_eq; reflexivity.
Qed.

(** X17. A streaming request always asks for a stream, whatever [extraBody]
    says; a non-streaming request asks for none unless [extraBody] sets
    [stream].  Beside that flag the two requests are the same, and they
    fail on the same tools. *)
Theorem stream_flag this options :
  match generateRequest this options, streamRequest this options with
  | inr g, inr s =>
      requestBody s !! "stream" = Some (jbool true)
      /\ requestBody g !! "stream"
         = Some (default (jbool false) (otherExtraBody this !! "stream"))
      /\ (forall k, k <> "stream" -> requestBody s !! k = requestBody g !! k)
      /\ url s = url g /\ requestHeaders s = requestHeaders g
  | inl e, inl e' => e = e'
  | _, _ => False
  end.
Proof.
  unfold generateRequest, streamRequest.
  destruct (buildRequestBody this options) as [e|body] eqn:E; [reflexivity|].
  simpl. split; [apply lookup_insert_eq|]. split.
  - unfold buildRequestBody in E.
    rewrite (setTools_lookup _ _ _ "stream" E), setToolChoice_lookup, setPrompt_lookup
      by discriminate.
    rewrite bodyLiteral_lookup.
    destruct (otherExtraBody this !! "stream"); [reflexivity|].
    unfold bodyLiteral, otherExtraBody. simpl extraBody. rewrite lookup_union, lookup_empty.
    rewrite !setIfPresent_lookup. simpl. reflexivity.
  - split; [|split; reflexivity].
    intros k N. apply lookup_insert_ne. congruence.
Qed.

Lemma bodyLiteral_assigned this options k :
  k ∈ assignedKeys -> bodyLiteral this options !! k = otherExtraBody this !! k.
Proof.
  intros Hk. rewrite bodyLiteral_lookup.
  destruct (otherExtraBody this !! k); [reflexivity|].
  unfold bodyLiteral, otherExtraBody. simpl extraBody. rewrite lookup_union, lookup_empty.
  rewrite !setIfPresent_lookup. unfold assignedKeys in Hk.
  repeat (apply elem_of_cons in Hk as [->|Hk]; [reflexivity|]). inversion Hk.
Qed.

Lemma otherExtraBody_taken this :
  otherExtraBody this !! "prompt_id" = None
  /\ otherExtraBody this !! "inputs" = None
  /\ otherExtraBody this !! "environment" = None.
Proof.
  unfold otherExtraBody. destruct (extraBody this) as [extra|]; [|repeat split; reflexivity].
  repeat split.
  - rewrite lookup_delete_ne by discriminate. apply lookup_delete_eq.
  - rewrite !lookup_delete_ne by discriminate. apply lookup_delete_eq.
  - rewrite !lookup_delete_ne by discriminate. apply lookup_delete_eq.
Qed.

(** X18. With a non-empty [prompt_id] the body refers to the stored prompt,
    with the environment and the inputs when they are given, and the prompt
    of the call is not sent.  Without, neither [prompt_id] nor
    [environment] nor [inputs] is sent, a non-empty prompt is sent as
    [messages], and an empty one is not sent at all. *)
Theorem prompt_id_replaces_messages this options body :
  buildRequestBody this options = inr body ->
  match JS.truthy (extraBody this ≫= eb_prompt_id) with
  | Some prompt_id =>
      body !! "prompt_id" = Some (jstring prompt_id)
      /\ body !! "messages" = otherExtraBody this !! "messages"
      /\ body !! "environment" = (jstring <$> JS.truthy (extraBody this ≫= eb_environment))
      /\ body !! "inputs" =
           (if truthyJson (extraBody this ≫= eb_inputs)
            then extraBody this ≫= eb_inputs else None)
  | None =>
      body !! "prompt_id" = None
      /\ body !! "environment" = None
      /\ body !! "inputs" = None
      /\ body !! "messages" =
           match o_prompt options with
           | Some (m :: prompt) => Some (convertToHeliconePrompt (m :: prompt))
           | _ => otherExtraBody this !! "messages"
           end
  end.
Proof.
  intros H. unfold buildRequestBody in H.
  assert (forall k, k <> "tools" -> k <> "tool_choice" ->
            body !! k = setPrompt this options (bodyLiteral this options) !! k) as R.
  { intros k N1 N2.
    rewrite (setTools_lookup _ _ _ k H N1), setToolChoice_lookup by exact N2. reflexivity. }
  destruct (otherExtraBody_taken this) as (T1 & T2 & T3).
  assert (bodyLiteral this options !! "prompt_id" = None) as L1.
  { rewrite bodyLiteral_assigned, T1; [reflexivity|]. unfold assignedKeys. set_solver. }
  assert (bodyLiteral this options !! "inputs" = None) as L2.
  { rewrite bodyLiteral_assigned, T2; [reflexivity|]. unfold assignedKeys. set_solver. }
  assert (bodyLiteral this options !! "environment" = None) as L3.
  { rewrite bodyLiteral_assigned, T3; [reflexivity|]. unfold assignedKeys. set_solver. }
  assert (bodyLiteral this options !! "messages" = otherExtraBody this !! "messages") as L4.
  { apply bodyLiteral_assigned. unfold assignedKeys. set_solver. }
  rewrite !R by discriminate. unfold setPrompt.
  destruct (JS.truthy (extraBody this ≫= eb_prompt_id)) as [prompt_id|].
  - assert (forall (b : gmap string Json) k,
              (if truthyJson (extraBody this ≫= eb_inputs)
               then setIfPresent "inputs" (extraBody this ≫= eb_inputs) b
               else b) !! k =
              if decide (k = "inputs")
              then (if truthyJson (extraBody this ≫= eb_inputs)
                    then extraBody this ≫= eb_inputs else b !! k)
              else b !! k) as I.
    { intros b k. destruct (decide (k = "inputs")) as [->|N].
      - destruct (truthyJson (extraBody this ≫= eb_inputs)) eqn:E; [|reflexivity].
        rewrite setIfPresent_lookup, decide_True by reflexivity.
        destruct (extraBody this ≫= eb_inputs); [reflexivity|discriminate].
      - destruct (truthyJson _); [|reflexivity].
        rewrite setIfPresent_lookup, decide_False by congruence. reflexivity. }
    rewrite !I. rewrite !decide_False by discriminate. rewrite decide_True by reflexivity.
    destruct (JS.truthy (extraBody this ≫= eb_environment)) as [environment|]; simpl.
    + rewrite (lookup_insert_ne _ "environment" "prompt_id") by discriminate.
      rewrite lookup_insert_eq.
      rewrite !(lookup_insert_ne _ _ "messages") by discriminate.
      rewrite lookup_insert_eq.
      rewrite !(lookup_insert_ne _ _ "inputs") by discriminate.
      rewrite L2, L4. destruct (truthyJson _); auto.
    + rewrite lookup_insert_eq.
      rewrite !(lookup_insert_ne _ "prompt_id") by discriminate.
      rewrite L2, L3, L4. destruct (truthyJson _); auto.
  - destruct (o_prompt options) as [[|m prompt]|].
    + rewrite L1, L2, L3, L4. auto.
    + rewrite !(lookup_insert_ne _ "messages") by discriminate.
      rewrite lookup_insert_eq, L1, L2, L3. auto.
    + rewrite L1, L2, L3, L4. auto.
Qed.

(** ** The tools *)

Lemma ensureType_type parameters :
  ensureType parameters !! "type" =
    match parameters !! "type" with
    | Some (jstring t) =>
        if decide (t = EmptyString \/ t = "None") then Some (jstring "object")
        else Some (jstring t)
    | _ => Some (jstring "object")
    end.
Proof.
  unfold ensureType.
  destruct (parameters !! "type") as [[| | |t| |]|] eqn:E; try apply lookup_insert_eq.
  destruct (decide (t = EmptyString)) as [->|N1].
  - rewrite decide_True by auto. apply lookup_insert_eq.
  - destruct (decide (t = "None")) as [->|N2].
    + rewrite decide_True by auto. apply lookup_insert_eq.
    + rewrite decide_False by (intros [?|?]; contradiction). exact E.
Qed.

Lemma ensureProperties_lookup parameters k :
  k <> "properties" -> ensureProperties parameters !! k = parameters !! k.
Proof.
  unfold ensureProperties. intros N. destruct (_ && _); [|reflexivity].
  apply lookup_insert_ne. congruence.
Qed.

Lemma ensureProperties_present parameters :
  truthyJson (ensureProperties parameters !! "properties") = true
  \/ truthyJson (ensureProperties parameters !! "additionalProperties") = true.
Proof.
  unfold ensureProperties.
  destruct (truthyJson (parameters !! "properties")) eqn:E1; [left; exact E1|].
  destruct (truthyJson (parameters !! "additionalProperties")) eqn:E2; [right; exact E2|].
  left. simpl. rewrite lookup_insert_eq. reflexivity.
Qed.

Lemma toolEntry_inr tool entry :
  toolEntry tool = inr entry -> ~ refused tool /\ entryFor tool entry.
Proof.
  unfold toolEntry, refused.
  destruct (normalizeToolParameters tool) as [parameters|]; [|discriminate].
  pose proof (ensureType_type parameters) as T.
  rewrite <- (ensureProperties_lookup _ "type") in T by discriminate.
  destruct (isObjectType _) eqn:O; [|discriminate]. intros [= <-].
  assert (ensureProperties (ensureType parameters) !! "type" = Some (jstring "object")) as O'.
  { unfold isObjectType in O.
    destruct (ensureProperties (ensureType parameters) !! "type") as [[| | |t| |]|];
      try discriminate.
    apply bool_decide_eq_true in O as ->. reflexivity. }
  split.
  - intros (t & E & N1 & N2 & N3). rewrite E, decide_False in T by tauto. congruence.
  - assert (schemaOf
              (jobject
                 (<["function" :=
                      jobject
                        (setIfPresent "name" (jstring <$> toolNameOf tool)
                           (<["description" :=
                                jstring (default EmptyString (JS.truthy (t_description tool)))]>
                              (<["parameters" :=
                                   jobject (ensureProperties (ensureType parameters))]> ∅)))]>
                    (<["type" := jstring "function"]> ∅)))
            = Some (jobject (ensureProperties (ensureType parameters)))) as S.
    { unfold schemaOf. simpl. rewrite lookup_insert_eq. simpl.
      rewrite setIfPresent_lookup, decide_False by discriminate.
      rewrite lookup_insert_ne by discriminate. apply lookup_insert_eq. }
    unfold entryFor. rewrite S. simpl. split; [|split; [|split]].
    + rewrite lookup_insert_ne by discriminate. apply lookup_insert_eq.
    + rewrite lookup_insert_eq. simpl. rewrite setIfPresent_lookup, decide_True by reflexivity.
      destruct (toolNameOf tool); [reflexivity|].
      simpl. rewrite !lookup_insert_ne by discriminate. reflexivity.
    + exact O'.
    + apply ensureProperties_present.
Qed.

Lemma toolEntry_inl tool e : toolEntry tool = inl e -> refused tool.
Proof.
  unfold toolEntry, refused.
  destruct (normalizeToolParameters tool) as [parameters|]; [|trivial].
  pose proof (ensureType_type parameters) as T.
  rewrite <- (ensureProperties_lookup _ "type") in T by discriminate.
  destruct (isObjectType _) eqn:O; [discriminate|]. intros _.
  rewrite T in O. unfold rejectedSchema.
  destruct (parameters !! "type") as [[| | |t| |]|]; try discriminate.
  destruct (decide (t = EmptyString \/ t = "None")) as [?|N]; [discriminate|].
  exists t. split; [reflexivity|]. simpl in O. apply bool_decide_eq_false in O. tauto.
Qed.

Lemma toolEntries_inr tools : forall entries,
  toolEntries tools = inr entries ->
  Forall (fun tool => ~ refused tool) tools /\ Forall2 entryFor tools entries.
Proof.
  induction tools as [|tool tools IH]; intros entries H.
  - injection H as <-. split; constructor.
  - simpl in H. destruct (toolEntry tool) as [e|entry] eqn:E; [discriminate|].
    destruct (toolEntries tools) as [e|entries']; [discriminate|].
    injection H as <-. apply toolEntry_inr in E as [E1 E2].
    destruct (IH entries' eq_refl) as [F1 F2].
    split; constructor; assumption.
Qed.

Lemma toolEntries_inl tools : forall e, toolEntries tools = inl e -> Exists refused tools.
Proof.
  induction tools as [|tool tools IH]; intros e; [discriminate|].
  simpl. destruct (toolEntry tool) as [e'|entry] eqn:E.
  - intros _. left. apply (toolEntry_inl _ _ E).
  - destruct (toolEntries tools) as [e'|entries']; [|discriminate].
    intros _. right. apply (IH e'). reflexivity.
Qed.

(** X19. Every tool is sent as a function with an object schema, or the
    call fails before any request is made: the body is built exactly when
    no tool is refused, and then [tools] holds one entry for each tool, in
    order, whose schema has [type: object] and [properties] or
    [additionalProperties]; without tools the builder writes no [tools]. *)
Theorem tool_schemas_checked this options :
  let tools := default [] (o_tools options) in
  ((exists e, buildRequestBody this options = inl e) <-> Exists refused tools)
  /\ (forall body,
        buildRequestBody this options = inr body ->
        match tools with
        | [] => body !! "tools" = otherExtraBody this !! "tools"
        | _ => exists entries,
                 body !! "tools" = Some (jarray entries) /\ Forall2 entryFor tools entries
        end).
Proof.
  intros tools. subst tools. unfold buildRequestBody, setTools.
  set (b := setToolChoice options (setPrompt this options (bodyLiteral this options))).
  assert (b !! "tools" = otherExtraBody this !! "tools") as B.
  { subst b. rewrite setToolChoice_lookup, setPrompt_lookup, bodyLiteral_lookup by discriminate.
    destruct (otherExtraBody this !! "tools"); [reflexivity|].
    unfold bodyLiteral, otherExtraBody. simpl extraBody. rewrite lookup_union, lookup_empty.
    rewrite !setIfPresent_lookup. reflexivity. }
  clearbody b.
  destruct (o_tools options) as [[|tool tools]|]; simpl default.
  - split; [split; [intros [e [=]]|intros H; inversion H]|]. intros body [= <-]. exact B.
  - destruct (toolEntries (tool :: tools)) as [e|entries] eqn:E.
    + split; [|intros body [=]]. split; [|eauto]. intros _. apply (toolEntries_inl _ _ E).
    + apply toolEntries_inr in E as [F1 F2]. split.
      * split; [intros [e [=]]|]. intros H. exfalso.
        apply Exists_exists in H as (t & Hin & Ht).
        rewrite Forall_forall in F1. apply (F1 t Hin Ht).
      * intros body [= <-]. exists entries. split; [apply lookup_insert_eq|exact F2].
  - split; [split; [intros [e [=]]|intros H; inversion H]|]. intros body [= <-]. exact B.
Qed.

End RequestFacts.

(** * The non-streaming response *)

Section ResponseFacts.

Context {collaborators : Collaborators} {platform : Platform}.

(** X20. The two ways of reading the usage agree on the input and output
    tokens, and on the total when the response gives one.  When
    [total_tokens] is missing, [doGenerate] reports the sum of the two
    counts and [doStream] reports zero.  Without a usage object
    [doGenerate] reports zero throughout. *)
Theorem usage_of_both_paths u :
  inputTokens (generateUsage (Some u)) = inputTokens (readUsage u)
  /\ outputTokens (generateUsage (Some u)) = outputTokens (readUsage u)
  /\ (is_Some (total_tokens u) -> generateUsage (Some u) = readUsage u)
  /\ (total_tokens u = None ->
      totalTokens (generateUsage (Some u))
      = inputTokens (readUsage u) + outputTokens (readUsage u)
      /\ totalTokens (readUsage u) = 0)
  /\ generateUsage None = zeroUsage.
Proof.
  unfold generateUsage, readUsage, JS.orZero, zeroUsage. simpl.
  split; [reflexivity|]. split; [reflexivity|]. split; [|split; [|reflexivity]].
  - intros [t ->]. reflexivity.
  - intros ->. split; reflexivity.
Qed.

Lemma mapM_toolCallContent l :
  match mapM toolCallContent l with
  | Some calls => Forall2 (fun toolCall part => toolCallContent toolCall = Some part) l calls
  | None => Exists (fun toolCall => tcd_function toolCall = None) l
  end.
Proof.
  induction l as [|toolCall l IH]; [constructor|].
  csimpl. destruct (toolCallContent toolCall) as [part|] eqn:E; csimpl.
  - destruct (mapM toolCallContent l) as [calls|]; csimpl.
    + constructor; assumption.
    + right. exact IH.
  - left. unfold toolCallContent in E. destruct (tcd_function toolCall); [discriminate|].
    reflexivity.
Qed.

(** X21. [doGenerate] reads a response exactly when it has a first choice
    with a message whose tool calls all have a [function]; the arguments of
    a tool call never make it fail.  The content is the text, when not
    empty, followed by one part for each tool call in order, whose input is
    the parsed arguments, and the empty object when the arguments are
    missing, empty or not JSON. *)
Theorem response_read data :
  JSON_parse_value "{}" = Some (jobject ∅) ->
  (is_Some (readResponse data) <-> readable data)
  /\ forall r, readResponse data = Some r ->
       exists choice message calls,
         head (default [] (g_choices data)) = Some choice
         /\ gc_message choice = Some message
         /\ r_content r = option_list (content_text <$> JS.truthy (m_content message)) ++ calls
         /\ Forall2 (fun toolCall part =>
                       exists fn,
                         tcd_function toolCall = Some fn /\
                         part = content_tool_call (tcd_id toolCall) (fn_name fn)
                                  (default (jobject ∅)
                                     (JS.truthy (fn_arguments fn) ≫= JSON_parse_value)))
                    (default [] (m_tool_calls message)) calls
         /\ r_finishReason r = finishReasonOf (gc_finish_reason choice)
         /\ r_usage r = generateUsage (g_usage data).
Proof.
  intros P. unfold readResponse, readable.
  destruct (head (default [] (g_choices data))) as [choice|]; csimpl.
  2:{ split; [|discriminate]. split; [intros [? [=]]|intros (? & ? & [=] & _)]. }
  destruct (gc_message choice) as [message|] eqn:Em; csimpl.
  2:{ split; [|discriminate].
      split; [intros [? [=]]|intros (? & ? & [= <-] & Hm & _); congruence]. }
  pose proof (mapM_toolCallContent (default [] (m_tool_calls message))) as M.
  destruct (mapM toolCallContent (default [] (m_tool_calls message))) as [calls|]; csimpl.
  - split.
    + split; [|eauto]. intros _. exists choice, message. split; [reflexivity|].
      split; [exact Em|].
      eapply Forall2_Forall_l; [exact M|]. apply Forall_forall. intros part _ toolCall H.
      unfold toolCallContent in H. destruct (tcd_function toolCall); [eauto|discriminate].
    + intros r [= <-]. exists choice, message, calls. simpl.
      split; [reflexivity|]. split; [exact Em|]. split.
      { destruct (JS.truthy (m_content message)); reflexivity. }
      split; [|split; reflexivity].
      eapply Forall2_impl; [exact M|]. intros toolCall part H.
      unfold toolCallContent in H. destruct (tcd_function toolCall) as [fn|]; [|discriminate].
      injection H as <-. exists fn. split; [reflexivity|]. f_equal.
      unfold parseInput. destruct (JS.truthy (fn_arguments fn)); [reflexivity|].
      simpl. rewrite P. reflexivity.
  - split; [|discriminate]. split; [intros [? [=]]|].
    intros (choice' & message' & [= <-] & Hm & F). exfalso.
    rewrite Em in Hm. injection Hm as <-.
    apply Exists_exists in M as (toolCall & Hin & Hn).
    rewrite Forall_forall in F. destruct (F toolCall Hin) as [fn Hfn]. congruence.
Qed.

End ResponseFacts.

Section Agreement.

Context {collaborators : Collaborators} {platform : Platform}.

(** ** A response read both ways *)

Lemma toolCallsOf_app out1 out2 :
  toolCallsOf (out1 ++ out2) = toolCallsOf out1 ++ toolCallsOf out2.
Proof. apply omap_app. Qed.

Lemma toolCallsOf_none out :
  (forall e, e ∈ out -> kind e <> ToolCall) -> toolCallsOf out = [].
Proof.
  intros H. apply omap_all_None, Forall_forall. intros e He.
  specialize (H e He). destruct e; simpl in *; congruence.
Qed.

Lemma applyFragment_new c fn : fst (applyFragment c fn (newCall c)) = trackedOnce c fn.
Proof.
  unfold applyFragment, applyName, applyArguments, trackedOnce.
  destruct (JS.truthy (fn ≫= fn_name)) as [n|]; simpl;
    destruct (JS.truthy (fn ≫= fn_arguments)) as [a|]; reflexivity.
Qed.

Lemma run_identified l : forall s,
  Forall (fun toolCall => is_Some (JS.truthy (tcd_id toolCall))) l ->
  NoDup (tcd_id <$> l) ->
  (forall toolCall c, toolCall ∈ l -> tcd_id toolCall = Some c -> c ∉ (toolCalls s).*1) ->
  toolCalls (fst (run s (fragmentItem <$> l)))
  = toolCalls s ++ omap entryOnce l.
Proof.
  induction l as [|toolCall l IH]; intros s F ND Hs.
  - simpl. rewrite app_nil_r. reflexivity.
  - apply Forall_cons in F as [[c Hc] F]. rewrite fmap_cons in ND.
    apply NoDup_cons in ND as [Hn ND].
    rewrite fmap_cons, run_cons. simpl fst.
    change (fst (step s (fragmentItem toolCall))) with (fst (handleToolCall s toolCall)).
    change (omap entryOnce (toolCall :: l))
      with (match entryOnce toolCall with
            | Some y => y :: omap entryOnce l
            | None => omap entryOnce l
            end).
    unfold entryOnce at 1. rewrite Hc. cbn [fmap option_fmap option_map].
    pose proof (truthy_nonempty _ _ Hc) as [Hid _].
    assert (resolveToolId (indexToId s) toolCall
            = Some (c, match tcd_index toolCall with
                       | Some i => <[i := c]> (indexToId s)
                       | None => indexToId s
                       end)) as R.
    { unfold resolveToolId. rewrite Hc. reflexivity. }
    assert (getCall c (toolCalls s) = None) as G.
    { apply getCall_None. apply (Hs toolCall c); [left|exact Hid]. }
    assert (toolCalls (fst (handleToolCall s toolCall))
            = toolCalls s ++ [(c, trackedOnce c (tcd_function toolCall))]) as T.
    { rewrite (handleToolCall_calls _ _ _ _ R). unfold getOrCreate, currentCall.
      rewrite G. simpl. rewrite putCall_last by exact G. rewrite applyFragment_new.
      reflexivity. }
    rewrite IH; [rewrite T, <- app_assoc; reflexivity|exact F|exact ND|].
    intros toolCall' c' Hin Hc'. rewrite T, fmap_app. intros Hel.
    apply elem_of_app in Hel as [Hel|Hel].
    + revert Hel. apply (Hs toolCall' c'); [right; exact Hin|exact Hc'].
    + apply list_elem_of_singleton in Hel. simpl in Hel. subst c'.
      apply Hn. rewrite Hid, <- Hc'. apply list_elem_of_fmap. exists toolCall'. auto.
Qed.

Lemma run_fragments_calls l : forall s, toolCallsOf (snd (run s (fragmentItem <$> l))) = [].
Proof.
  intros s. apply toolCallsOf_none. intros e He.
  apply run_elem in He as (h & it & rest & E & He).
  assert (isFragment it = true) as Hit.
  { assert (it ∈ fragmentItem <$> l) as Hin by (rewrite E; apply elem_of_app; right; left).
    apply list_elem_of_fmap in Hin as (x & -> & _). reflexivity. }
  destruct it; try discriminate.
  apply step_event in He as (c & m & _ & [(n & -> & _)|(a & -> & _)]); discriminate.
Qed.

Lemma flush_toolCallsOf s :
  Forall (fun p => tc_completed p.2 = false) (toolCalls s) ->
  toolCallsOf (snd (flush s))
  = (fun p => (tc_id p.2, tc_name p.2, tc_arguments p.2)) <$> toolCalls s.
Proof.
  intros F. rewrite flush_events, toolCallsOf_app.
  rewrite (toolCallsOf_none (snd (completeText _ _))), app_nil_r.
  2:{ intros e (id & -> & _)%completeText_event. discriminate. }
  induction (toolCalls s) as [|[k tc] calls IH]; [reflexivity|].
  apply Forall_cons in F as [Hc F]. simpl in Hc.
  rewrite completeToolCalls_cons, toolCallsOf_app, IH by exact F.
  unfold completionEvents. rewrite Hc. reflexivity.
Qed.

Lemma run_quiet items : forall s,
  toolCalls s = [] ->
  forallb (fun it => negb (isFragment it)) items = true ->
  toolCalls (fst (run s items)) = [] /\ toolCallsOf (snd (run s items)) = [].
Proof.
  induction items as [|it items IH]; intros s Hs H; [split; [exact Hs|reflexivity]|].
  simpl in H. apply andb_prop in H as [Hit H].
  rewrite run_cons. simpl. rewrite toolCallsOf_app.
  destruct it as [u|reason|text|toolCall]; try discriminate.
  - apply (IH (set_usage (readUsage u) s)); assumption.
  - simpl.
    set (s' := set_finishReason (mapHeliconeFinishReason reason) s).
    assert (toolCalls (fst (flush s')) = []) as Hs'.
    { destruct (flush_fields s') as (-> & _). change (toolCalls s') with (toolCalls s).
      rewrite Hs. reflexivity. }
    destruct (IH (fst (flush s')) Hs' H) as [R1 R2].
    split; [exact R1|]. rewrite R2, app_nil_r.
    rewrite flush_toolCallsOf; change (toolCalls s') with (toolCalls s); rewrite Hs;
      [reflexivity|constructor].
  - simpl.
    assert (toolCalls (fst (emitText s text)) = []) as Hs'.
    { destruct (emitText_frame s text) as (_ & _ & -> & _). exact Hs. }
    destruct (IH (fst (emitText s text)) Hs' H) as [R1 R2].
    split; [exact R1|]. rewrite R2, app_nil_r.
    apply toolCallsOf_none.
    intros e [-> | [-> _]]%(step_event s (contentItem text)); discriminate.
Qed.

Lemma frameItems_asFrame data choice message :
  firstChoice data = Some choice -> gc_message choice = Some message ->
  exists items,
    frameItems (asFrame data)
    = items ++ (fragmentItem <$> default [] (m_tool_calls message))
    /\ forallb (fun it => negb (isFragment it)) items = true
    /\ omap (fun it => match it with contentItem text => Some text | _ => None end) items
       = option_list (JS.truthy (m_content message))
    /\ (forall r0, reasonAfter r0 items =
          match JS.truthy (gc_finish_reason choice) with
          | Some r => mapHeliconeFinishReason r
          | None => r0
          end)
    /\ (forall u0, usageAfter u0 items =
          match g_usage data with
          | Some u => readUsage u
          | None => u0
          end).
Proof.
  unfold firstChoice. intros Hc Hm.
  unfold frameItems, asFrame. simpl f_usage. simpl f_choices.
  assert (head (default [] ((fun choices : list GenerateChoice =>
            (fun choice => {| c_delta := asDelta <$> gc_message choice;
                              c_finish_reason := gc_finish_reason choice |}) <$> choices)
            <$> g_choices data))
          = Some {| c_delta := Some (asDelta message);
                    c_finish_reason := gc_finish_reason choice |}) as ->.
  { destruct (g_choices data) as [[|choice' choices]|]; try discriminate.
    simpl in Hc. injection Hc as ->. csimpl. rewrite Hm. reflexivity. }
  simpl from_option. unfold choiceItems. simpl c_finish_reason. simpl c_delta.
  simpl from_option. unfold deltaItems, asDelta. simpl d_content. simpl d_tool_calls.
  exists (match g_usage data with Some u => [usageItem u] | None => [] end
          ++ match JS.truthy (gc_finish_reason choice) with
             | Some reason => [finishItem reason] | None => [] end
          ++ match JS.truthy (m_content message) with
             | Some text => [contentItem text] | None => [] end).
  split; [rewrite <- !app_assoc; reflexivity|].
  destruct (g_usage data), (JS.truthy (gc_finish_reason choice)), (JS.truthy (m_content message));
    repeat split; reflexivity.
Qed.

Lemma readResponse_Some data r :
  readResponse data = Some r ->
  exists choice message calls,
    firstChoice data = Some choice
    /\ gc_message choice = Some message
    /\ Forall2 (fun toolCall part => toolCallContent toolCall = Some part)
               (default [] (m_tool_calls message)) calls
    /\ r = {| r_content := option_list (content_text <$> JS.truthy (m_content message)) ++ calls;
              r_finishReason := finishReasonOf (gc_finish_reason choice);
              r_usage := generateUsage (g_usage data) |}.
Proof.
  unfold readResponse, firstChoice.
  destruct (head (default [] (g_choices data))) as [choice|]; [|discriminate]. csimpl.
  destruct (gc_message choice) as [message|] eqn:Em; [|discriminate]. csimpl.
  pose proof (mapM_toolCallContent (default [] (m_tool_calls message))) as M.
  destruct (mapM toolCallContent (default [] (m_tool_calls message))) as [calls|];
    [|discriminate].
  csimpl. intros [= <-]. exists choice, message, calls.
  repeat (split; [first [reflexivity|assumption]|]).
  destruct (JS.truthy (m_content message)); reflexivity.
Qed.

Lemma fragments_no_text l :
  omap (fun it => match it with contentItem text => Some text | _ => None end)
       (fragmentItem <$> l) = [].
Proof. apply omap_all_None, Forall_fmap, Forall_forall. reflexivity. Qed.

Lemma fragments_plain l :
  forallb (fun it => negb (isUsage it)) (fragmentItem <$> l) = true
  /\ forallb (fun it => negb (isSignal it)) (fragmentItem <$> l) = true.
Proof. induction l as [|x l [IH1 IH2]]; split; auto. Qed.

(** X22. A response read by [doGenerate] and the same response streamed
    in one frame give the same result: the same text; when every tool call
    has a non-empty id of its own, the same tool calls in the same order,
    the streamed input being the text [doGenerate] parses; the same finish
    reason when the response gives one; the same usage when the response
    gives no usage or one with [total_tokens]. *)
Theorem one_frame_agreement chunks data r :
  streamFrames chunks = [asFrame data] ->
  readResponse data = Some r ->
  let out := fst (doStream chunks source_done) in
  textOf out = textsOf (r_content r)
  /\ (identified (messageCalls data) ->
      Forall2 sameCall (toolCallsOf out) (callsOf (r_content r)))
  /\ exists pre us rs,
       out = pre ++ [finish us rs]
       /\ (is_Some (JS.truthy (firstChoice data ≫= gc_finish_reason)) ->
           rs = r_finishReason r)
       /\ ((forall u, g_usage data = Some u -> is_Some (total_tokens u)) ->
           us = r_usage r).
Proof.
  intros E R out. subst out.
  apply readResponse_Some in R as (choice & message & calls & Hc & Hm & F & ->).
  destruct (frameItems_asFrame data choice message Hc Hm)
    as (items & Ei & Hq & Ht & Hr & Hu).
  assert (streamItems chunks = items ++ (fragmentItem <$> default [] (m_tool_calls message)))
    as Es.
  { unfold streamItems. rewrite E. csimpl. rewrite app_nil_r. exact Ei. }
  rewrite doStream_done. simpl fst. rewrite Es. clear Es Ei E.
  set (l := default [] (m_tool_calls message)) in *.
  assert (textsOf calls = [] /\
          callsOf calls = omap (fun toolCall =>
                                  match toolCallContent toolCall with
                                  | Some (content_tool_call c n input) => Some (c, n, input)
                                  | _ => None
                                  end) l) as [Ct Cc].
  { clear -F. induction F as [|toolCall part l calls H F [IH1 IH2]]; [split; reflexivity|].
    pose proof H as H'.
    unfold toolCallContent in H. destruct (tcd_function toolCall) as [fn|] eqn:Ef;
      [|discriminate]. injection H as <-.
    split.
    - exact IH1.
    - change (callsOf (content_tool_call (tcd_id toolCall) (fn_name fn)
                         (parseInput (fn_arguments fn)) :: calls))
        with ((tcd_id toolCall, fn_name fn, parseInput (fn_arguments fn)) :: callsOf calls).
      rewrite IH2. csimpl. rewrite H'. reflexivity. }
  split; [|split].
  - rewrite outputFrom_split, !textOf_app, run_text.
    rewrite (textOf_none (snd (flush _))).
    2:{ intros e He Hk. apply flush_no_payload in He. rewrite Hk in He. discriminate. }
    cbn [textOf omap list_omap]. rewrite !app_nil_r.
    rewrite omap_app, fragments_no_text, app_nil_r, Ht.
    simpl r_content. unfold textsOf at 1. rewrite omap_app. fold (textsOf calls).
    rewrite Ct, app_nil_r. destruct (JS.truthy (m_content message)); reflexivity.
  - intros [Hid ND].
    assert (messageCalls data = l) as El.
    { unfold messageCalls. rewrite Hc. csimpl. rewrite Hm. reflexivity. }
    rewrite El in Hid, ND. clear El.
    rewrite outputFrom_app, toolCallsOf_app.
    destruct (run_quiet items initialSession eq_refl Hq) as [Q1 Q2].
    rewrite Q2. simpl app.
    rewrite outputFrom_split, !toolCallsOf_app, run_fragments_calls.
    change (toolCallsOf [finish _ _]) with (@nil (string * string * string)).
    rewrite app_nil_r. simpl app.
    set (s0 := fst (run initialSession items)) in *.
    assert (toolCalls (fst (run s0 (fragmentItem <$> l))) = omap entryOnce l) as T.
    { rewrite run_identified; [rewrite Q1; reflexivity|exact Hid|exact ND|].
      intros toolCall c _ _. rewrite Q1. intros H. inversion H. }
    rewrite flush_toolCallsOf.
    2:{ rewrite T. apply Forall_forall. intros [c tc] Hin.
        apply list_elem_of_omap in Hin as (toolCall & _ & Hin).
        unfold entryOnce in Hin. destruct (JS.truthy (tcd_id toolCall)); [|discriminate].
        injection Hin as <- <-. reflexivity. }
    rewrite T. simpl r_content. unfold callsOf at 1. rewrite omap_app. fold (callsOf calls).
    rewrite Cc.
    assert (omap (fun part => match part with
                              | content_tool_call c n input => Some (c, n, input)
                              | _ => None
                              end)
              (option_list (content_text <$> JS.truthy (m_content message))) = []) as ->.
    { destruct (JS.truthy (m_content message)); reflexivity. }
    simpl app. clear -Hid F.
    induction F as [|toolCall part l calls H F IH]; [constructor|].
    apply Forall_cons in Hid as [[c Hc] Hid].
    pose proof H as H'.
    unfold toolCallContent in H. destruct (tcd_function toolCall) as [fn|] eqn:Ef;
      [|discriminate]. injection H as <-.
    assert (entryOnce toolCall = Some (c, trackedOnce c (Some fn))) as He.
    { unfold entryOnce. rewrite Hc, Ef. reflexivity. }
    csimpl. rewrite He, H'. csimpl.
    constructor; [|apply IH, Hid].
    unfold sameCall. simpl. apply truthy_nonempty in Hc as [-> _].
    repeat split.
  - destruct (outputFrom_finishesLast initialSession
                (items ++ (fragmentItem <$> l))) as (pre & -> & _).
    eexists pre, _, _. split; [reflexivity|].
    destruct (fragments_plain l) as [P1 P2].
    rewrite usageAfter_app, reasonAfter_app, (usageAfter_none _ _ P1),
      (reasonAfter_none _ _ P2), Hr, Hu.
    simpl r_finishReason. simpl r_usage. rewrite Hc. csimpl. split.
    + intros [x Hx]. rewrite Hx. apply truthy_nonempty in Hx as [-> _]. reflexivity.
    + intros Hu'. destruct (g_usage data) as [u|]; [|reflexivity].
      destruct (Hu' u eq_refl) as [t Et].
      unfold generateUsage, readUsage, JS.orZero. simpl. rewrite Et. reflexivity.
Qed.

End Agreement.

(** * Concrete runs *)

Section Runs.

#[local] Existing Instance Sample.collaborators.

Import Sample.

Example finishWithDelta_output :
  doStream finishWithDelta source_done =
    ([tool_input_start "c1" "f"; tool_input_delta "c1" (json "{'a':");
      tool_input_end "c1"; tool_call "c1" "f" (json "{'a':");
      tool_input_delta "c1" "1}";
      finish zeroUsage tool_calls], closed).
Proof. vm_compute. reflexivity. Qed.

Example toolStream_output :
  doStream toolStream source_done =
    ([tool_input_start "c1" "f"; tool_input_delta "c1" (json "{'a':");
      tool_input_delta "c1" "1}";
      tool_input_end "c1"; tool_call "c1" "f" (json "{'a':1}");
      finish {| inputTokens := 10; outputTokens := 5; totalTokens := 15 |} tool_calls],
     closed).
Proof. vm_compute. reflexivity. Qed.

Example textStream_output :
  doStream textStream source_done =
    ([text_start "text-0"; text_delta "text-0" "Hello"; text_delta "text-0" " world";
      text_end "text-0"; finish zeroUsage stop], closed).
Proof. vm_compute. reflexivity. Qed.

Example unnamedStream_output :
  doStream unnamedStream source_done =
    ([tool_input_delta "c2" "[1]"; tool_input_end "c2";
      tool_call "c2" EmptyString "[1]"; finish zeroUsage stop], closed).
Proof. vm_compute. reflexivity. Qed.

Example emptyStream_output :
  doStream emptyStream source_done =
    ([tool_input_start "call_streaming_2" "getCurrentTime";
      tool_input_end "call_streaming_2";
      tool_call "call_streaming_2" "getCurrentTime" "{}";
      finish zeroUsage tool_calls], closed).
Proof. vm_compute. reflexivity. Qed.

(** After the finish signal the span is ended and the text goes on. *)
Example textAfterFinish_output :
  doStream textAfterFinish source_done =
    ([text_start "text-0"; text_delta "text-0" "Hello"; text_end "text-0";
      text_delta "text-0" " world"; finish zeroUsage stop], closed).
Proof. vm_compute. reflexivity. Qed.

(** A name that comes after the first arguments starts the input late. *)
Example lateNameStream_output :
  doStream lateNameStream source_done =
    ([tool_input_delta "c2" "[1]"; tool_input_start "c2" "g"; tool_input_end "c2";
      tool_call "c2" "g" "[1]"; finish zeroUsage stop], closed).
Proof. vm_compute. reflexivity. Qed.

(** The sentinel is taken for an empty buffer even when it was written:
    the arguments [{}] followed by a space lose the braces. *)
Example accumulate_sentinel_written :
  accumulated "{}" ["{"; "}"; " "] = " ".
Proof. reflexivity. Qed.

Example bracesStream_output :
  doStream bracesStream source_done =
    ([tool_input_start "c3" "h"; tool_input_delta "c3" "{}"; tool_input_delta "c3" " ";
      tool_input_end "c3"; tool_call "c3" "h" " "; finish zeroUsage stop], closed).
Proof. vm_compute. reflexivity. Qed.

(** *** C1 *)

(** In the scenario of section 8 the second [tool-input-delta] for [c1]
    stands after the [tool-call] for [c1]. *)
Lemma ordering_counterexample : ~ ordered (fst (doStream finishWithDelta source_done)).
Proof.
  rewrite finishWithDelta_output. intros [H _].
  destruct (H "c1") as (_ & _ & H3 & _).
  specialize (H3 4%nat 3%nat (tool_input_delta "c1" "1}")
                (tool_call "c1" "f" (json "{'a':")) eq_refl eq_refl).
  assert (4 < 3)%nat; [|lia]. by apply H3.
Qed.

Lemma ordering_witness : ordered (fst (doStream toolStream source_done)).
Proof.
  apply (ordering toolStream); vm_compute; reflexivity.
Defined.

(** *** C2 *)

(** In the scenario of section 8 the input of the [tool-call] lacks the
    fragment that came with the finish signal. *)
Lemma input_counterexample :
  idFirstThenIndex [] [] (streamItems finishWithDelta) = true /\
  ~ inputIsConcatenation (streamItems finishWithDelta)
      (fst (doStream finishWithDelta source_done)).
Proof.
  split; [vm_compute; reflexivity|].
  rewrite finishWithDelta_output. intros H.
  specialize (H "c1" "f" (json "{'a':")). vm_compute in H.
  assert (tool_call "c1" "f" (json "{'a':")
            ∈ [tool_input_start "c1" "f"; tool_input_delta "c1" (json "{'a':");
               tool_input_end "c1"; tool_call "c1" "f" (json "{'a':");
               tool_input_delta "c1" "1}"; finish zeroUsage tool_calls]) as Hin
    by (repeat constructor).
  apply H in Hin. vm_compute in Hin. discriminate Hin.
Qed.

Lemma input_witness :
  tool_call "c1" "f" (json "{'a':1}") ∈ fst (doStream toolStream source_done) /\
  json "{'a':1}"
  = concatenation (argumentTexts (delivered ∅ "c1" (streamItems toolStream))).
Proof.
  assert (tool_call "c1" "f" (json "{'a':1}") ∈ fst (doStream toolStream source_done))
    as Hin by (vm_compute; repeat constructor).
  split; [exact Hin|].
  refine (proj2 (input_concatenated toolStream "c1" "f" (json "{'a':1}") _ Hin) _ _).
  - vm_compute. reflexivity.
  - intros pre post E Hpre Hpost.
    assert (argumentTexts (delivered ∅ "c1" (streamItems toolStream))
            = [json "{'a':"; "1}"]) as T by (vm_compute; reflexivity).
    rewrite T in E.
    destruct pre as [|x [|y pre]]; [done| |].
    + injection E as <- _. vm_compute. discriminate.
    + destruct post; [done|]. destruct pre; discriminate E.
  - vm_compute. discriminate.
Defined.

(** *** C4 *)

Lemma default_finish_witness :
  exists pre,
    doStream textStream source_done = (pre ++ [finish zeroUsage stop], closed)
    /\ forall e, e ∈ pre -> kind e <> Finish.
Proof.
  apply (default_finish textStream). vm_compute. repeat constructor.
Defined.

(** *** C5 *)

Lemma malformed_frame_dropped_witness :
  malformed "data: {invalid json}" /\
  doStream textStream source_done
  = ([text_start "text-0"; text_delta "text-0" "Hello"; text_delta "text-0" " world";
      text_end "text-0"; finish zeroUsage stop], closed).
Proof.
  assert (malformed "data: {invalid json}") as Hbad.
  { split; [|split]; vm_compute; [reflexivity | discriminate | reflexivity]. }
  split; [exact Hbad|].
  refine (proj2 (proj2 malformed_frame_dropped) textStream
            (String.append "data: " hello) "data: {invalid json}"
            (String.append "data: " world) [] "Hello" " world" _ _ Hbad _ _ _ _).
  - vm_compute. reflexivity.
  - vm_compute. reflexivity.
  - vm_compute. reflexivity.
  - constructor.
  - discriminate.
  - discriminate.
Defined.

(** *** C6 *)

Lemma fragment_resolution_witness :
  correlatedWith "c1" initialSession (fragment 0 (Some "c1") (Some "f") None)
    (handleToolCall initialSession (fragment 0 (Some "c1") (Some "f") None))
  /\ indexToId (fst (handleToolCall initialSession (fragment 0 (Some "c1") (Some "f") None)))
     = <[0 := "c1"]> ∅.
Proof.
  exact (proj1 (fragment_resolution initialSession (fragment 0 (Some "c1") (Some "f") None))
           "c1" eq_refl).
Defined.

(** *** C7 *)

Lemma usage_last_writer_wins_witness :
  usage (fst (processFrame (collaborators := SampleUsage.collaborators)
                (set_usage {| inputTokens := 10; outputTokens := 5; totalTokens := 15 |}
                   initialSession)
                SampleUsage.lateUsageFrame))
  = {| inputTokens := 7; outputTokens := 2; totalTokens := 0 |}
  /\ exists pre r,
       doStream (collaborators := SampleUsage.collaborators) SampleUsage.twoUsages source_done
       = (pre ++ [finish {| inputTokens := 7; outputTokens := 2; totalTokens := 0 |} r],
          closed)
       /\ forall e, e ∈ pre -> kind e <> Finish.
Proof.
  split.
  - refine (proj1 (usage_last_writer_wins (collaborators := SampleUsage.collaborators))
              _ SampleUsage.lateUsageFrame
              {| prompt_tokens := Some 7; completion_tokens := Some 2;
                 total_tokens := None |} _).
    reflexivity.
  - refine (proj2 (usage_last_writer_wins (collaborators := SampleUsage.collaborators))
              SampleUsage.twoUsages
              [usageFrame 10 5 15; frame (Some "Hello") None None]
              SampleUsage.lateUsageFrame []
              {| prompt_tokens := Some 7; completion_tokens := Some 2;
                 total_tokens := None |} _ _ _).
    + vm_compute. reflexivity.
    + reflexivity.
    + constructor.
Defined.

(** *** C8 *)

(** In the scenario of section 8 the fragment that comes with the finish
    signal is appended to the buffer of the call the flush has just
    completed. *)
Lemma completed_counterexample : ~ frozenOnceCompleted (streamItems finishWithDelta).
Proof.
  intros H.
  specialize (H "c1"
                [fragmentItem (fragment 0 (Some "c1") (Some "f") (Some (json "{'a':")));
                 finishItem "tool_calls"]
                (fragment 0 None None (Some "1}")) []).
  assert (streamItems finishWithDelta
          = [fragmentItem (fragment 0 (Some "c1") (Some "f") (Some (json "{'a':")));
             finishItem "tool_calls"]
            ++ fragmentItem (fragment 0 None None (Some "1}")) :: []) as E
    by (vm_compute; reflexivity).
  specialize (H E). vm_compute in H. specialize (H eq_refl). discriminate H.
Qed.

Lemma completed_once_witness :
  rises (completedFlag "c1" <$> sessions initialSession (streamItems toolStream)) = 1%nat
  /\ falls (completedFlag "c1" <$> sessions initialSession (streamItems toolStream)) = O.
Proof.
  apply (proj1 (completed_once toolStream "c1")). vm_compute. discriminate.
Defined.

(** *** C9 *)

Lemma unnamed_call_witness :
  absent ToolInputStart "c2" (fst (doStream unnamedStream source_done))
  /\ exists pre post,
       fst (doStream unnamedStream source_done)
       = pre ++ tool_input_end "c2"
             :: tool_call "c2" EmptyString
                  (accumulated "{}"
                     (argumentTexts (firstSpan ∅ "c2" false (streamItems unnamedStream))))
             :: post.
Proof.
  apply (unnamed_call unnamedStream "c2").
  - vm_compute. discriminate.
  - vm_compute. repeat constructor.
Defined.

(** *** C10 *)

Lemma empty_arguments_witness :
  (forall e,
      e ∈ snd (handleToolCall initialSession
                 (fragment 0 (Some "call_streaming_2") (Some "getCurrentTime")
                    (Some EmptyString))) ->
      kind e <> ToolInputDelta)
  /\ (forall n input,
        tool_call "call_streaming_2" n input ∈ fst (doStream emptyStream source_done) ->
        input = "{}").
Proof.
  split.
  - exact (proj1 (proj1 empty_arguments initialSession
                    (fragment 0 (Some "call_streaming_2") (Some "getCurrentTime")
                       (Some EmptyString)) eq_refl)).
  - intros n input. apply (proj2 empty_arguments emptyStream "call_streaming_2" n input).
    vm_compute. repeat constructor.
Defined.

End Runs.

(** * Concrete runs of the further properties *)

Section ReaderRuns.

#[local] Existing Instance Sample.collaborators.

Import Sample.

(** The sentinel in the middle of a body: the text after it is still
    delivered. *)
Example done_is_not_the_end :
  doStream [sse hello; sse "[DONE]"; sse world] source_done
  = ([text_start "text-0"; text_delta "text-0" "Hello"; text_delta "text-0" " world";
      text_end "text-0"; finish zeroUsage stop], closed).
Proof. vm_compute. reflexivity. Qed.

Lemma passed_over_line_witness :
  passedOver "data: [DONE]"
  /\ doStream ([sse hello] ++ sse "[DONE]" :: [sse world]) source_done
     = doStream ([sse hello] ++ String JS.LF EmptyString :: [sse world]) source_done.
Proof.
  assert (passedOver "data: [DONE]") as H by (right; vm_compute; reflexivity).
  split; [exact H|].
  apply (passed_over_line [sse hello] (sse "[DONE]") (String JS.LF EmptyString) [sse world]
           [] "data: [DONE]" [EmptyString; EmptyString] source_done).
  - vm_compute. reflexivity.
  - vm_compute. reflexivity.
  - exact H.
Defined.

Lemma last_finish_signal_wins_witness :
  exists pre u,
    doStream [sse finishStop; sse finishToolCalls] source_done
    = (pre ++ [finish u (mapHeliconeFinishReason "tool_calls")], closed)
    /\ forall e, e ∈ pre -> kind e <> Finish.
Proof.
  apply (last_finish_signal_wins [sse finishStop; sse finishToolCalls]
           [frame None None (Some "stop")] (frame None None (Some "tool_calls")) []
           "tool_calls").
  - vm_compute. reflexivity.
  - vm_compute. reflexivity.
  - constructor.
Defined.

Lemma tool_input_completed_witness :
  occurrences ToolInputEnd "c1" (fst (doStream toolStream source_done)) = 1%nat
  /\ occurrences ToolCall "c1" (fst (doStream toolStream source_done)) = 1%nat.
Proof.
  apply (tool_input_completed toolStream "c1" (tool_input_start "c1" "f")).
  - assert (exists rest, fst (doStream toolStream source_done)
                         = tool_input_start "c1" "f" :: rest) as [rest ->]
      by (eexists; vm_compute; reflexivity).
    left.
  - left. reflexivity.
  - reflexivity.
Defined.

End ReaderRuns.

Section RequestRuns.

#[local] Existing Instance Sample.collaborators.
#[local] Existing Instance SampleRequest.platform.

Import SampleRequest.

Example headers_of_model :
  headers model !! "Authorization" = Some "Bearer test-key"
  /\ headers model !! "Helicone-Session-Id" = Some "tool-session-123"
  /\ headers model !! "Helicone-Property-Tag-demo" = Some "true"
  /\ headers model !! "Helicone-Cache-Enabled" = Some "true".
Proof. vm_compute. repeat split; reflexivity. Qed.

Example text_tool_refused :
  toolEntry textTool = inl (invalidSchema (Some "echo") (Some (jstring "string"))).
Proof. vm_compute. reflexivity. Qed.

Lemma tag_headers_witness :
  headers model !! String.append "Helicone-Property-Tag-" "demo" = Some "true".
Proof.
  apply (tag_headers model metadata "demo").
  - reflexivity.
  - right. left.
Defined.

Lemma metadata_headers_witness :
  headers model !! "Helicone-Session-Id" = Some "tool-session-123"
  /\ headers model !! String.append "Helicone-Property-" "example" = Some "tool-calling".
Proof.
  pose proof (metadata_headers model metadata eq_refl) as (H1 & _ & _ & H2).
  split; [exact H1|].
  apply H2.
  - apply (bool_decide_unpack _). vm_compute. exact I.
  - left.
  - intros tag Htag.
    apply elem_of_cons in Htag as [->|Htag]; [discriminate|].
    apply elem_of_cons in Htag as [->|Htag]; [discriminate|]. inversion Htag.
Defined.

Lemma extra_body_precedence_witness :
  body !! "stream" = Some (jbool true)
  /\ body !! "temperature" = Some (jnumber (QArith_base.Qmake 1 1))
  /\ body !! "model" = Some (jstring "gpt-4o-mini")
  /\ body !! "tool_choice" = Some (jstring "auto").
Proof.
  assert (buildRequestBody model options = inr body) as H by reflexivity.
  pose proof (extra_body_precedence model options body H) as (H1 & H2 & _ & _ & _ & H3).
  split; [|split; [|split]].
  - apply H1; [vm_compute; reflexivity|]. apply (bool_decide_unpack _). vm_compute. exact I.
  - apply H1; [vm_compute; reflexivity|]. apply (bool_decide_unpack _). vm_compute. exact I.
  - apply H2. vm_compute. reflexivity.
  - rewrite H3 by (eexists; reflexivity). vm_compute. reflexivity.
Defined.

Lemma prompt_id_replaces_messages_witness :
  body !! "prompt_id" = Some (jstring "prompt-1")
  /\ body !! "messages" = None
  /\ body !! "environment" = Some (jstring "production")
  /\ body !! "inputs" = None.
Proof.
  assert (buildRequestBody model options = inr body) as H by reflexivity.
  exact (prompt_id_replaces_messages model options body H).
Defined.

Lemma response_read_witness :
  exists r, readResponse response = Some r
    /\ r_content r =
         [content_text "Checking";
          content_tool_call (Some "call_1") (Some "getWeather")
            (jobject (<["city" := jstring "Paris"]> ∅));
          content_tool_call (Some "call_2") (Some "getTime") (jobject ∅)]
    /\ totalTokens (r_usage r) = 70.
Proof.
  assert (JSON_parse_value "{}" = Some (jobject ∅)) as P by (vm_compute; reflexivity).
  destruct (response_read response P) as [[_ H] _].
  destruct H as [r Hr].
  - unfold readable. eexists _, _. split; [reflexivity|]. split; [reflexivity|].
    repeat constructor; eexists; reflexivity.
  - exists r. split; [exact Hr|]. vm_compute in Hr. injection Hr as <-.
    split; vm_compute; reflexivity.
Defined.

Lemma one_frame_agreement_witness :
  let out := fst (doStream [Sample.sse Sample.callWithEmptyArguments] source_done) in
  toolCallsOf out = [("call_streaming_2", "getCurrentTime", "{}")]
  /\ Forall2 sameCall (toolCallsOf out)
        [(Some "call_streaming_2", Some "getCurrentTime", jobject ∅)].
Proof.
  assert (streamFrames [Sample.sse Sample.callWithEmptyArguments] = [asFrame timeResponse])
    as E by (vm_compute; reflexivity).
  assert (readResponse timeResponse = Some timeResult) as R by (vm_compute; reflexivity).
  pose proof (one_frame_agreement _ _ _ E R) as (_ & H & _).
  split; [vm_compute; reflexivity|].
  apply H. split.
  - repeat constructor. eexists. reflexivity.
  - apply NoDup_singleton.
Defined.

End RequestRuns.
